(** * cnapp-reporter: the read-side computations of the presentation layer

    A shallow embedding of the pure computations of the React front end
    (CSV export, vulnerability filtering and package grouping, identity
    staleness), with the properties the specification states about them.

    JavaScript strings are modelled by [string] (a sequence of characters),
    [T | null] by [option T], a [Map] and a [Set] by lists kept in insertion
    order, which is the order in which JavaScript iterates them.  A value
    of type [unknown] is a primitive value or an object, an operation that
    may throw ends in a [Completion], and the sort of the engine is a
    function that meets what ECMAScript requires of it. *)

From Stdlib Require Import List String Ascii Bool Arith ZArith Lia.
From Stdlib Require Import Permutation Sorted DecimalString QArith.
From Stdlib Require Import Qround.
From Stdlib Require DecimalPos DecimalFacts.
Import ListNotations.

Close Scope Q_scope.
Local Open Scope list_scope.
Local Open Scope string_scope.

(* ------------------------------------------------------------------ *)
(** ** The fragments of the JavaScript library the pages use *)

Module Js.

(** [s.includes(sub)] *)
Fixpoint includes (s sub : string) : bool :=
  prefix sub s ||
  match s with
  | EmptyString => false
  | String _ s' => includes s' sub
  end.

(** [s.replace(/c/g, rep)] for a pattern that is the single character [c]. *)
Fixpoint replace_g (c : ascii) (rep : string) (s : string) : string :=
  match s with
  | EmptyString => EmptyString
  | String a s' =>
      if Ascii.eqb a c then rep ++ replace_g c rep s'
      else String a (replace_g c rep s')
  end.

(** [xs.join(sep)] on an array of strings. *)
Fixpoint join (sep : string) (xs : list string) : string :=
  match xs with
  | [] => ""
  | [x] => x
  | x :: rest => x ++ sep ++ join sep rest
  end.

(** Truthiness of a [string | null]: [null] and [''] are falsy. *)
Definition truthy (v : option string) : bool :=
  match v with
  | None => false
  | Some s => negb (s =? "")
  end.

(** [v ?? d] *)
Definition nullish_or {A : Type} (v : option A) (d : A) : A :=
  match v with
  | Some x => x
  | None => d
  end.

(** [s.toLowerCase()], on the ASCII letters. *)
Definition lower_ascii (a : ascii) : ascii :=
  let n := nat_of_ascii a in
  if (65 <=? n)%nat && (n <=? 90)%nat then ascii_of_nat (n + 32) else a.

Fixpoint toLowerCase (s : string) : string :=
  match s with
  | EmptyString => EmptyString
  | String a s' => String (lower_ascii a) (toLowerCase s')
  end.

(** A [Set<string>]: its elements in insertion order, each once. *)
Definition StringSet := list string.

Definition Set_has (x : string) (s : StringSet) : bool :=
  existsb (String.eqb x) s.

(** [s.add(x)] *)
Definition Set_add (x : string) (s : StringSet) : StringSet :=
  if Set_has x s then s else (s ++ [x])%list.

(** [add] over a list, from any starting set. *)
Definition Set_add_all (s : StringSet) (xs : list string) : StringSet :=
  fold_left (fun s x => Set_add x s) xs s.

(** [new Set(xs)] *)
Definition Set_of (xs : list string) : StringSet := Set_add_all [] xs.

(** [s.size] *)
Definition Set_size (s : StringSet) : nat := List.length s.

(** A [Map<string, V>]: its entries in insertion order, one per key. *)
Definition StringMap (V : Type) := list (string * V).

(** [m.get(k)] *)
Fixpoint Map_get {V : Type} (k : string) (m : StringMap V) : option V :=
  match m with
  | [] => None
  | (k', v) :: rest => if k =? k' then Some v else Map_get k rest
  end.

(** [m.set(k, v)]: a present key keeps its place, a new key goes last. *)
Fixpoint Map_set {V : Type} (k : string) (v : V) (m : StringMap V)
  : StringMap V :=
  match m with
  | [] => [(k, v)]
  | (k', v') :: rest =>
      if k =? k' then (k', v) :: rest else (k', v') :: Map_set k v rest
  end.

(** [[...m.values()]] *)
Definition Map_values {V : Type} (m : StringMap V) : list V := map snd m.

Definition Map_keys {V : Type} (m : StringMap V) : list string := map fst m.

(** How an operation ends: with a value, or by throwing: a [TypeError] of
    the language, or what a method of an object throws. *)
Inductive Error : Type :=
| TypeError
| Thrown (what : string).

Inductive Completion (A : Type) : Type :=
| Normal (a : A)
| Throw (e : Error).

Arguments Normal {A} a.
Arguments Throw {A} e.

Definition bind {A B : Type} (c : Completion A) (k : A -> Completion B)
  : Completion B :=
  match c with
  | Normal a => k a
  | Throw e => Throw e
  end.

(** An array that may have holes: its elements in the order of the
    indices, [None] standing for a hole.  The arrays that the pages build
    with [map], [filter] and the spread of a [Set] have no holes and are
    lists. *)
Definition Array_ (A : Type) : Type := list (option A).

(** The array without holes of the elements of a list. *)
Definition Array_of {A : Type} (l : list A) : Array_ A := map Some l.

(** [xs.map(callback)] for a callback that may throw: the elements are
    visited from left to right, a hole is passed over and left a hole, and
    the first throw ends the call. *)
Fixpoint Array_map {A B : Type} (callback : A -> Completion B) (xs : Array_ A)
  : Completion (Array_ B) :=
  match xs with
  | [] => Normal []
  | None :: rest =>
      bind (Array_map callback rest) (fun ys => Normal (None :: ys))
  | Some x :: rest =>
      bind (callback x) (fun y =>
      bind (Array_map callback rest) (fun ys =>
      Normal (Some y :: ys)))
  end.

(** [xs.join(sep)] on an array of strings that may have holes: a hole
    gives the empty string, as [undefined] does. *)
Definition Array_join (sep : string) (xs : Array_ string) : string :=
  join sep (map (fun x => nullish_or x "") xs).

(** Number values, as [Number::toString] sees them: [NaN], a zero, an
    infinity, or a finite number other than zero.  [Finite negative s n]
    is the number of absolute value [s * 10^(n - k)], [k] being the number
    of decimal digits of [s]: 87.5 is [Finite false 875 2] and 1e21 is
    [Finite false 1 22].  Every finite double other than zero has such a
    form, with [s] the digits of the shortest decimal numeral that reads
    back as the double; these are the integers [n], [k] and [s] that the
    algorithm of ECMAScript starts from. *)
Module Number.

Inductive t : Type :=
| NaN
| Zero (negative : bool)
| Infinity (negative : bool)
| Finite (negative : bool) (s : positive) (n : Z).

(** The decimal digits of a positive integer. *)
Definition digits (s : positive) : string :=
  NilEmpty.string_of_uint (Pos.to_uint s).

(** The digits without the zeros at their end: [k] is as small as
    possible. *)
Fixpoint strip_zeros (d : string) : string :=
  match d with
  | EmptyString => EmptyString
  | String a rest =>
      match strip_zeros rest with
      | EmptyString => if Ascii.eqb a "0" then EmptyString else String a EmptyString
      | String b r => String a (String b r)
      end
  end.

Fixpoint zeros (count : nat) : string :=
  match count with
  | O => EmptyString
  | S c => String "0" (zeros c)
  end.

(** The decimal numeral of a natural number given as a [Z]. *)
Definition decimal (z : Z) : string :=
  NilZero.string_of_uint (N.to_uint (Z.to_N z)).

(** [Number::toString(x, 10)] on [s] and [n], for a number above zero. *)
Definition toString_finite (s : positive) (n : Z) : string :=
  let d := strip_zeros (digits s) in
  let k := Z.of_nat (String.length d) in
  if (k <=? n)%Z && (n <=? 21)%Z then
    d ++ zeros (Z.to_nat (n - k))
  else if (0 <? n)%Z && (n <=? 21)%Z then
    substring 0 (Z.to_nat n) d ++ "."
    ++ substring (Z.to_nat n) (Z.to_nat (k - n)) d
  else if (-6 <? n)%Z && (n <=? 0)%Z then
    "0." ++ zeros (Z.to_nat (- n)) ++ d
  else
    let e := (n - 1)%Z in
    let exponent := (if (e <? 0)%Z then "-" else "+") ++ decimal (Z.abs e) in
    if (k =? 1)%Z then d ++ "e" ++ exponent
    else substring 0 1 d ++ "." ++ substring 1 (Z.to_nat (k - 1)) d
         ++ "e" ++ exponent.

Definition toString (x : t) : string :=
  match x with
  | NaN => "NaN"
  | Zero _ => "0"
  | Infinity negative => if negative then "-Infinity" else "Infinity"
  | Finite negative s n =>
      (if negative then "-" else "") ++ toString_finite s n
  end.

(** The number of a count, such as [set.size] or [array.length]. *)
Definition of_nat (count : nat) : t :=
  match count with
  | O => Zero false
  | S _ =>
      let s := Pos.of_nat count in
      Finite false s (Z.of_nat (String.length (digits s)))
  end.

End Number.

(** [BigInt::toString(z, 10)] *)
Definition BigInt_toString (z : Z) : string :=
  NilZero.string_of_int (Z.to_int z).

(** An [Array.prototype.sort] of some engine: a function of the comparator
    and the array. *)
Definition Sort : Type := forall A : Type, (A -> A -> Z) -> list A -> list A.

(** [xs.sort(compareFn)] for a consistent comparator.  ECMAScript
    requires the sort to be stable and, for a consistent comparator, to
    put [a] before [b] when [compareFn a b < 0]; the sorted array is
    determined by these two requirements ([JsFacts.sort_consistent]), and
    the stable insertion sort computes it.  For a comparator that is not
    consistent the order is left to the engine, and the insertion sort is
    one engine among others ([Notions.conforming]): what is proved of the
    order of a sorted array below is proved for consistent comparators,
    or of every engine. *)
Fixpoint sort_insert {A : Type} (compareFn : A -> A -> Z) (x : A)
  (l : list A) : list A :=
  match l with
  | [] => [x]
  | y :: ys =>
      if (compareFn x y <=? 0)%Z then x :: y :: ys
      else y :: sort_insert compareFn x ys
  end.

Fixpoint sort {A : Type} (compareFn : A -> A -> Z) (l : list A) : list A :=
  match l with
  | [] => []
  | x :: xs => sort_insert compareFn x (sort compareFn xs)
  end.

End Js.

(* ------------------------------------------------------------------ *)
(** ** components/CsvDownload.tsx *)

Module CsvDownload.
Import Js.

(** The primitive values. *)
Inductive primitive : Type :=
| JsUndefined
| JsNull
| JsBoolean (b : bool)
| JsNumber (x : Number.t)
| JsBigInt (z : Z)
| JsString (s : string)
| JsSymbol (description : option string).

(** An object, as far as the export observes it: how the conversion
    [ToPrimitive(value, string)] ends on it, with the primitive that its
    [Symbol.toPrimitive], [toString] or [valueOf] method returns or with
    what is thrown (a [TypeError] when no method returns a primitive, as
    for [Object.create(null)]); and whether it is an object that compares
    equal to [null], which [document.all] is.  Arrays, functions and dates
    are objects.  The conversion is taken to have no other effect. *)
Record object : Type :=
  { IsHTMLDDA : bool;
    ToPrimitive : Completion primitive }.

(** A value of type [unknown]. *)
Inductive unknown : Type :=
| Primitive (p : primitive)
| Object_ (o : object).

(** [ToString] on a primitive value: a symbol has no string conversion. *)
Definition ToString (p : primitive) : Completion string :=
  match p with
  | JsUndefined => Normal "undefined"
  | JsNull => Normal "null"
  | JsBoolean b => Normal (if b then "true" else "false")
  | JsNumber x => Normal (Number.toString x)
  | JsBigInt z => Normal (BigInt_toString z)
  | JsString s => Normal s
  | JsSymbol _ => Throw TypeError
  end.

(** [String(value)]: the descriptive string of a symbol, else
    [ToString(value)], which converts an object to a primitive first. *)
Definition String_ (value : unknown) : Completion string :=
  match value with
  | Primitive (JsSymbol description) =>
      Normal ("Symbol(" ++ nullish_or description "" ++ ")")
  | Primitive p => ToString p
  | Object_ o => bind (ToPrimitive o) ToString
  end.

(** [value == null] *)
Definition loosely_equals_null (value : unknown) : bool :=
  match value with
  | Primitive JsNull | Primitive JsUndefined => true
  | Primitive _ => false
  | Object_ o => IsHTMLDDA o
  end.

Definition comma : ascii := ","%char.
Definition dquote : ascii := "034"%char.
Definition newline : ascii := "010"%char.

Definition str1 (a : ascii) : string := String a EmptyString.

Definition escapeCsvField (value : unknown) : Completion string :=
  if loosely_equals_null value then Normal ""
  else
    bind (String_ value) (fun str =>
    if includes str (str1 comma) || includes str (str1 dquote)
       || includes str (str1 newline)
    then Normal (str1 dquote
                 ++ replace_g dquote (String dquote (str1 dquote)) str
                 ++ str1 dquote)
    else Normal str).

Record Column : Type := { key : string; label : string }.

(** A property of an object: a data property with its value, or an
    accessor property with the way in which the call of its getter ends
    (with [undefined] when it has no getter).  A getter is taken to have
    no other effect. *)
Inductive property : Type :=
| Data (value : unknown)
| Accessor (get : Completion unknown).

(** A [Record<string, unknown>].  An ordinary object is given by its own
    enumerable properties, in the order in which [Object.keys] lists them
    (a key occurs once), and by the properties that [row[key]] finds
    elsewhere: on the prototype chain, as [constructor] and [toString] for
    an object literal, or among the own properties that are not
    enumerable.  An exotic object, a proxy, is given by what its traps
    make of [Object.keys(row)] and of [row[key]]. *)
Inductive Row : Type :=
| Ordinary (own inherited : list (string * property))
| Exotic (ownKeys : Completion (list string))
         (get : string -> Completion unknown).

(** [Object.keys(row)] *)
Definition Object_keys (row : Row) : Completion (list string) :=
  match row with
  | Ordinary own _ => Normal (map fst own)
  | Exotic ownKeys _ => ownKeys
  end.

(** The first property named [k] in a list of properties. *)
Fixpoint find_property (k : string) (properties : list (string * property))
  : option property :=
  match properties with
  | [] => None
  | (k', p) :: rest => if k =? k' then Some p else find_property k rest
  end.

(** Reading a property: its value, or the call of its getter. *)
Definition Get (p : property) : Completion unknown :=
  match p with
  | Data value => Normal value
  | Accessor get => get
  end.

(** [row[k]]: an own property, else an inherited one, else [undefined];
    on a proxy, what the trap gives. *)
Definition prop (row : Row) (k : string) : Completion unknown :=
  match row with
  | Ordinary own inherited =>
      match find_property k own with
      | Some p => Get p
      | None =>
          match find_property k inherited with
          | Some p => Get p
          | None => Normal (Primitive JsUndefined)
          end
      end
  | Exotic _ get => get k
  end.

(** A built-in function: [String] gives its source text, which V8 and
    JavaScriptCore print on one line. *)
Definition native_function (name : string) : unknown :=
  Object_ {| IsHTMLDDA := false;
             ToPrimitive :=
               Normal (JsString ("function " ++ name ++ "() { [native code] }")) |}.

(** What an object literal inherits from [Object.prototype]: its methods,
    and the accessor [__proto__], whose getter gives the prototype. *)
Definition Object_prototype : list (string * property) :=
  [ ("constructor", Data (native_function "Object"));
    ("__defineGetter__", Data (native_function "__defineGetter__"));
    ("__defineSetter__", Data (native_function "__defineSetter__"));
    ("hasOwnProperty", Data (native_function "hasOwnProperty"));
    ("__lookupGetter__", Data (native_function "__lookupGetter__"));
    ("__lookupSetter__", Data (native_function "__lookupSetter__"));
    ("isPrototypeOf", Data (native_function "isPrototypeOf"));
    ("propertyIsEnumerable", Data (native_function "propertyIsEnumerable"));
    ("toString", Data (native_function "toString"));
    ("valueOf", Data (native_function "valueOf"));
    ("__proto__",
      Accessor
        (Normal (Object_ {| IsHTMLDDA := false;
                            ToPrimitive := Normal (JsString "[object Object]") |})));
    ("toLocaleString", Data (native_function "toLocaleString")) ].

(** An object literal [{ k1: v1, ... }] of data properties. *)
Definition object_literal (properties : list (string * unknown)) : Row :=
  Ordinary (map (fun kv => (fst kv, Data (snd kv))) properties)
           Object_prototype.

(** What the browser is handed: the blob and the name of the download. *)
Record Download : Type :=
  { blob_text : string; blob_type : string; download : string }.

(** [columns ?? Object.keys(data[0]).map((k) => ({ key: k, label: k }))];
    where [data[0]] is a hole it is [undefined], of which [Object.keys]
    throws a [TypeError]. *)
Definition csv_columns (data : Array_ Row) (columns : option (Array_ Column))
  : Completion (Array_ Column) :=
  match columns with
  | Some cs => Normal cs
  | None =>
      match data with
      | Some first :: _ =>
          bind (Object_keys first) (fun keys =>
          Normal (Array_of (map (fun k => {| key := k; label := k |}) keys)))
      | None :: _ | [] => Throw TypeError
      end
  end.

(** The text: the header and the rows joined by line feeds.  The spread
    [[header, ...rows]] turns the holes of [rows] into [undefined], which
    [join] writes as the empty string. *)
Definition csv_text (data : Array_ Row) (columns : option (Array_ Column))
  : Completion string :=
  bind (csv_columns data columns) (fun cols =>
  bind (Array_map (fun c => escapeCsvField (Primitive (JsString (label c)))) cols)
    (fun header =>
  bind (Array_map
          (fun row =>
             bind (Array_map
                     (fun c => bind (prop row (key c)) escapeCsvField) cols)
               (fun fields => Normal (Array_join "," fields)))
          data)
    (fun rows =>
  Normal (Array_join (str1 newline) (Some (Array_join "," header) :: rows))))).

(** [downloadCsv]: [Normal None] when it returns before building anything,
    [Normal (Some d)] when it hands the download [d] to the browser, and
    [Throw e] when the reading or the conversion of a cell throws, which
    is before the blob is made. *)
Definition downloadCsv (data : Array_ Row) (filename : string)
  (columns : option (Array_ Column)) : Completion (option Download) :=
  match data with
  | [] => Normal None
  | _ :: _ =>
      bind (csv_text data columns) (fun csv =>
      Normal (Some {| blob_text := csv;
                      blob_type := "text/csv;charset=utf-8;";
                      download := filename ++ ".csv" |}))
  end.

End CsvDownload.

(* ------------------------------------------------------------------ *)
(** ** pages/VulnerabilitiesPage.tsx *)

Module VulnerabilitiesPage.
Import Js.

(** [VulnDetailEntry] of types/index.ts *)
Module VulnDetailEntry.
Record t : Type :=
  { instance_name : string;
    vuln_id : string;
    severity : string;
    package : option string;
    version : option string;
    fix_version : option string;
    hostname : option string;
    external_ip : option string;
    instance_id_tag : option string;
    status : string }.
End VulnDetailEntry.

Module VulnInstanceSummary.
Record t : Type :=
  { instance_name : string; critical_count : Z; high_count : Z }.
End VulnInstanceSummary.

Module VulnPageData.
Record t : Type :=
  { total_critical : Z;
    total_high : Z;
    instances : list VulnInstanceSummary.t;
    items : list VulnDetailEntry.t }.
End VulnPageData.

(** The state of the page: the fetched data and the filter controls. *)
Record PageState : Type :=
  { data : option VulnPageData.t;
    search : string;
    instanceFilter : string;
    severityFilter : string;
    internetExposed : bool;
    fixableOnly : bool }.

Section Filtered.
Variable st : PageState.
Import VulnDetailEntry.

Definition searchLower : string := toLowerCase (search st).

Definition matchesSearch (item : VulnDetailEntry.t) : bool :=
  (search st =? "")
  || includes (toLowerCase (vuln_id item)) searchLower
  || includes (toLowerCase (nullish_or (package item) "")) searchLower
  || includes (toLowerCase (nullish_or (hostname item) "")) searchLower
  || includes (toLowerCase (nullish_or (instance_id_tag item) "")) searchLower.

Definition matchesInstance (item : VulnDetailEntry.t) : bool :=
  (instanceFilter st =? "all") || (instance_name item =? instanceFilter st).

Definition matchesSeverity (item : VulnDetailEntry.t) : bool :=
  (severityFilter st =? "all") || (severity item =? severityFilter st).

(** [item.external_ip != null && item.external_ip !== ''] *)
Definition matchesExposed (item : VulnDetailEntry.t) : bool :=
  negb (internetExposed st)
  || match external_ip item with
     | None => false
     | Some ip => negb (ip =? "")
     end.

Definition matchesFixable (item : VulnDetailEntry.t) : bool :=
  negb (fixableOnly st)
  || match fix_version item with
     | None => false
     | Some v => negb (v =? "")
     end.

Definition filtered : list VulnDetailEntry.t :=
  match data st with
  | None => []
  | Some d =>
      filter
        (fun item =>
           matchesSearch item && matchesInstance item && matchesSeverity item
           && matchesExposed item && matchesFixable item)
        (VulnPageData.items d)
  end.
End Filtered.

(** The value type of the [packageGroups] map. *)
Module PackageGroup.
Record t : Type :=
  { package : string;
    severity : string;
    versions : StringSet;
    fix_versions : StringSet;
    cves : StringSet;
    hosts : StringSet;
    instances : StringSet;
    count : nat }.
End PackageGroup.

(** [v ? [v] : []] *)
Definition if_truthy (v : option string) : list string :=
  match v with
  | Some s => if truthy v then [s] else []
  | None => []
  end.

(** [if (v) set.add(v)] *)
Definition add_if_truthy (v : option string) (s : StringSet) : StringSet :=
  match v with
  | Some x => if truthy v then Set_add x s else s
  | None => s
  end.

(** [item.package ?? 'unknown'] *)
Definition pkg_of (item : VulnDetailEntry.t) : string :=
  nullish_or (VulnDetailEntry.package item) "unknown".

(** [item.severity === 'Critical'] *)
Definition is_critical (item : VulnDetailEntry.t) : bool :=
  VulnDetailEntry.severity item =? "Critical".

(** The branch of the loop body that updates [existing] in place. *)
Definition group_update (existing : PackageGroup.t) (item : VulnDetailEntry.t)
  : PackageGroup.t :=
  {| PackageGroup.package := PackageGroup.package existing;
     PackageGroup.severity :=
       if is_critical item then "Critical" else PackageGroup.severity existing;
     PackageGroup.versions :=
       add_if_truthy (VulnDetailEntry.version item) (PackageGroup.versions existing);
     PackageGroup.fix_versions :=
       add_if_truthy (VulnDetailEntry.fix_version item)
         (PackageGroup.fix_versions existing);
     PackageGroup.cves :=
       Set_add (VulnDetailEntry.vuln_id item) (PackageGroup.cves existing);
     PackageGroup.hosts :=
       add_if_truthy (VulnDetailEntry.hostname item) (PackageGroup.hosts existing);
     PackageGroup.instances :=
       Set_add (VulnDetailEntry.instance_name item) (PackageGroup.instances existing);
     PackageGroup.count := S (PackageGroup.count existing) |}.

(** The branch that enters a new group. *)
Definition group_new (pkg : string) (item : VulnDetailEntry.t) : PackageGroup.t :=
  {| PackageGroup.package := pkg;
     PackageGroup.severity := VulnDetailEntry.severity item;
     PackageGroup.versions := Set_of (if_truthy (VulnDetailEntry.version item));
     PackageGroup.fix_versions := Set_of (if_truthy (VulnDetailEntry.fix_version item));
     PackageGroup.cves := Set_of [VulnDetailEntry.vuln_id item];
     PackageGroup.hosts := Set_of (if_truthy (VulnDetailEntry.hostname item));
     PackageGroup.instances := Set_of [VulnDetailEntry.instance_name item];
     PackageGroup.count := 1 |}.

(** One turn of [for (const item of filtered)]. *)
Definition group_item (packageGroups : StringMap PackageGroup.t)
  (item : VulnDetailEntry.t) : StringMap PackageGroup.t :=
  let pkg := pkg_of item in
  match Map_get pkg packageGroups with
  | Some existing => Map_set pkg (group_update existing item) packageGroups
  | None => Map_set pkg (group_new pkg item) packageGroups
  end.

(** The map when the loop is over. *)
Definition packageGroups (filtered : list VulnDetailEntry.t)
  : StringMap PackageGroup.t :=
  fold_left group_item filtered [].

(** The comparator handed to [sort]. *)
Definition compareFn (a b : PackageGroup.t) : Z :=
  if negb (PackageGroup.severity a =? PackageGroup.severity b)%string
  then (if (PackageGroup.severity a =? "Critical")%string then -1 else 1)%Z
  else (Z.of_nat (Set_size (PackageGroup.hosts b))
        - Z.of_nat (Set_size (PackageGroup.hosts a)))%Z.

Definition sortedPackages (filtered : list VulnDetailEntry.t)
  : list PackageGroup.t :=
  sort compareFn (Map_values (packageGroups filtered)).

(** The same loop as a transition system: the items still to visit and
    the map built so far. *)
Definition LoopState : Type :=
  (list VulnDetailEntry.t * StringMap PackageGroup.t)%type.

Inductive loop_step : LoopState -> LoopState -> Prop :=
| step_existing item rest m existing :
    Map_get (pkg_of item) m = Some existing ->
    loop_step (item :: rest, m)
              (rest, Map_set (pkg_of item) (group_update existing item) m)
| step_new item rest m :
    Map_get (pkg_of item) m = None ->
    loop_step (item :: rest, m)
              (rest, Map_set (pkg_of item) (group_new (pkg_of item) item) m).

Inductive loop_run : LoopState -> StringMap PackageGroup.t -> Prop :=
| run_done m : loop_run ([], m) m
| run_step s s' m : loop_step s s' -> loop_run s' m -> loop_run s m.

(** A run of the whole [useMemo] body on an engine: a fresh map, the loop,
    the engine's sort of the values of the map. *)
Definition sortedPackages_run (engine : Sort) (filtered : list VulnDetailEntry.t)
  (result : list PackageGroup.t) : Prop :=
  exists m, loop_run (filtered, []) m
            /\ result = engine PackageGroup.t compareFn (Map_values m).

(** The header count [exposedCritical]. *)
Definition exposedCritical (d : VulnPageData.t) : nat :=
  List.length
    (filter (fun i => is_critical i && truthy (VulnDetailEntry.external_ip i))
            (VulnPageData.items d)).



(** The columns of the package summary export. *)
Definition csvPackages_columns : list CsvDownload.Column :=
  [ {| CsvDownload.key := "package"; CsvDownload.label := "Package" |};
    {| CsvDownload.key := "severity"; CsvDownload.label := "Worst Severity" |};
    {| CsvDownload.key := "cve_count"; CsvDownload.label := "CVE Count" |};
    {| CsvDownload.key := "cves"; CsvDownload.label := "CVEs" |};
    {| CsvDownload.key := "current_versions";
       CsvDownload.label := "Current Versions" |};
    {| CsvDownload.key := "fix_versions"; CsvDownload.label := "Fix Versions" |};
    {| CsvDownload.key := "affected_hosts"; CsvDownload.label := "Affected Hosts" |};
    {| CsvDownload.key := "hostnames"; CsvDownload.label := "Hostnames" |};
    {| CsvDownload.key := "instances"; CsvDownload.label := "Instances" |} ].

End VulnerabilitiesPage.

(* ------------------------------------------------------------------ *)
(** ** pages/IdentitiesPage.tsx *)

Module IdentitiesPage.
Import Js.

(** An item of [IdentityPageData.items], with the fields the page reads.
    Day counts and entitlement counts are integers, the percentage is a
    rational. *)
Module IdentityEntry.
Record t : Type :=
  { instance_name : string;
    name : string;
    principal_id : string;
    provider : string;
    domain_id : string;
    risk_severity : string;
    risk_score : Z;
    risks : list string;
    last_used : option string;
    days_unused : option Z;
    entitlements_total : Z;
    entitlements_unused : Z;
    entitlements_unused_pct : Q;
    access_keys : list string }.
End IdentityEntry.

(** The filter controls of the page; [q] is the trimmed, lower-cased
    search text. *)
Record PageState : Type :=
  { data : option (list IdentityEntry.t);
    q : string;
    instanceFilter : string;
    severityFilter : string;
    excessiveOnly : bool;
    unusedOnly : bool }.

Section Filtered.
Variable st : PageState.
Import IdentityEntry.

Definition matchesSearch (item : IdentityEntry.t) : bool :=
  (q st =? "")
  || existsb (fun v => includes (toLowerCase v) (q st))
       ([name item; principal_id item; provider item; domain_id item;
         instance_name item] ++ risks item)%list.

Definition matchesInstance (item : IdentityEntry.t) : bool :=
  (instanceFilter st =? "all") || (instance_name item =? instanceFilter st).

Definition matchesSeverity (item : IdentityEntry.t) : bool :=
  (severityFilter st =? "all") || (risk_severity item =? severityFilter st).

Definition matchesExcessive (item : IdentityEntry.t) : bool :=
  negb (excessiveOnly st) || Qle_bool 75 (entitlements_unused_pct item).

(** [item.days_unused != null && item.days_unused >= 180] *)
Definition matchesUnused (item : IdentityEntry.t) : bool :=
  negb (unusedOnly st)
  || match days_unused item with
     | None => false
     | Some d => (180 <=? d)%Z
     end.

Definition filtered : list IdentityEntry.t :=
  match data st with
  | None => []
  | Some items =>
      filter
        (fun item =>
           matchesSearch item && matchesInstance item && matchesSeverity item
           && matchesExcessive item && matchesUnused item)
        items
  end.
End Filtered.




End IdentitiesPage.

(* ------------------------------------------------------------------ *)
(** ** Notions the properties are stated with *)

Module Notions.
Import Js.
Import VulnerabilitiesPage.

(** The comparator puts neither of [x] and [y] before the other. *)
Definition sort_tie {A : Type} (compareFn : A -> A -> Z) (x y : A) : bool :=
  (compareFn x y <=? 0)%Z && (compareFn y x <=? 0)%Z.

(** The findings of package [pkg], in the order the loop meets them. *)
Definition members (pkg : string) (findings : list VulnDetailEntry.t)
  : list VulnDetailEntry.t :=
  filter (fun item => pkg_of item =? pkg) findings.

(** What the loop has made of the members of a package once it has met
    them all: nothing without a member, else the group entered for the
    first and updated by each of the others. *)
Definition group_of (pkg : string) (members : list VulnDetailEntry.t)
  : option PackageGroup.t :=
  match members with
  | [] => None
  | first :: rest => Some (fold_left group_update rest (group_new pkg first))
  end.

(** The order the comparator decides between two groups: a Critical group
    before one of another severity, and within one severity the group with
    more hosts first. *)
Definition critical_then_hosts (a b : PackageGroup.t) : Prop :=
  (PackageGroup.severity a = "Critical" /\ PackageGroup.severity b <> "Critical")
  \/ (PackageGroup.severity a = PackageGroup.severity b
      /\ (Set_size (PackageGroup.hosts b) <= Set_size (PackageGroup.hosts a))%nat).

(** The groups the comparator does not tell apart from [g]. *)
Definition tied_with (g x : PackageGroup.t) : bool :=
  (PackageGroup.severity x =? PackageGroup.severity g)
  && (Set_size (PackageGroup.hosts x) =? Set_size (PackageGroup.hosts g))%nat.

(** The comparator is consistent on the groups: of two groups of different
    severities one is Critical. *)
Definition one_severity_below_critical (gs : list PackageGroup.t) : Prop :=
  forall a b, In a gs -> In b gs ->
    PackageGroup.severity a <> PackageGroup.severity b ->
    PackageGroup.severity a = "Critical" \/ PackageGroup.severity b = "Critical".

(** ECMAScript's consistent comparator for the elements of an array:
    [a =CF a]; [=CF] is symmetric; [=CF], [<CF] and [>CF] are transitive. *)
Definition consistent {A : Type} (compareFn : A -> A -> Z) (l : list A) : Prop :=
  (forall a, In a l -> compareFn a a = 0%Z)
  /\ (forall a b, In a l -> In b l -> compareFn a b = 0%Z -> compareFn b a = 0%Z)
  /\ (forall a b c, In a l -> In b l -> In c l ->
         compareFn a b = 0%Z -> compareFn b c = 0%Z -> compareFn a c = 0%Z)
  /\ (forall a b c, In a l -> In b l -> In c l ->
         (compareFn a b < 0)%Z -> (compareFn b c < 0)%Z -> (compareFn a c < 0)%Z)
  /\ (forall a b c, In a l -> In b l -> In c l ->
         (0 < compareFn a b)%Z -> (0 < compareFn b c)%Z -> (0 < compareFn a c)%Z).

(** What ECMAScript requires of the sort of every engine.  The sorted
    array is a rearrangement of the array.  For a consistent comparator no
    element stands after one that the comparator puts after it, and the
    elements that the comparator does not tell apart from an element of
    the array stand in the order they had: the sort is stable.  For a
    comparator that is not consistent the order is left to the engine. *)
Definition conforming (engine : Sort) : Prop :=
  forall (A : Type) (compareFn : A -> A -> Z) (l : list A),
    Permutation l (engine A compareFn l)
    /\ (consistent compareFn l ->
        StronglySorted (fun a b => (compareFn a b <= 0)%Z) (engine A compareFn l)
        /\ forall x, In x l ->
             filter (sort_tie compareFn x) (engine A compareFn l)
             = filter (sort_tie compareFn x) l).

(** The stable insertion sort as an engine. *)
Definition insertion_sort : Sort := fun A => @sort A.

(** Whether a comparator is consistent on the elements of an array. *)
Definition consistentb {A : Type} (compareFn : A -> A -> Z) (l : list A) : bool :=
  forallb (fun a =>
    (compareFn a a =? 0)%Z
    && forallb (fun b =>
         implb (compareFn a b =? 0)%Z (compareFn b a =? 0)%Z
         && forallb (fun c =>
              implb ((compareFn a b =? 0)%Z && (compareFn b c =? 0)%Z)
                    (compareFn a c =? 0)%Z
              && implb ((compareFn a b <? 0)%Z && (compareFn b c <? 0)%Z)
                       (compareFn a c <? 0)%Z
              && implb ((0 <? compareFn a b)%Z && (0 <? compareFn b c)%Z)
                       (0 <? compareFn a c)%Z) l) l) l.

(** Another engine: it sorts as the insertion sort does where the
    comparator is consistent, and leaves the array as it is where it is
    not, which is one use of the freedom that ECMAScript leaves there. *)
Definition checking_sort : Sort :=
  fun A compareFn l =>
    if consistentb compareFn l then sort compareFn l else l.


(** The page with every filter released but, if asked, "Internet Exposed". *)
Definition view (exposedOnly : bool) (items : list VulnDetailEntry.t)
  : PageState :=
  {| data := Some {| VulnPageData.total_critical := 0;
                     VulnPageData.total_high := 0;
                     VulnPageData.instances := [];
                     VulnPageData.items := items |};
     search := ""; instanceFilter := "all"; severityFilter := "all";
     internetExposed := exposedOnly; fixableOnly := false |}.


End Notions.

(* ------------------------------------------------------------------ *)
(** ** The Aggregator's identity-risk figure *)

Module IdentityRisk.




End IdentityRisk.

(* ------------------------------------------------------------------ *)
(** ** The specification's wording, for comparison with the code *)

Module Spec.
Import Js.
Import VulnerabilitiesPage Notions.

(** The ordered enumeration Critical > High > Medium > Low > Info; a string
    that is none of them ranks with Info. *)
Definition severity_rank (s : string) : nat :=
  if s =? "Critical" then 4
  else if s =? "High" then 3
  else if s =? "Medium" then 2
  else if s =? "Low" then 1
  else 0.

(** [a] may stand before [b]: severity descending, then affected hosts
    descending, then package name ascending. *)
Definition precedes (a b : PackageGroup.t) : Prop :=
  let ra := severity_rank (PackageGroup.severity a) in
  let rb := severity_rank (PackageGroup.severity b) in
  let ha := Set_size (PackageGroup.hosts a) in
  let hb := Set_size (PackageGroup.hosts b) in
  (rb < ra)%nat
  \/ (ra = rb
      /\ ((hb < ha)%nat
          \/ (ha = hb
              /\ String.leb (PackageGroup.package a) (PackageGroup.package b)
                 = true))).

Definition sorted_as_specified (l : list PackageGroup.t) : Prop :=
  StronglySorted precedes l.

(** The first two keys of that order: severity descending, then affected
    hosts descending. *)
Definition precedes_by_severity_and_hosts (a b : PackageGroup.t) : Prop :=
  let ra := severity_rank (PackageGroup.severity a) in
  let rb := severity_rank (PackageGroup.severity b) in
  (rb < ra)%nat
  \/ (ra = rb
      /\ (Set_size (PackageGroup.hosts b) <= Set_size (PackageGroup.hosts a))%nat).


(** The non-empty values of an optional attribute over some findings. *)
Definition non_empty (attr : VulnDetailEntry.t -> option string)
  (l : list VulnDetailEntry.t) : list string :=
  flat_map (fun item => if_truthy (attr item)) l.

(** A severity is the worst of some findings when one of them has it and
    none ranks above it. *)
Definition worst_severity (s : string) (l : list VulnDetailEntry.t) : Prop :=
  (exists item, In item l /\ VulnDetailEntry.severity item = s)
  /\ forall item, In item l ->
       (severity_rank (VulnDetailEntry.severity item) <= severity_rank s)%nat.

(** "present and non-empty" *)
Definition present_non_empty (v : option string) : Prop :=
  exists s, v = Some s /\ s <> "".





Import CsvDownload.

Definition has_char (c : ascii) (s : string) : bool :=
  existsb (Ascii.eqb c) (list_ascii_of_string s).

(** Every double quote written twice, every other character once. *)
Definition double_quotes (s : string) : string :=
  string_of_list_ascii
    (flat_map (fun a => if Ascii.eqb a dquote then [dquote; dquote] else [a])
       (list_ascii_of_string s)).

(** The field written for a string form: the string unchanged unless it
    holds a comma, a double quote or a line feed, and then the string
    between double quotes with every double quote inside doubled. *)
Definition escaped_text (str : string) : string :=
  if has_char comma str || has_char dquote str || has_char newline str
  then String dquote (double_quotes str ++ str1 dquote)
  else str.

(** *** The string form of a value, by the rules of ECMAScript *)

Definition zeros_text (count : nat) : string :=
  string_of_list_ascii (repeat "0"%char count).

(** The decimal numeral of [s] without the zeros at its end. *)
Definition shortest_digits (s : positive) (d : string) : Prop :=
  (forall d', d <> d' ++ "0")
  /\ exists count,
       NilEmpty.string_of_uint (Pos.to_uint s) = d ++ zeros_text count.

(** The exponent part of a numeral in scientific notation: [e], the sign
    and the decimal numeral of the absolute value of [n - 1]. *)
Definition exponent_part (n : Z) : string :=
  "e" ++ (if (n <? 1)%Z then "-" else "+")
  ++ NilZero.string_of_uint (N.to_uint (Z.abs_N (n - 1))).

(** The numeral of a number above zero with digits [s] and exponent [n]:
    plain digits up to 21 integer digits, a decimal point inside or before
    the digits down to 10^-6, and scientific notation beyond. *)
Inductive finite_form (s : positive) (n : Z) : string -> Prop :=
| form_integer (d : string) :
    shortest_digits s d ->
    (Z.of_nat (String.length d) <= n <= 21)%Z ->
    finite_form s n (d ++ zeros_text (Z.to_nat n - String.length d))
| form_fraction (d1 d2 : string) :
    shortest_digits s (d1 ++ d2) -> d2 <> "" ->
    Z.of_nat (String.length d1) = n -> (0 < n <= 21)%Z ->
    finite_form s n (d1 ++ "." ++ d2)
| form_small (d : string) :
    shortest_digits s d -> (-6 < n <= 0)%Z ->
    finite_form s n ("0." ++ zeros_text (Z.to_nat (- n)) ++ d)
| form_exponent_digit (a : ascii) :
    shortest_digits s (str1 a) -> (n <= -6 \/ 21 < n)%Z ->
    finite_form s n (str1 a ++ exponent_part n)
| form_exponent (a : ascii) (d : string) :
    shortest_digits s (String a d) -> d <> "" -> (n <= -6 \/ 21 < n)%Z ->
    finite_form s n (String a ("." ++ d) ++ exponent_part n).

Inductive number_form : Number.t -> string -> Prop :=
| form_NaN : number_form Number.NaN "NaN"
| form_zero (negative : bool) : number_form (Number.Zero negative) "0"
| form_Infinity : number_form (Number.Infinity false) "Infinity"
| form_minus_Infinity : number_form (Number.Infinity true) "-Infinity"
| form_positive (s : positive) (n : Z) (str : string) :
    finite_form s n str -> number_form (Number.Finite false s n) str
| form_negative (s : positive) (n : Z) (str : string) :
    finite_form s n str -> number_form (Number.Finite true s n) ("-" ++ str).

(** The string a primitive value converts to; a symbol converts to
    none. *)
Inductive primitive_form : primitive -> string -> Prop :=
| form_undefined : primitive_form JsUndefined "undefined"
| form_null : primitive_form JsNull "null"
| form_true : primitive_form (JsBoolean true) "true"
| form_false : primitive_form (JsBoolean false) "false"
| form_number (x : Number.t) (str : string) :
    number_form x str -> primitive_form (JsNumber x) str
| form_bigint (z : Z) :
    primitive_form (JsBigInt z) (NilZero.string_of_int (Z.to_int z))
| form_string (str : string) : primitive_form (JsString str) str.

(** The string form of a value, [String(value)]: the description of a
    symbol between [Symbol(] and [)], the conversion of any other
    primitive value, and for an object the conversion of the primitive
    value that the object converts to. *)
Inductive string_form : unknown -> string -> Prop :=
| form_symbol (description : string) :
    string_form (Primitive (JsSymbol (Some description)))
                ("Symbol(" ++ description ++ ")")
| form_symbol_undescribed :
    string_form (Primitive (JsSymbol None)) "Symbol()"
| form_primitive (p : primitive) (str : string) :
    primitive_form p str -> string_form (Primitive p) str
| form_object (o : object) (p : primitive) (str : string) :
    ToPrimitive o = Normal p -> primitive_form p str ->
    string_form (Object_ o) str.

(** The values that have no string form: the objects whose conversion to
    a primitive value throws, with what is thrown, and those that convert
    to a symbol, with a [TypeError]. *)
Definition conversion_throws (value : unknown) (e : Error) : Prop :=
  exists o,
    value = Object_ o
    /\ (ToPrimitive o = Throw e
        \/ (e = TypeError /\ exists d, ToPrimitive o = Normal (JsSymbol d))).

Definition null_or_undefined (value : unknown) : Prop :=
  value = Primitive JsNull \/ value = Primitive JsUndefined.

(** The values that compare equal to [null]: [null], [undefined] and the
    objects that the language makes equal to them. *)
Definition equal_to_null (value : unknown) : Prop :=
  null_or_undefined value
  \/ exists o, value = Object_ o /\ IsHTMLDDA o = true.

(** The field of a value: empty for a value equal to [null], else written
    from the string form. *)
Definition escaped (value : unknown) (field : string) : Prop :=
  (equal_to_null value /\ field = "")
  \/ (~ equal_to_null value
      /\ exists str, string_form value str /\ field = escaped_text str).

(** The same as C9 states it: empty for [null] and [undefined], written
    from the string form for every other value. *)
Definition escaped_as_stated (value : unknown) (field : string) : Prop :=
  (null_or_undefined value /\ field = "")
  \/ (~ null_or_undefined value
      /\ exists str, string_form value str /\ field = escaped_text str).

(** C9 as it is stated: [escapeCsvField] returns on the value, and returns
    the field the claim describes. *)
Definition escapeCsvField_as_stated (value : unknown) : Prop :=
  exists field, escapeCsvField value = Normal field
                /\ escaped_as_stated value field.

(** A reader of CSV fields: a field that opens with a double quote runs to
    its closing quote, a doubled quote inside it standing for one. *)
Fixpoint unquote (s : string) : string :=
  match s with
  | EmptyString => EmptyString
  | String a s1 =>
      if Ascii.eqb a dquote then
        match s1 with
        | String b s2 =>
            if Ascii.eqb b dquote then String dquote (unquote s2)
            else EmptyString
        | EmptyString => EmptyString
        end
      else String a (unquote s1)
  end.

Definition readCsvField (s : string) : string :=
  match s with
  | EmptyString => EmptyString
  | String a s1 => if Ascii.eqb a dquote then unquote s1 else s
  end.

(** *** The text of the export *)

(** [k] names a property of the list, and [p] is the first of that
    name. *)
Definition first_property (k : string) (p : property)
  (properties : list (string * property)) : Prop :=
  exists before after,
    properties = (before ++ (k, p) :: after)%list
    /\ ~ In k (map fst before).

(** What a property gives when it is read: the value of a data property,
    and what the getter of an accessor gives or throws. *)
Inductive property_read : property -> Completion unknown -> Prop :=
| read_data (v : unknown) : property_read (Data v) (Normal v)
| read_accessor (get : Completion unknown) : property_read (Accessor get) get.

(** The field [k] of a row: what the row's own property of that name
    gives, else the one it inherits, else [undefined]; for a proxy, what
    its trap gives. *)
Definition field_of (row : Row) (k : string) (c : Completion unknown) : Prop :=
  match row with
  | Ordinary own inherited =>
      (exists p, first_property k p own /\ property_read p c)
      \/ (~ In k (map fst own)
          /\ exists p, first_property k p inherited /\ property_read p c)
      \/ (~ In k (map fst own) /\ ~ In k (map fst inherited)
          /\ c = Normal (Primitive JsUndefined))
  | Exotic _ get => c = get k
  end.

(** The keys of a row, when it has a list of keys. *)
Definition keys_of (row : Row) (keys : list string) : Prop :=
  match row with
  | Ordinary own _ => keys = map fst own
  | Exotic ownKeys _ => ownKeys = Normal keys
  end.

(** The columns: the explicit list, else the keys of the first row. *)
Inductive columns_of (data : Array_ Row) (columns : option (Array_ Column))
  : Array_ Column -> Prop :=
| explicit_columns (cs : Array_ Column) :
    columns = Some cs -> columns_of data columns cs
| first_row_keys (first : Row) (rest : Array_ Row) (keys : list string) :
    columns = None -> data = Some first :: rest -> keys_of first keys ->
    columns_of data columns
      (map (fun k => Some {| key := k; label := k |}) keys).

(** A record: the fields separated by commas. *)
Fixpoint record (fields : list string) : string :=
  match fields with
  | [] => ""
  | f :: rest =>
      match rest with
      | [] => f
      | _ :: _ => f ++ "," ++ record rest
      end
  end.

(** The field of the header for a column: its escaped label, and nothing
    for a hole of the column list. *)
Definition header_field (c : option Column) : string :=
  match c with
  | Some c => escaped_text (label c)
  | None => ""
  end.

(** The field of a row for a column: the escaped field of the row under
    the key of the column, and nothing for a hole of the column list. *)
Definition row_field (row : Row) (c : option Column) (field : string) : Prop :=
  match c with
  | Some c => exists v, field_of row (key c) (Normal v) /\ escaped v field
  | None => field = ""
  end.

(** The record of a row: the fields of the columns, in the order of the
    columns; a hole of the data array gives an empty record. *)
Definition record_of (cols : Array_ Column) (row : option Row) (line : string)
  : Prop :=
  match row with
  | Some row =>
      exists fields, Forall2 (row_field row) cols fields /\ line = record fields
  | None => line = ""
  end.

(** The text of the export for the columns [cols]: the header record, then
    a line feed and a record for each row, in the order of the rows. *)
Definition csv_of_columns (cols : Array_ Column) (data : Array_ Row)
  (text : string) : Prop :=
  exists lines,
    Forall2 (record_of cols) data lines
    /\ text
       = record (map header_field cols)
         ++ String.concat "" (map (fun line => str1 newline ++ line) lines).

Definition csv_as_specified (data : Array_ Row) (columns : option (Array_ Column))
  (text : string) : Prop :=
  exists cols, columns_of data columns cols /\ csv_of_columns cols data text.

(** A cell of a row fails: reading it throws, or it holds a value that is
    not equal to [null] and has no string form. *)
Definition cell_fails (row : Row) (k : string) : Prop :=
  (exists e, field_of row k (Throw e))
  \/ exists v e, field_of row k (Normal v)
                 /\ ~ equal_to_null v /\ conversion_throws v e.

(** The export fails: without an explicit column list the first element of
    the data array is a hole or has no list of keys, or a cell of a row
    under a column fails. *)
Definition export_fails (data : Array_ Row) (columns : option (Array_ Column))
  : Prop :=
  (columns = None
   /\ forall first rest keys, data = Some first :: rest -> ~ keys_of first keys)
  \/ exists cols row c,
       columns_of data columns cols
       /\ In (Some row) data /\ In (Some c) cols /\ cell_fails row (key c).

(** C10 as it is stated for a data array that is not empty: a text is
    generated, with one record for each element of the array, which is a
    row, and one field in each record for each element of the column
    list, which is a column. *)
Definition downloadCsv_as_stated (data : Array_ Row) (filename : string)
  (columns : option (Array_ Column)) : Prop :=
  exists d rows,
    downloadCsv data filename columns = Normal (Some d)
    /\ data = Array_of rows
    /\ (forall cs, columns = Some cs -> exists cols, cs = Array_of cols)
    /\ csv_as_specified data columns (blob_text d).

End Spec.

(* ------------------------------------------------------------------ *)
(** ** Concrete inputs *)

Module Examples.
Import VulnerabilitiesPage.

Definition finding (pkg sev cve host : string) (ip : option string)
  : VulnDetailEntry.t :=
  {| VulnDetailEntry.instance_name := "tenant-a";
     VulnDetailEntry.vuln_id := cve;
     VulnDetailEntry.severity := sev;
     VulnDetailEntry.package := Some pkg;
     VulnDetailEntry.version := Some "1.0";
     VulnDetailEntry.fix_version := None;
     VulnDetailEntry.hostname := Some host;
     VulnDetailEntry.external_ip := ip;
     VulnDetailEntry.instance_id_tag := None;
     VulnDetailEntry.status := "Active" |}.

(** Two Critical packages with one host each, [zlib] met first. *)
Definition zlib_web1 : VulnDetailEntry.t :=
  finding "zlib" "Critical" "CVE-2024-2222" "web-1" (Some "1.2.3.4").
Definition openssl_web2 : VulnDetailEntry.t :=
  finding "openssl" "Critical" "CVE-2024-1111" "web-2" (Some "5.6.7.8").


(** One package with a Medium and a High finding. *)
Definition openssl_medium : VulnDetailEntry.t :=
  finding "openssl" "Medium" "CVE-2024-3333" "web-1" None.
Definition openssl_high : VulnDetailEntry.t :=
  finding "openssl" "High" "CVE-2024-4444" "web-1" None.

(** Critical and High packages with different numbers of hosts. *)
Definition mixed : list VulnDetailEntry.t :=
  [ finding "bash" "High" "CVE-2024-5555" "web-1" None;
    finding "zlib" "Critical" "CVE-2024-2222" "web-1" None;
    finding "curl" "High" "CVE-2024-6666" "web-1" None;
    finding "curl" "High" "CVE-2024-6666" "web-2" None;
    finding "openssl" "Critical" "CVE-2024-1111" "web-1" None;
    finding "openssl" "High" "CVE-2024-4444" "web-2" None ].

Import IdentitiesPage.




End Examples.

(* ------------------------------------------------------------------ *)
(** ** A reader of CSV text

    The reading side of the export, as a spreadsheet does it: fields are
    separated by commas and records by line feeds; a field that opens with
    a double quote runs to its closing quote, with commas and line feeds
    inside it kept and a doubled quote standing for one. *)

Module CsvReader.
Import CsvDownload.

Inductive Mode : Type :=
| AtStart      (* no character of the field read yet *)
| InPlain      (* inside a field without quotes *)
| InQuoted     (* inside the quotes of a field *)
| AfterQuote.  (* a quote met inside the quotes *)

Record Reader : Type :=
  { mode : Mode;
    field : string;
    fields : list string;
    records : list (list string) }.

Definition start : Reader :=
  {| mode := AtStart; field := ""; fields := []; records := [] |}.

Definition add_char (m : Mode) (c : ascii) (r : Reader) : Reader :=
  {| mode := m; field := field r ++ str1 c;
     fields := fields r; records := records r |}.

Definition end_field (r : Reader) : Reader :=
  {| mode := AtStart; field := "";
     fields := (fields r ++ [field r])%list; records := records r |}.

Definition end_record (r : Reader) : Reader :=
  {| mode := AtStart; field := ""; fields := [];
     records := (records r ++ [(fields r ++ [field r])%list])%list |}.

Definition open_quotes (r : Reader) : Reader :=
  {| mode := InQuoted; field := field r;
     fields := fields r; records := records r |}.

Definition close_quotes (r : Reader) : Reader :=
  {| mode := AfterQuote; field := field r;
     fields := fields r; records := records r |}.

Definition separator (c : ascii) (r : Reader) : option Reader :=
  if Ascii.eqb c comma then Some (end_field r)
  else if Ascii.eqb c newline then Some (end_record r)
  else None.

Definition step (r : Reader) (c : ascii) : Reader :=
  match mode r with
  | AtStart =>
      if Ascii.eqb c dquote then open_quotes r
      else match separator c r with
           | Some r' => r'
           | None => add_char InPlain c r
           end
  | InPlain =>
      match separator c r with
      | Some r' => r'
      | None => add_char InPlain c r
      end
  | InQuoted =>
      if Ascii.eqb c dquote then close_quotes r else add_char InQuoted c r
  | AfterQuote =>
      if Ascii.eqb c dquote then add_char InQuoted c r
      else match separator c r with
           | Some r' => r'
           | None => add_char InPlain c r
           end
  end.

Fixpoint run (r : Reader) (s : string) : Reader :=
  match s with
  | EmptyString => r
  | String c s' => run (step r c) s'
  end.

(** The records of a text; the last record ends with the text. *)
Definition readCsv (s : string) : list (list string) :=
  let r := run start s in
  (records r ++ [(fields r ++ [field r])%list])%list.

(** The text a cell stands for: nothing for a value equal to [null], else
    the string form of the value. *)
Definition cell_text (cell : Js.Completion unknown) : string :=
  match cell with
  | Js.Normal value =>
      if loosely_equals_null value then ""
      else match String_ value with
           | Js.Normal str => str
           | Js.Throw _ => ""
           end
  | Js.Throw _ => ""
  end.

(** A reader that has read a whole field: it is not inside quotes. *)
Definition field_read (r : Reader) (f : string) (fs : list string)
  (rs : list (list string)) : Prop :=
  mode r <> InQuoted /\ field r = f /\ fields r = fs /\ records r = rs.

End CsvReader.

(* ------------------------------------------------------------------ *)
(** ** components/ResizableTable.tsx

    Widths and pointer positions are integers (pixels). *)

Module ResizableTable.
Import Js.

Module Column.
Record t : Type :=
  { key : string;
    label : string;
    minWidth : option Z;
    defaultWidth : option Z;
    align : option string }.
End Column.

(** The value of the [dragging] ref while a handle is held. *)
Record Dragging : Type :=
  { index : nat; startX : Z; startWidth : Z }.

(** The state of the component: the [widths] state, the [dragging] ref and
    the two styles it sets on the document body. *)
Record State : Type :=
  { widths : list Z;
    dragging : option Dragging;
    cursor : string;
    userSelect : string }.

(** The initial state, the body styles being what they are. *)
Definition initial (columns : list Column.t) (cursor0 userSelect0 : string)
  : State :=
  {| widths := map (fun c => nullish_or (Column.defaultWidth c) 150%Z) columns;
     dragging := None;
     cursor := cursor0;
     userSelect := userSelect0 |}.

(** [next[index] = v] on a copy of the array: an index within the array
    replaces the element and the index equal to the length appends one;
    an index beyond that would leave holes, which a list does not have. *)
Fixpoint array_set (l : list Z) (i : nat) (v : Z) : option (list Z) :=
  match l, i with
  | _ :: rest, O => Some (v :: rest)
  | x :: rest, S i' =>
      match array_set rest i' v with
      | Some rest' => Some (x :: rest')
      | None => None
      end
  | [], O => Some [v]
  | [], S _ => None
  end.

(** [onMouseMove]: nothing without a drag; else the dragged column gets
    its start width plus the distance moved, and not less than its minimum
    width.  [None] where [columns[index]] is [undefined] and the property
    access throws. *)
Definition onMouseMove (columns : list Column.t) (clientX : Z) (st : State)
  : option State :=
  match dragging st with
  | None => Some st
  | Some d =>
      match nth_error columns (index d) with
      | None => None
      | Some col =>
          let minW := nullish_or (Column.minWidth col) 60%Z in
          let newWidth := Z.max minW (startWidth d + (clientX - startX d)) in
          match array_set (widths st) (index d) newWidth with
          | Some next =>
              Some {| widths := next; dragging := dragging st;
                      cursor := cursor st; userSelect := userSelect st |}
          | None => None
          end
      end
  end.

Definition onMouseUp (st : State) : State :=
  {| widths := widths st; dragging := None; cursor := ""; userSelect := "" |}.

(** [onMouseDown] on the handle of column [index].  [None] where
    [widths[index]] is [undefined], which is no width to start from. *)
Definition onMouseDown (index : nat) (clientX : Z) (st : State)
  : option State :=
  match nth_error (widths st) index with
  | None => None
  | Some w =>
      Some {| widths := widths st;
              dragging := Some {| index := index; startX := clientX;
                                  startWidth := w |};
              cursor := "col-resize";
              userSelect := "none" |}
  end.

(** The pointer events the component listens to. *)
Inductive Event : Type :=
| MouseDown (index : nat) (clientX : Z)
| MouseMove (clientX : Z)
| MouseUp.

Definition handle (columns : list Column.t) (st : State) (e : Event)
  : option State :=
  match e with
  | MouseDown i x => onMouseDown i x st
  | MouseMove x => onMouseMove columns x st
  | MouseUp => Some (onMouseUp st)
  end.

Fixpoint handle_all (columns : list Column.t) (st : State) (es : list Event)
  : option State :=
  match es with
  | [] => Some st
  | e :: rest =>
      match handle columns st e with
      | Some st' => handle_all columns st' rest
      | None => None
      end
  end.

(** The handles the table renders: on every column but the last. *)
Definition on_a_handle (columns : list Column.t) (e : Event) : Prop :=
  match e with
  | MouseDown i _ => S i < List.length columns
  | _ => True
  end.

(** The minimum width of a column. *)
Definition min_width (col : Column.t) : Z :=
  nullish_or (Column.minWidth col) 60%Z.

(** What holds of every state the component reaches: a width for every
    column, and a drag on a column there is. *)
Definition well_formed (columns : list Column.t) (st : State) : Prop :=
  List.length (widths st) = List.length columns
  /\ match dragging st with
     | None => True
     | Some d => index d < List.length columns
     end.

End ResizableTable.

(* ------------------------------------------------------------------ *)
(** ** pages/VulnerabilitiesPage.tsx: the header counts and the rows *)

Module VulnerabilitiesHeader.
Import Js VulnerabilitiesPage.

(** One turn of the loop that fills [exposedByInstance]:
    [ebi.set(name, (ebi.get(name) ?? 0) + 1)] for a Critical finding with
    an external IP. *)
Definition count_exposed (ebi : StringMap nat) (item : VulnDetailEntry.t)
  : StringMap nat :=
  if is_critical item && truthy (VulnDetailEntry.external_ip item)
  then Map_set (VulnDetailEntry.instance_name item)
         (nullish_or (Map_get (VulnDetailEntry.instance_name item) ebi) 0 + 1)
         ebi
  else ebi.

Definition exposedByInstance (d : VulnPageData.t) : StringMap nat :=
  fold_left count_exposed (VulnPageData.items d) [].

(** The figure on the card of an instance:
    [exposedByInstance.get(inst.instance_name) ?? 0]. *)
Definition exposed_on_card (d : VulnPageData.t) (instance_name : string)
  : nat :=
  nullish_or (Map_get instance_name (exposedByInstance d)) 0.

(** [onClick] of a row of the package table:
    [setSearch(pkg.package === 'unknown' ? '' : pkg.package)]. *)
Definition clickPackage (pkg : PackageGroup.t) (st : PageState) : PageState :=
  {| data := data st;
     search := if PackageGroup.package pkg =? "unknown" then ""
               else PackageGroup.package pkg;
     instanceFilter := instanceFilter st;
     severityFilter := severityFilter st;
     internetExposed := internetExposed st;
     fixableOnly := fixableOnly st |}.

(** The sum of the counts of the groups. *)
Definition total_count (gs : list PackageGroup.t) : nat :=
  list_sum (map PackageGroup.count gs).

End VulnerabilitiesHeader.

(* ------------------------------------------------------------------ *)
(** ** pages/IdentitiesPage.tsx: the cells of a row *)

Module IdentitiesCells.
Import Js IdentitiesPage.

Definition pct_red : string := "text-red-600 dark:text-red-400".
Definition pct_orange : string := "text-orange-600 dark:text-orange-400".
Definition pct_plain : string := "text-gray-500 dark:text-gray-400".

(** The colour of the "Unused %" cell. *)
Definition unusedPctClass (item : IdentityEntry.t) : string :=
  if Qle_bool 90 (IdentityEntry.entitlements_unused_pct item) then pct_red
  else if Qle_bool 75 (IdentityEntry.entitlements_unused_pct item)
       then pct_orange
       else pct_plain.

(** The text of the "Unused %" cell: the rounded percentage, or a dash. *)
Inductive PctText : Type :=
| Percent (n : Z)
| Dash.

(** [Math.round(x)]: the nearest integer, a half going up. *)
Definition Math_round (x : Q) : Z := Qfloor (x + (1 # 2)).

Definition unusedPctText (item : IdentityEntry.t) : PctText :=
  if negb (Qle_bool (IdentityEntry.entitlements_unused_pct item) 0)
  then Percent (Math_round (IdentityEntry.entitlements_unused_pct item))
  else Dash.

(** [item.risks.filter(r => !r.startsWith('DISABLED_WITH_'))] *)
Definition activeRisks (item : IdentityEntry.t) : list string :=
  filter (fun r => negb (prefix "DISABLED_WITH_" r)) (IdentityEntry.risks item).

(** The chips of the "Risk Factors" cell: [.slice(0, 4)]. *)
Definition riskChips (item : IdentityEntry.t) : list string :=
  firstn 4 (activeRisks item).

(** The "+N" after the chips, shown when there are more than four. *)
Definition moreRisks (item : IdentityEntry.t) : option nat :=
  if (4 <? List.length (activeRisks item))%nat
  then Some (List.length (activeRisks item) - 4)
  else None.

(** [RISK_LABELS] *)
Definition RISK_LABELS : list (string * string) :=
  [ ("ALLOWS_FULL_ADMIN", "Full Admin");
    ("ALLOWS_IAM_WRITE", "IAM Write");
    ("ALLOWS_COMPUTE_EXECUTE", "Compute Execute");
    ("ALLOWS_STORAGE_READ", "Storage Read");
    ("ALLOWS_STORAGE_WRITE", "Storage Write");
    ("ALLOWS_SECRETS_READ", "Secrets Read");
    ("ALLOWS_CREDENTIAL_EXPOSURE", "Credential Exposure");
    ("ALLOWS_RESOURCE_EXPOSURE", "Resource Exposure");
    ("ALLOWS_PRIVILEGE_PASSING", "Privilege Passing");
    ("PASSWORD_LOGIN_NO_MFA", "No MFA");
    ("AWS_ROOT_USER_PASSWORD_LOGIN_NO_MFA", "Root No MFA");
    ("INACTIVE_ACCESS_KEY", "Inactive Key");
    ("UNUSED_180DAYS_USER", "Unused 180d");
    ("UNUSED_180DAYS_FULL_ADMIN", "Unused Admin 180d");
    ("UNUSED_180DAYS_IAM_WRITE", "Unused IAM Write 180d");
    ("AI_READ", "AI Read");
    ("AI_WRITE", "AI Write") ].

(** The property names every object inherits from [Object.prototype]:
    under them [RISK_LABELS[risk]] is not [undefined] although the table
    has no such entry. *)
Definition inherited_names : list string :=
  [ "constructor"; "hasOwnProperty"; "isPrototypeOf"; "propertyIsEnumerable";
    "toLocaleString"; "toString"; "valueOf"; "__proto__";
    "__defineGetter__"; "__defineSetter__"; "__lookupGetter__";
    "__lookupSetter__" ].

(** [s.slice(n)] *)
Fixpoint drop (n : nat) (s : string) : string :=
  match n, s with
  | O, _ => s
  | S n', String _ s' => drop n' s'
  | S _, EmptyString => EmptyString
  end.

(** [.replace(/^(ALLOWS_|DISABLED_WITH_)/, '')] *)
Definition strip_risk_prefix (s : string) : string :=
  if prefix "ALLOWS_" s then drop 7 s
  else if prefix "DISABLED_WITH_" s then drop 14 s
  else s.

(** The class [\w] of a regular expression. *)
Definition is_word (c : ascii) : bool :=
  let n := nat_of_ascii c in
  ((48 <=? n) && (n <=? 57))%nat || ((65 <=? n) && (n <=? 90))%nat
  || ((97 <=? n) && (n <=? 122))%nat || (n =? 95)%nat.

(** [c.toUpperCase()] for a character of class [\w]. *)
Definition upper_ascii (c : ascii) : ascii :=
  let n := nat_of_ascii c in
  if ((97 <=? n) && (n <=? 122))%nat then ascii_of_nat (n - 32) else c.

(** [.replace(/\b\w/g, c => c.toUpperCase())]: a word character that
    follows none is the first of its word. *)
Fixpoint capitalize_words (after_word : bool) (s : string) : string :=
  match s with
  | EmptyString => EmptyString
  | String c s' =>
      String (if is_word c && negb after_word then upper_ascii c else c)
             (capitalize_words (is_word c) s')
  end.

Definition underscore : ascii := "_"%char.
Definition space : ascii := " "%char.

(** The text made of a risk that has no label. *)
Definition risk_words (risk : string) : string :=
  capitalize_words false
    (toLowerCase (replace_g underscore (String space EmptyString)
                    (strip_risk_prefix risk))).

(** [formatRisk]: the label of the table, else the text made of the risk.
    [None] where [RISK_LABELS[risk]] is a value inherited from
    [Object.prototype], which is returned as it is and is not a string. *)
Definition formatRisk (risk : string) : option string :=
  match Map_get risk RISK_LABELS with
  | Some l => Some l
  | None =>
      if existsb (String.eqb risk) inherited_names then None
      else Some (risk_words risk)
  end.

(** A lower-case letter of the ASCII alphabet. *)
Definition is_lower (c : ascii) : bool :=
  let n := nat_of_ascii c in ((97 <=? n) && (n <=? 122))%nat.

Definition has_underscore (s : string) : bool :=
  existsb (Ascii.eqb underscore) (list_ascii_of_string s).

(** A label as the chips should show it: no underscore in it, and no
    lower-case letter at its start. *)
Definition well_formed_label (l : string) : bool :=
  negb (has_underscore l)
  && match l with
     | EmptyString => true
     | String c _ => negb (is_lower c)
     end.

End IdentitiesCells.

(* ------------------------------------------------------------------ *)
(** ** components/StatusBadge.tsx *)

Module StatusBadge.

Definition badge_green : string :=
  "bg-green-100 text-green-700 dark:bg-green-500/20 dark:text-green-400".
Definition badge_yellow : string :=
  "bg-yellow-100 text-yellow-700 dark:bg-yellow-500/20 dark:text-yellow-400".
Definition badge_red : string :=
  "bg-red-100 text-red-700 dark:bg-red-500/20 dark:text-red-400".

Definition dot_green : string := "bg-green-500 dark:bg-green-400".
Definition dot_yellow : string := "bg-yellow-500 dark:bg-yellow-400".
Definition dot_red : string := "bg-red-500 dark:bg-red-400".

Definition isHealthy (status : string) : bool :=
  (status =? "healthy") || (status =? "success").

(** The colours of the badge. *)
Definition badgeClass (status : string) : string :=
  if isHealthy status then badge_green
  else if status =? "pending" then badge_yellow
  else badge_red.

(** The colour of the dot in it. *)
Definition dotClass (status : string) : string :=
  if isHealthy status then dot_green
  else if status =? "pending" then dot_yellow
  else dot_red.

(** The word in it. *)
Definition badgeText (status : string) : string :=
  if (status =? "healthy") || (status =? "success") then "Healthy"
  else if status =? "pending" then "Pending"
  else "Error".

End StatusBadge.

(* ------------------------------------------------------------------ *)
(** ** App.tsx: the token and the theme in [localStorage] *)

Module App.
Import Js.

(** [localStorage]: the items by key. *)
Definition Storage : Type := StringMap string.

Definition getItem (k : string) (s : Storage) : option string := Map_get k s.

Definition setItem (k v : string) (s : Storage) : Storage := Map_set k v s.

Definition removeItem (k : string) (s : Storage) : Storage :=
  filter (fun kv => negb (k =? fst kv)) s.

(** What a protected route renders. *)
Inductive Rendered : Type :=
| Children
| NavigateToLogin.

(** [ProtectedRoute] *)
Definition ProtectedRoute (s : Storage) : Rendered :=
  if truthy (getItem "token" s) then Children else NavigateToLogin.

(** The state of [App] with the storage it writes to. *)
Record State : Type :=
  { token : option string; isDark : bool; storage : Storage }.

(** [setToken] *)
Definition setToken (t : option string) (st : State) : State :=
  {| token := t;
     isDark := isDark st;
     storage := match t with
                | Some v => if truthy t then setItem "token" v (storage st)
                            else removeItem "token" (storage st)
                | None => removeItem "token" (storage st)
                end |}.

(** [logout], up to the navigation to the login page. *)
Definition logout (st : State) : State := setToken None st.

(** The initial value of [isDark]:
    [stored ? stored === 'dark' : true]. *)
Definition initialIsDark (s : Storage) : bool :=
  match getItem "theme" s with
  | Some stored => if truthy (Some stored) then stored =? "dark" else true
  | None => true
  end.

(** The state [App] starts in. *)
Definition init (s : Storage) : State :=
  {| token := getItem "token" s; isDark := initialIsDark s; storage := s |}.

(** The effect that follows [isDark], as far as the storage goes. *)
Definition themeEffect (st : State) : State :=
  {| token := token st;
     isDark := isDark st;
     storage := setItem "theme" (if isDark st then "dark" else "light")
                  (storage st) |}.

(** [toggle] of the theme context, with the effect it triggers. *)
Definition toggle (st : State) : State :=
  themeEffect {| token := token st; isDark := negb (isDark st);
                 storage := storage st |}.

End App.

(* ------------------------------------------------------------------ *)
(** ** More concrete inputs *)

Module MoreExamples.

(** Rows with a comma and a quote in their values; the second row has no
    [note] and has a key of its own. *)
Definition export_row_list : list CsvDownload.Row :=
  [ CsvDownload.object_literal
      [ ("name", CsvDownload.Primitive (CsvDownload.JsString "a,b"));
        ("note", CsvDownload.Primitive
                   (CsvDownload.JsString (String CsvDownload.dquote "hi")));
        ("n", CsvDownload.Primitive (CsvDownload.JsNumber (Js.Number.of_nat 3))) ];
    CsvDownload.object_literal
      [ ("name", CsvDownload.Primitive CsvDownload.JsNull);
        ("n", CsvDownload.Primitive (CsvDownload.JsBoolean true));
        ("extra", CsvDownload.Primitive (CsvDownload.JsString "x")) ] ].

Definition export_rows : Js.Array_ CsvDownload.Row :=
  Js.Array_of export_row_list.

(** The text of their export. *)
Definition export_text : string :=
  "name,note,n" ++ CsvDownload.str1 CsvDownload.newline
  ++ String CsvDownload.dquote "a,b" ++ CsvDownload.str1 CsvDownload.dquote
  ++ ","
  ++ String CsvDownload.dquote
       (String CsvDownload.dquote (String CsvDownload.dquote "hi"))
  ++ CsvDownload.str1 CsvDownload.dquote ++ ",3"
  ++ CsvDownload.str1 CsvDownload.newline ++ ",,true".

Definition export_download : CsvDownload.Download :=
  {| CsvDownload.blob_text := export_text;
     CsvDownload.blob_type := "text/csv;charset=utf-8;";
     CsvDownload.download := "export.csv" |}.

(** Values of the kinds that [unknown] admits. *)
Definition seven_eighths_percent : CsvDownload.unknown :=
  CsvDownload.Primitive (CsvDownload.JsNumber (Js.Number.Finite false 875 2)).

Definition ten_to_the_21 : CsvDownload.unknown :=
  CsvDownload.Primitive (CsvDownload.JsNumber (Js.Number.Finite false 1 22)).

(** The array [[1, 2]], which converts to its elements joined by commas. *)
Definition array_1_2 : CsvDownload.unknown :=
  CsvDownload.Object_
    {| CsvDownload.IsHTMLDDA := false;
       CsvDownload.ToPrimitive := Js.Normal (CsvDownload.JsString "1,2") |}.

(** [Object.create(null)]: an object without [toString] and [valueOf]. *)
Definition bare_object : CsvDownload.unknown :=
  CsvDownload.Object_
    {| CsvDownload.IsHTMLDDA := false;
       CsvDownload.ToPrimitive := Js.Throw Js.TypeError |}.

(** A row that holds [Object.create(null)]. *)
Definition rows_with_bare_object : Js.Array_ CsvDownload.Row :=
  [ Some (CsvDownload.object_literal
            [ ("id", CsvDownload.Primitive
                       (CsvDownload.JsNumber (Js.Number.of_nat 7)));
              ("owner", bare_object) ]) ].

(** A row with a getter that throws. *)
Definition rows_with_throwing_getter : Js.Array_ CsvDownload.Row :=
  [ Some (CsvDownload.Ordinary
            [ ("id", CsvDownload.Data
                       (CsvDownload.Primitive
                          (CsvDownload.JsNumber (Js.Number.of_nat 7))));
              ("owner", CsvDownload.Accessor (Js.Throw (Js.Thrown "no owner"))) ]
            CsvDownload.Object_prototype) ].

(** The array [[{ id: 7 }, , { id: 8 }]], with a hole at index 1. *)
Definition rows_with_hole : Js.Array_ CsvDownload.Row :=
  [ Some (CsvDownload.object_literal
            [ ("id", CsvDownload.Primitive
                       (CsvDownload.JsNumber (Js.Number.of_nat 7))) ]);
    None;
    Some (CsvDownload.object_literal
            [ ("id", CsvDownload.Primitive
                       (CsvDownload.JsNumber (Js.Number.of_nat 8))) ]) ].

(** The array [[, { id: 7 }]], with a hole at index 0. *)
Definition rows_after_hole : Js.Array_ CsvDownload.Row :=
  [ None;
    Some (CsvDownload.object_literal
            [ ("id", CsvDownload.Primitive
                       (CsvDownload.JsNumber (Js.Number.of_nat 7))) ]) ].

(** A proxy whose [ownKeys] trap throws, and one that answers every key
    with its name in brackets. *)
Definition row_without_keys : CsvDownload.Row :=
  CsvDownload.Exotic (Js.Throw (Js.Thrown "no keys"))
    (fun _ => Js.Normal (CsvDownload.Primitive CsvDownload.JsUndefined)).

Definition row_of_brackets : CsvDownload.Row :=
  CsvDownload.Exotic (Js.Normal ["a"; "b"])
    (fun k => Js.Normal (CsvDownload.Primitive
                           (CsvDownload.JsString ("[" ++ k ++ "]")))).

(** [document.all] *)
Definition document_all : CsvDownload.unknown :=
  CsvDownload.Object_
    {| CsvDownload.IsHTMLDDA := true;
       CsvDownload.ToPrimitive :=
         Js.Normal (CsvDownload.JsString "[object HTMLAllCollection]") |}.

Definition column (k : string) (minW defW : option Z)
  : ResizableTable.Column.t :=
  {| ResizableTable.Column.key := k;
     ResizableTable.Column.label := k;
     ResizableTable.Column.minWidth := minW;
     ResizableTable.Column.defaultWidth := defW;
     ResizableTable.Column.align := None |}.

(** A table of three columns, the second without widths of its own. *)
Definition table_columns : list ResizableTable.Column.t :=
  [ column "instance" (Some 100%Z) (Some 160%Z);
    column "name" None None;
    column "action" (Some 50%Z) (Some 60%Z) ].

(** The first column held at pointer position 500. *)
Definition held : ResizableTable.Dragging :=
  {| ResizableTable.index := 0;
     ResizableTable.startX := 500%Z;
     ResizableTable.startWidth := 160%Z |}.

Definition held_state : ResizableTable.State :=
  {| ResizableTable.widths := [160; 150; 60]%Z;
     ResizableTable.dragging := Some held;
     ResizableTable.cursor := "col-resize";
     ResizableTable.userSelect := "none" |}.

(** A Medium package and a High package. *)
Definition medium_and_high : list VulnerabilitiesPage.VulnDetailEntry.t :=
  [ Examples.finding "bash" "Medium" "CVE-2024-5555" "web-1" None;
    Examples.finding "curl" "High" "CVE-2024-6666" "web-1" None ].

(** The vulnerabilities page on the findings of [Examples.mixed], with
    the severity filter on Critical and the other filters off. *)
Definition critical_view : VulnerabilitiesPage.PageState :=
  {| VulnerabilitiesPage.data :=
       Some {| VulnerabilitiesPage.VulnPageData.total_critical := 2;
               VulnerabilitiesPage.VulnPageData.total_high := 4;
               VulnerabilitiesPage.VulnPageData.instances := [];
               VulnerabilitiesPage.VulnPageData.items := Examples.mixed |};
     VulnerabilitiesPage.search := "";
     VulnerabilitiesPage.instanceFilter := "all";
     VulnerabilitiesPage.severityFilter := "Critical";
     VulnerabilitiesPage.internetExposed := false;
     VulnerabilitiesPage.fixableOnly := false |}.

(** The group of [zlib] in that view. *)
Definition zlib_group : VulnerabilitiesPage.PackageGroup.t :=
  VulnerabilitiesPage.group_new "zlib"
    (Examples.finding "zlib" "Critical" "CVE-2024-2222" "web-1" None).

(** An identity with 80 percent of its entitlements unused, and the page
    with "Excessive Permissions" on. *)
Definition excessive_identity : IdentitiesPage.IdentityEntry.t :=
  {| IdentitiesPage.IdentityEntry.instance_name := "tenant-a";
     IdentitiesPage.IdentityEntry.name := "svc-deploy";
     IdentitiesPage.IdentityEntry.principal_id := "AIDA0002";
     IdentitiesPage.IdentityEntry.provider := "AWS";
     IdentitiesPage.IdentityEntry.domain_id := "123456789012";
     IdentitiesPage.IdentityEntry.risk_severity := "HIGH";
     IdentitiesPage.IdentityEntry.risk_score := 80;
     IdentitiesPage.IdentityEntry.risks := ["ALLOWS_IAM_WRITE"];
     IdentitiesPage.IdentityEntry.last_used := None;
     IdentitiesPage.IdentityEntry.days_unused := Some 10%Z;
     IdentitiesPage.IdentityEntry.entitlements_total := 10;
     IdentitiesPage.IdentityEntry.entitlements_unused := 8;
     IdentitiesPage.IdentityEntry.entitlements_unused_pct := 80;
     IdentitiesPage.IdentityEntry.access_keys := [] |}.

Definition excessive_view : IdentitiesPage.PageState :=
  {| IdentitiesPage.data := Some [excessive_identity];
     IdentitiesPage.q := "";
     IdentitiesPage.instanceFilter := "all";
     IdentitiesPage.severityFilter := "all";
     IdentitiesPage.excessiveOnly := true;
     IdentitiesPage.unusedOnly := false |}.

End MoreExamples.

(* ================================================================== *)
(** * Properties *)

(* ------------------------------------------------------------------ *)
(** ** CSV export *)

Module CsvDownloadFacts.
Import Js CsvDownload Spec.

#[local] Arguments Ascii.eqb : simpl never.

(** *** Strings *)

Lemma append_assoc (a b c : string) : (a ++ b) ++ c = a ++ (b ++ c).
Proof. induction a as [|x a IH]; simpl; [reflexivity | now rewrite IH]. Qed.

Lemma append_empty_r (a : string) : a ++ "" = a.
Proof. induction a as [|x a IH]; simpl; [reflexivity | now rewrite IH]. Qed.

Lemma length_append (a b : string) :
  String.length (a ++ b) = (String.length a + String.length b)%nat.
Proof. induction a as [|x a IH]; simpl; [reflexivity | now rewrite IH]. Qed.

Lemma substring_whole (b : string) : substring 0 (String.length b) b = b.
Proof. induction b as [|x b IH]; simpl; [reflexivity | now rewrite IH]. Qed.

Lemma substring_none (b : string) : substring 0 0 b = "".
Proof. now destruct b. Qed.

Lemma substring_head (a b : string) :
  substring 0 (String.length a) (a ++ b) = a.
Proof.
  induction a as [|x a IH]; simpl; [apply substring_none | now rewrite IH].
Qed.

Lemma substring_tail (a b : string) :
  substring (String.length a) (String.length b) (a ++ b) = b.
Proof.
  induction a as [|x a IH]; simpl; [apply substring_whole | exact IH].
Qed.

Lemma substring_split (d : string) :
  forall n, (n <= String.length d)%nat ->
    d = substring 0 n d ++ substring n (String.length d - n) d
    /\ String.length (substring 0 n d) = n.
Proof.
  induction d as [|x d IH]; intros [|n] H; simpl in *; try lia.
  - now split.
  - rewrite substring_whole. now split.
  - destruct (IH n) as [E L]; [lia|]. split; [now rewrite <- E | now rewrite L].
Qed.

Lemma includes_char (c : ascii) (s : string) :
  includes s (str1 c) = has_char c s.
Proof.
  unfold has_char.
  induction s as [|a s IH]; simpl; [reflexivity|].
  rewrite IH. f_equal.
  destruct (ascii_dec c a) as [->|Hne].
  - rewrite Ascii.eqb_refl. now destruct s.
  - apply Ascii.eqb_neq in Hne. now rewrite Hne.
Qed.

Lemma replace_g_double_quotes (s : string) :
  replace_g dquote (String dquote (str1 dquote)) s = double_quotes s.
Proof.
  unfold double_quotes.
  induction s as [|a s IH]; simpl; [reflexivity|].
  destruct (Ascii.eqb a dquote); simpl; now rewrite IH.
Qed.

(** *** The digits of a number *)

Lemma zeros_zeros_text (count : nat) : Number.zeros count = zeros_text count.
Proof.
  induction count as [|c IH]; [reflexivity|].
  simpl. rewrite IH. reflexivity.
Qed.

Lemma strip_zeros_zeros (count : nat) :
  Number.strip_zeros (zeros_text count) = "".
Proof.
  induction count as [|c IH]; [reflexivity|].
  change (zeros_text (S c)) with (String "0" (zeros_text c)).
  simpl. now rewrite IH.
Qed.

Lemma strip_zeros_app (d : string) (count : nat) :
  Number.strip_zeros (d ++ zeros_text count) = Number.strip_zeros d.
Proof.
  induction d as [|a d IH]; simpl; [apply strip_zeros_zeros | now rewrite IH].
Qed.

Lemma strip_zeros_fixed (d : string) :
  (forall d', d <> d' ++ "0") -> Number.strip_zeros d = d.
Proof.
  induction d as [|a d IH]; intro H; [reflexivity|].
  destruct d as [|b r].
  - simpl. destruct (Ascii.eqb_spec a "0") as [->|Hne]; [|reflexivity].
    exfalso. now apply (H "").
  - change (Number.strip_zeros (String a (String b r)))
      with (match Number.strip_zeros (String b r) with
            | EmptyString => if Ascii.eqb a "0" then EmptyString
                             else String a EmptyString
            | String b' r' => String a (String b' r')
            end).
    rewrite IH; [reflexivity|].
    intros d' E. apply (H (String a d')). simpl. now rewrite E.
Qed.

Lemma strip_zeros_spec (d : string) :
  (forall d', Number.strip_zeros d <> d' ++ "0")
  /\ exists count, d = Number.strip_zeros d ++ zeros_text count.
Proof.
  induction d as [|a d [IH1 [c IH2]]].
  - split; [intros [|x d']; discriminate | now exists 0%nat].
  - simpl. destruct (Number.strip_zeros d) as [|b r] eqn:E.
    + simpl in IH2. destruct (Ascii.eqb_spec a "0") as [->|Hne].
      * split; [intros [|x d']; discriminate|].
        exists (S c). rewrite IH2. reflexivity.
      * split.
        -- intros [|x d'] H; simpl in H.
           ++ injection H as ->. now apply Hne.
           ++ injection H as _ H. destruct d'; discriminate.
        -- exists c. simpl. now rewrite IH2.
    + split.
      * intros [|x d'] H; simpl in H; [discriminate|].
        injection H as _ H. now apply (IH1 d').
      * exists c. simpl. simpl in IH2. now rewrite <- IH2.
Qed.

Lemma shortest_digits_strip (s : positive) :
  shortest_digits s (Number.strip_zeros (Number.digits s)).
Proof.
  destruct (strip_zeros_spec (Number.digits s)) as [H1 [c H2]].
  split; [exact H1 | now exists c].
Qed.

Lemma shortest_digits_unique (s : positive) (d : string) :
  shortest_digits s d -> d = Number.strip_zeros (Number.digits s).
Proof.
  intros [H1 [c H2]]. unfold Number.digits.
  now rewrite H2, strip_zeros_app, strip_zeros_fixed.
Qed.

Lemma zeros_nzhead (d : Decimal.uint) :
  forall count,
    NilEmpty.string_of_uint d = zeros_text count ->
    Decimal.nzhead d = Decimal.Nil.
Proof.
  induction d; intros [|c] H; try discriminate; try reflexivity.
  simpl. apply (IHd c). now injection H.
Qed.

Lemma unorm_to_uint (s : positive) :
  Decimal.unorm (Pos.to_uint s) = Pos.to_uint s.
Proof.
  rewrite <- (DecimalPos.Unsigned.to_of (Pos.to_uint s)).
  now rewrite DecimalPos.Unsigned.of_to.
Qed.

Lemma digits_not_zeros (s : positive) (count : nat) :
  Number.digits s <> zeros_text count.
Proof.
  intro H. apply zeros_nzhead in H. apply DecimalFacts.unorm_0 in H.
  rewrite unorm_to_uint in H.
  now apply (DecimalPos.Unsigned.to_uint_nonzero s).
Qed.

Lemma strip_digits_nonempty (s : positive) :
  Number.strip_zeros (Number.digits s) <> "".
Proof.
  intro E. destruct (strip_zeros_spec (Number.digits s)) as [_ [c H]].
  rewrite E in H. now apply (digits_not_zeros s c).
Qed.

Lemma exponent_part_eq (n : Z) :
  "e" ++ (if (n - 1 <? 0)%Z then "-" else "+")
  ++ Number.decimal (Z.abs (n - 1))
  = exponent_part n.
Proof.
  unfold exponent_part, Number.decimal.
  replace (n - 1 <? 0)%Z with (n <? 1)%Z
    by (destruct (Z.ltb_spec n 1), (Z.ltb_spec (n - 1) 0); lia || reflexivity).
  now destruct (n - 1)%Z.
Qed.

(** The numeral that [Number::toString] computes is the one the rules
    give, and the rules give no other. *)
Lemma exponent_form (s : positive) (n : Z) (d : string) :
  shortest_digits s d -> d <> "" -> (n <= -6 \/ 21 < n)%Z ->
  finite_form s n
    (if (Z.of_nat (String.length d) =? 1)%Z then d ++ exponent_part n
     else substring 0 1 d ++ "."
          ++ substring 1 (Z.to_nat (Z.of_nat (String.length d) - 1)) d
          ++ exponent_part n).
Proof.
  intros Hd Hne Hn. destruct d as [|a d']; [contradiction|].
  destruct (Z.eqb_spec (Z.of_nat (String.length (String a d'))) 1) as [K|K].
  - destruct d'; [|simpl in K; lia].
    now apply form_exponent_digit.
  - assert (Hd' : d' <> "") by (intros ->; now apply K).
    simpl String.length.
    replace (Z.to_nat (Z.of_nat (S (String.length d')) - 1))
      with (String.length d') by lia.
    change (substring 0 1 (String a d')) with (String a (substring 0 0 d')).
    rewrite substring_none.
    change (substring 1 (String.length d') (String a d'))
      with (substring 0 (String.length d') d').
    rewrite substring_whole.
    replace (String a "" ++ "." ++ d' ++ exponent_part n)
      with (String a ("." ++ d') ++ exponent_part n)
      by reflexivity.
    now apply form_exponent.
Qed.

Ltac bools :=
  rewrite ?andb_true_iff, ?andb_false_iff, ?Z.leb_le, ?Z.leb_gt, ?Z.ltb_lt,
    ?Z.ltb_ge, ?Z.eqb_eq, ?Z.eqb_neq in *.

Ltac branch b :=
  match goal with
  | |- context [if ?c then _ else _] =>
      replace c with b by (symmetry; bools; lia)
  end.

(** The numeral that [Number::toString] computes is the one the rules
    give. *)
Lemma toString_finite_form (s : positive) (n : Z) :
  finite_form s n (Number.toString_finite s n).
Proof.
  unfold Number.toString_finite. cbv zeta.
  pose proof (shortest_digits_strip s) as Hd.
  pose proof (strip_digits_nonempty s) as Hne.
  set (d := Number.strip_zeros (Number.digits s)) in *.
  assert (Hk : (1 <= Z.of_nat (String.length d))%Z)
    by (destruct d; [contradiction | simpl; lia]).
  destruct ((Z.of_nat (String.length d) <=? n)%Z && (n <=? 21)%Z) eqn:C1.
  { bools. rewrite zeros_zeros_text.
    replace (Z.to_nat (n - Z.of_nat (String.length d)))
      with (Z.to_nat n - String.length d)%nat by lia.
    apply form_integer; [exact Hd | lia]. }
  destruct ((0 <? n)%Z && (n <=? 21)%Z) eqn:C2.
  { bools.
    destruct (substring_split d (Z.to_nat n)) as [E L]; [lia|].
    replace (Z.to_nat (Z.of_nat (String.length d) - n))
      with (String.length d - Z.to_nat n)%nat by lia.
    apply form_fraction.
    - now rewrite <- E.
    - intro E'. rewrite E', append_empty_r in E.
      assert (String.length d = Z.to_nat n) by (rewrite E at 1; exact L).
      lia.
    - rewrite L. lia.
    - lia. }
  destruct ((-6 <? n)%Z && (n <=? 0)%Z) eqn:C3.
  { bools. rewrite zeros_zeros_text. apply form_small; [exact Hd | lia]. }
  bools. rewrite exponent_part_eq.
  replace (d ++ "e" ++ (if (n - 1 <? 0)%Z then "-" else "+")
             ++ Number.decimal (Z.abs (n - 1)))
    with (d ++ exponent_part n) by (now rewrite <- exponent_part_eq).
  apply exponent_form; [exact Hd | exact Hne | lia].
Qed.

(** The rules give no other numeral. *)
Lemma finite_form_unique (s : positive) (n : Z) (str : string) :
  finite_form s n str -> str = Number.toString_finite s n.
Proof.
  pose proof (strip_digits_nonempty s) as Hne.
  unfold Number.toString_finite. cbv zeta.
  intros [d Hd Hn|d1 d2 Hd Hd2 Hl Hn|d Hd Hn|a Hd Hn|a d Hd Hd' Hn];
    rewrite <- (shortest_digits_unique s _ Hd) in *.
  - branch true. rewrite zeros_zeros_text. do 2 f_equal. lia.
  - destruct d2 as [|b d2]; [contradiction|].
    rewrite length_append. simpl String.length.
    branch false. branch true.
    replace (Z.to_nat n) with (String.length d1) by lia.
    replace (Z.to_nat (Z.of_nat (String.length d1 + S (String.length d2)) - n))
      with (String.length (String b d2)) by (simpl; lia).
    now rewrite substring_head, substring_tail.
  - destruct d as [|a d]; [contradiction|]. simpl String.length.
    branch false. branch false. branch true.
    now rewrite zeros_zeros_text.
  - simpl String.length.
    branch false. branch false. branch false. branch true.
    now rewrite exponent_part_eq.
  - destruct d as [|b d]; [contradiction|]. simpl String.length.
    branch false. branch false. branch false. branch false.
    rewrite exponent_part_eq.
    replace (Z.to_nat (Z.of_nat (S (S (String.length d))) - 1))
      with (S (String.length d)) by lia.
    change (S (String.length d)) with (String.length (String b d)).
    change (substring 0 1 (String a (String b d))) with (String a "").
    change (substring 1 (String.length (String b d)) (String a (String b d)))
      with (substring 0 (String.length (String b d)) (String b d)).
    now rewrite substring_whole.
Qed.

Lemma number_form_iff (x : Number.t) (str : string) :
  number_form x str <-> str = Number.toString x.
Proof.
  split.
  - intros [| | | |s n str' H|s n str' H]; try reflexivity;
      apply finite_form_unique in H; now subst.
  - intros ->. destruct x as [|negative|[|]|[|] s n]; simpl;
      constructor; apply toString_finite_form.
Qed.

Lemma primitive_form_iff (p : primitive) (str : string) :
  primitive_form p str <-> ToString p = Normal str.
Proof.
  split.
  - intros [| | | |x str' H| |str']; try reflexivity.
    apply number_form_iff in H. now subst.
  - destruct p as [| |[|]|x|z|s|d]; simpl; intros [= <-]; constructor.
    now apply number_form_iff.
Qed.

(** The string form of a value is what [String] returns on it, and a
    value has no string form when [String] throws. *)
Lemma string_form_iff (value : unknown) (str : string) :
  string_form value str <-> String_ value = Normal str.
Proof.
  split.
  - intros [d| |p str' H|o p str' Ho H]; try reflexivity.
    + apply primitive_form_iff in H.
      destruct p; try exact H. discriminate.
    + apply primitive_form_iff in H. simpl. now rewrite Ho.
  - destruct value as [p|o]; simpl.
    + destruct p as [| |b|x|z|s|[d|]];
        try (intro H; apply form_primitive; now apply primitive_form_iff);
        intros [= <-]; constructor.
    + destruct (ToPrimitive o) as [p|e] eqn:Ho; simpl; [|discriminate].
      intro H. apply (form_object o p); [exact Ho|].
      now apply primitive_form_iff.
Qed.

Lemma String_throws (value : unknown) (e : Error) :
  String_ value = Throw e <-> conversion_throws value e.
Proof.
  unfold conversion_throws. split.
  - destruct value as [p|o]; simpl.
    + destruct p as [| |b|x|z|s|[d|]]; discriminate.
    + intro H. exists o. split; [reflexivity|].
      destruct (ToPrimitive o) as [p|e'] eqn:Ho; simpl in H.
      * right. destruct p; try discriminate.
        injection H as <-. split; [reflexivity|]. now eexists.
      * left. now injection H as ->.
  - intros (o & -> & [Ho|[-> [d Ho]]]); simpl; now rewrite Ho.
Qed.

Lemma loosely_equals_null_iff (value : unknown) :
  loosely_equals_null value = true <-> equal_to_null value.
Proof.
  unfold equal_to_null, null_or_undefined. split.
  - destruct value as [p|o]; simpl.
    + destruct p; try discriminate; intros _; left; [right | left]; reflexivity.
    + intro H. right. now exists o.
  - intros [[-> | ->]|(o & -> & H)]; [reflexivity | reflexivity | exact H].
Qed.

Lemma not_equal_to_null (value : unknown) :
  loosely_equals_null value = false <-> ~ equal_to_null value.
Proof.
  rewrite <- loosely_equals_null_iff.
  destruct (loosely_equals_null value); split; congruence.
Qed.

(** *** The escaped field *)

Lemma escapeCsvField_eq (value : unknown) :
  escapeCsvField value
  = if loosely_equals_null value then Normal ""
    else bind (String_ value) (fun str => Normal (escaped_text str)).
Proof.
  unfold escapeCsvField. destruct (loosely_equals_null value); [reflexivity|].
  destruct (String_ value) as [str|e]; [|reflexivity]. simpl.
  unfold escaped_text. rewrite !includes_char, replace_g_double_quotes.
  now destruct (has_char comma str || has_char dquote str
                || has_char newline str).
Qed.

Lemma escapeCsvField_escaped (value : unknown) (field : string) :
  escapeCsvField value = Normal field <-> escaped value field.
Proof.
  rewrite escapeCsvField_eq. unfold escaped.
  destruct (loosely_equals_null value) eqn:E.
  - apply loosely_equals_null_iff in E. split.
    + intros [= <-]. now left.
    + intros [[_ ->]|[H _]]; [reflexivity | contradiction].
  - apply not_equal_to_null in E. split.
    + destruct (String_ value) as [str|e] eqn:S; simpl; [|discriminate].
      intros [= <-]. right. split; [exact E|].
      exists str. split; [now apply string_form_iff | reflexivity].
    + intros [[H _]|[_ (str & H & ->)]]; [contradiction|].
      apply string_form_iff in H. now rewrite H.
Qed.

Lemma escapeCsvField_throws (value : unknown) (e : Error) :
  escapeCsvField value = Throw e
  <-> ~ equal_to_null value /\ conversion_throws value e.
Proof.
  rewrite escapeCsvField_eq, <- not_equal_to_null, <- String_throws.
  destruct (loosely_equals_null value).
  - split; [discriminate | now intros [H _]].
  - destruct (String_ value) as [str|e']; simpl.
    + split; [discriminate | now intros [_ H]].
    + split; [intros [= ->]; now split | now intros [_ [= ->]]].
Qed.

Lemma unquote_doubled (s : string) :
  unquote (double_quotes s ++ str1 dquote) = s.
Proof.
  rewrite <- replace_g_double_quotes.
  induction s as [|a s IH]; simpl; [reflexivity|].
  destruct (Ascii.eqb a dquote) eqn:E; simpl.
  - apply Ascii.eqb_eq in E. subst a. now rewrite IH.
  - rewrite E. now rewrite IH.
Qed.

(** A reader of CSV fields gets the string back from its field. *)
Lemma readCsvField_escaped_text (str : string) :
  readCsvField (escaped_text str) = str.
Proof.
  unfold escaped_text.
  destruct (has_char comma str || has_char dquote str
            || has_char newline str) eqn:E.
  - simpl. apply unquote_doubled.
  - apply orb_false_iff in E as [E _]. apply orb_false_iff in E as [_ E].
    unfold has_char in E.
    destruct str as [|a s]; [reflexivity|].
    simpl in E. apply orb_false_iff in E as [E _].
    simpl. rewrite Ascii.eqb_sym, E. reflexivity.
Qed.

(** C9 (as amended).  [escapeCsvField] returns the empty string for
    [null], [undefined] and any other value that compares equal to
    [null]; for a value that has a string form it returns the string
    form unchanged unless that string holds a comma, a double quote or a
    line feed, and then returns it between double quotes with every double
    quote inside written twice and nothing else changed, so that a reader
    of CSV fields gets the string form back; it returns nothing else; and
    it throws, instead of returning, exactly on the values that are not
    equal to [null] and have no string form: the objects whose conversion
    to a primitive value throws or gives a symbol. *)
Theorem escapeCsvField_meets_spec :
  forall value : unknown,
    (equal_to_null value -> escapeCsvField value = Normal "")
    /\ (forall str,
          ~ equal_to_null value -> string_form value str ->
          escapeCsvField value = Normal (escaped_text str)
          /\ readCsvField (escaped_text str) = str)
    /\ (forall field, escapeCsvField value = Normal field <-> escaped value field)
    /\ (forall e, escapeCsvField value = Throw e
                  <-> ~ equal_to_null value /\ conversion_throws value e)
    /\ ((exists e, escapeCsvField value = Throw e)
        <-> ~ equal_to_null value /\ ~ exists str, string_form value str).
Proof.
  intro value. split; [|split; [|split; [|split]]].
  - intro H. apply escapeCsvField_escaped. now left.
  - intros str Hn Hs. split; [|apply readCsvField_escaped_text].
    apply escapeCsvField_escaped. right. split; [exact Hn|]. now exists str.
  - intro field. apply escapeCsvField_escaped.
  - intro e. apply escapeCsvField_throws.
  - split.
    + intros [e H]. apply escapeCsvField_throws in H as [Hn H].
      split; [exact Hn|]. intros [str Hs].
      apply string_form_iff in Hs. apply String_throws in H. congruence.
    + intros [Hn Hs].
      destruct (escapeCsvField value) as [field|e] eqn:E; [|now exists e].
      exfalso. apply escapeCsvField_escaped in E as [[H _]|[_ (str & H & _)]];
        [contradiction | apply Hs; now exists str].
Qed.

(** C9 (as stated) fails.  On [Object.create(null)], which has neither
    [toString] nor [valueOf], [String(value)] throws a [TypeError] and so
    does [escapeCsvField]: it is not total.  And on [document.all], which
    is neither [null] nor [undefined] but compares equal to [null], it
    returns the empty string and not the string form. *)
Lemma escapeCsvField_not_total :
  escapeCsvField MoreExamples.bare_object = Throw TypeError
  /\ ~ escapeCsvField_as_stated MoreExamples.bare_object
  /\ escapeCsvField MoreExamples.document_all = Normal ""
  /\ string_form MoreExamples.document_all "[object HTMLAllCollection]"
  /\ ~ escapeCsvField_as_stated MoreExamples.document_all.
Proof.
  split; [reflexivity|]. split; [intros (field & H & _); discriminate|].
  split; [reflexivity|]. split.
  { apply (form_object _ (JsString "[object HTMLAllCollection]"));
      [reflexivity | constructor]. }
  intros (field & H & [[[H0|H0] _]|[_ (str & Hs & E)]]); try discriminate.
  injection H as <-. apply string_form_iff in Hs. injection Hs as <-.
  discriminate.
Qed.

(** A fraction, a number printed with an exponent, an array, [NaN], a
    symbol and a bigint. *)
Lemma escapeCsvField_examples :
  escapeCsvField MoreExamples.seven_eighths_percent = Normal "87.5"
  /\ escapeCsvField MoreExamples.ten_to_the_21 = Normal "1e+21"
  /\ escapeCsvField MoreExamples.array_1_2
     = Normal (String dquote ("1,2" ++ str1 dquote))
  /\ escapeCsvField (Primitive (JsNumber Number.NaN)) = Normal "NaN"
  /\ escapeCsvField (Primitive (JsSymbol (Some "id"))) = Normal "Symbol(id)"
  /\ escapeCsvField (Primitive (JsBigInt (-12))) = Normal "-12".
Proof. repeat split. Qed.

(** *** The properties of a row *)

Lemma find_property_first (k : string) (v : property)
  (properties : list (string * property)) :
  find_property k properties = Some v <-> first_property k v properties.
Proof.
  unfold first_property.
  induction properties as [|[k' v'] ps IH]; simpl.
  - split; [discriminate|].
    intros (before & after & E & _). destruct before; discriminate.
  - destruct (String.eqb_spec k k') as [->|Hne].
    + split.
      * intros [= ->]. exists [], ps. split; [reflexivity | intros []].
      * intros (before & after & E & Hn).
        destruct before as [|[k0 v0] before]; simpl in E.
        -- now injection E as ->.
        -- injection E as -> -> _. exfalso. apply Hn. now left.
    + rewrite IH. split.
      * intros (before & after & -> & Hn).
        exists ((k', v') :: before), after. split; [reflexivity|].
        simpl. intros [E|H]; [congruence | contradiction].
      * intros (before & after & E & Hn).
        destruct before as [|[k0 v0] before]; simpl in E.
        -- injection E as E1 _. congruence.
        -- injection E as <- <- ->. exists before, after.
           split; [reflexivity|]. intro H. apply Hn. now right.
Qed.

Lemma find_property_none (k : string) (properties : list (string * property)) :
  find_property k properties = None <-> ~ In k (map fst properties).
Proof.
  induction properties as [|[k' v'] ps IH]; simpl; [tauto|].
  destruct (String.eqb_spec k k') as [->|Hne].
  - split; [discriminate | intro H; exfalso; apply H; now left].
  - rewrite IH. split.
    + intros H [E|H']; [congruence | contradiction].
    + intros H H'. apply H. now right.
Qed.

Lemma first_property_In (k : string) (v : property)
  (properties : list (string * property)) :
  first_property k v properties -> In k (map fst properties).
Proof.
  intros (before & after & -> & _). rewrite map_app, in_app_iff.
  right. now left.
Qed.

Lemma Get_read (p : property) (c : Completion unknown) :
  Get p = c <-> property_read p c.
Proof.
  split; [intros <-; destruct p; constructor | now intros []].
Qed.

(** [row[k]] gives the field [k] of the row, and the row has no other. *)
Lemma prop_field_of (row : Row) (k : string) (c : Completion unknown) :
  prop row k = c <-> field_of row k c.
Proof.
  destruct row as [own inherited|ownKeys get]; unfold prop, field_of;
    [|split; congruence].
  destruct (find_property k own) as [p|] eqn:E1.
  - split.
    + intro H. left. exists p.
      split; [now apply find_property_first | now apply Get_read].
    + apply find_property_first in E1.
      intros [(q & H & Hr)|[[Hn _]|[Hn _]]].
      * apply find_property_first in H, E1.
        assert (q = p) by congruence. subst q. now apply Get_read.
      * exfalso. apply Hn. now apply (first_property_In k p).
      * exfalso. apply Hn. now apply (first_property_In k p).
  - apply find_property_none in E1.
    destruct (find_property k inherited) as [p|] eqn:E2.
    + split.
      * intro H. right. left. split; [exact E1|]. exists p.
        split; [now apply find_property_first | now apply Get_read].
      * apply find_property_first in E2.
        intros [(q & H & _)|[[_ (q & H & Hr)]|[_ [Hn _]]]].
        -- exfalso. apply E1. now apply (first_property_In k q).
        -- apply find_property_first in H, E2.
           assert (q = p) by congruence. subst q. now apply Get_read.
        -- exfalso. apply Hn. now apply (first_property_In k p).
    + apply find_property_none in E2. split.
      * intros <-. right. right. now repeat split.
      * intros [(q & H & _)|[[_ (q & H & _)]|[_ [_ ->]]]].
        -- exfalso. apply E1. now apply (first_property_In k q).
        -- exfalso. apply E2. now apply (first_property_In k q).
        -- reflexivity.
Qed.

Lemma Object_keys_keys_of (row : Row) (keys : list string) :
  Object_keys row = Normal keys <-> keys_of row keys.
Proof.
  destruct row as [own inherited|ownKeys get]; simpl; [|tauto].
  split; [now intros [= <-] | now intros ->].
Qed.

(** *** [map] with a callback that may throw, on an array with holes *)

Section ArrayMap.
Context {A B : Type} (callback : A -> Completion B).

Lemma Array_map_Normal (xs : Array_ A) :
  forall ys,
    Array_map callback xs = Normal ys
    <-> Forall2 (fun x y => match x, y with
                            | Some x, Some y => callback x = Normal y
                            | None, None => True
                            | _, _ => False
                            end) xs ys.
Proof.
  unfold Array_ in *.
  induction xs as [|[x|] xs IH]; intro ys; cbn [Array_map].
  - split; [intros [= <-]; constructor | intro H; now inversion H].
  - destruct (callback x) as [y|e] eqn:E; cbn [bind].
    + destruct (Array_map callback xs) as [ys'|e] eqn:E'; cbn [bind].
      * split.
        -- intros [= <-]. constructor; [exact E | now apply IH].
        -- intro H. inversion H as [|? [y0|] ? ys0 H1 H2]; subst;
             [|contradiction].
           apply IH in H2. congruence.
      * split; [discriminate|].
        intro H. inversion H as [|? y0 ? ys0 H1 H2]; subst.
        apply IH in H2. discriminate.
    + split; [discriminate|].
      intro H. inversion H as [|? [y0|] ? ys0 H1 H2]; subst;
        [congruence | contradiction].
  - destruct (Array_map callback xs) as [ys'|e] eqn:E'; cbn [bind].
    + split.
      * intros [= <-]. constructor; [exact I | now apply IH].
      * intro H. inversion H as [|? [y0|] ? ys0 H1 H2]; subst;
          [contradiction|].
        apply IH in H2. congruence.
    + split; [discriminate|].
      intro H. inversion H as [|? y0 ? ys0 H1 H2]; subst.
      apply IH in H2. discriminate.
Qed.

Lemma Array_map_Throw (xs : Array_ A) :
  (exists e, Array_map callback xs = Throw e)
  <-> exists x, In (Some x) xs /\ exists e, callback x = Throw e.
Proof.
  unfold Array_ in *.
  induction xs as [|[x|] xs IH]; cbn [Array_map].
  - split; [intros [e H]; discriminate | intros (x & [] & _)].
  - destruct (callback x) as [y|e] eqn:E; cbn [bind].
    + destruct (Array_map callback xs) as [ys'|e] eqn:E'; cbn [bind].
      * split; [intros [e H]; discriminate|].
        intros (x' & [[= <-]|Hin] & e & He); [congruence|].
        assert (H : exists e, Normal ys' = Throw e :> Completion (Array_ B))
          by (apply IH; exists x'; split; [exact Hin | now exists e]).
        destruct H as [e' H]. discriminate.
      * split; [|intros _; now exists e].
        intros _. destruct (proj1 IH) as (x' & Hin & He); [now exists e|].
        exists x'. split; [now right | exact He].
    + split; [|intros _; now exists e].
      intros _. exists x. split; [now left | now exists e].
  - destruct (Array_map callback xs) as [ys'|e] eqn:E'; cbn [bind].
    + split; [intros [e H]; discriminate|].
      intros (x' & [Hin|Hin] & e & He); [discriminate|].
      assert (H : exists e, Normal ys' = Throw e :> Completion (Array_ B))
        by (apply IH; exists x'; split; [exact Hin | now exists e]).
      destruct H as [e' H]. discriminate.
    + split; [|intros _; now exists e].
      intros _. destruct (proj1 IH) as (x' & Hin & He); [now exists e|].
      exists x'. split; [now right | exact He].
Qed.
End ArrayMap.

(** The strings that [join] writes for the elements of a mapped array:
    what the callback gives for an element, and nothing for a hole. *)
Lemma Array_map_strings {A : Type} (callback : A -> Completion string)
  (R : option A -> string -> Prop)
  (element : forall x s, R (Some x) s <-> callback x = Normal s)
  (hole : forall s, R None s <-> s = "") (xs : Array_ A) :
  forall strs,
    Forall2 R xs strs
    <-> exists ys, Array_map callback xs = Normal ys
                   /\ strs = map (fun y => nullish_or y "") ys.
Proof.
  intro strs. split.
  - intro F. induction F as [|x s xs strs Hx F IH].
    + now exists [].
    + destruct IH as (ys & E & ->). destruct x as [x|].
      * apply element in Hx. exists (Some s :: ys).
        cbn [Array_map]. rewrite Hx. cbn [bind]. rewrite E. now cbn [bind].
      * apply hole in Hx. subst s. exists (None :: ys).
        cbn [Array_map]. rewrite E. now cbn [bind].
  - intros (ys & E & ->). apply Array_map_Normal in E.
    induction E as [|x y xs ys Hxy E IH]; [constructor|].
    cbn [map]. constructor; [|exact IH].
    destruct x as [x|], y as [y|]; try contradiction.
    + now apply element.
    + now apply hole.
Qed.

(** *** The text of the export *)

Lemma join_comma_record (fields : list string) :
  join "," fields = record fields.
Proof.
  induction fields as [|f rest IH]; [reflexivity|].
  destruct rest as [|g rest]; [reflexivity|].
  change (f ++ "," ++ join "," (g :: rest) = f ++ "," ++ record (g :: rest)).
  now rewrite IH.
Qed.

Lemma concat_empty_cons (x : string) (xs : list string) :
  String.concat "" (x :: xs) = x ++ String.concat "" xs.
Proof. destruct xs; simpl; [now rewrite append_empty_r | reflexivity]. Qed.

Lemma join_lines (sep : string) (first : string) (rest : list string) :
  join sep (first :: rest)
  = first ++ String.concat "" (map (fun r => sep ++ r) rest).
Proof.
  revert first. induction rest as [|r rest IH]; intro first.
  - simpl. now rewrite append_empty_r.
  - change (first ++ sep ++ join sep (r :: rest)
            = first ++ String.concat "" ((sep ++ r) :: map (fun r => sep ++ r) rest)).
    rewrite IH, concat_empty_cons, append_assoc. reflexivity.
Qed.

(** The columns the code takes are the columns of the export. *)
Lemma csv_columns_iff (data : Array_ Row) (columns : option (Array_ Column))
  (cols : Array_ Column) :
  csv_columns data columns = Normal cols <-> columns_of data columns cols.
Proof.
  unfold csv_columns. split.
  - destruct columns as [cs|].
    + intros [= <-]. now apply explicit_columns.
    + destruct data as [|[first|] rest]; [discriminate| |discriminate].
      destruct (Object_keys first) as [keys|e] eqn:K; cbn [bind];
        [|discriminate].
      intros [= <-]. unfold Array_of. rewrite map_map.
      apply (first_row_keys _ _ first rest keys); [reflexivity..|].
      now apply Object_keys_keys_of.
  - intros [cs ->|first rest keys -> -> K]; [reflexivity|].
    apply Object_keys_keys_of in K. rewrite K. cbn [bind].
    unfold Array_of. now rewrite map_map.
Qed.

(** Taking the columns throws when there is no explicit list and the
    first element of the data array is a hole or has no list of keys. *)
Lemma csv_columns_throws (data : Array_ Row) (columns : option (Array_ Column)) :
  (exists e, csv_columns data columns = Throw e)
  <-> columns = None
      /\ forall first rest keys,
           data = Some first :: rest -> ~ keys_of first keys.
Proof.
  unfold csv_columns. destruct columns as [cs|].
  - split; [intros [e H]; discriminate | intros [H _]; discriminate].
  - destruct data as [|[first|] rest].
    + split; [|intros _; now exists TypeError].
      intros _. split; [reflexivity | discriminate].
    + destruct (Object_keys first) as [keys|e] eqn:K; cbn [bind].
      * apply Object_keys_keys_of in K.
        split; [intros [e H]; discriminate|].
        intros [_ H]. exfalso. now apply (H first rest keys).
      * split; [|intros _; now exists e].
        intros _. split; [reflexivity|].
        intros first' rest' keys [= <- <-] K'.
        apply Object_keys_keys_of in K'. congruence.
    + split; [|intros _; now exists TypeError].
      intros _. split; [reflexivity | discriminate].
Qed.

Lemma header_fields (cols : Array_ Column) :
  exists header,
    Array_map (fun c => escapeCsvField (Primitive (JsString (label c)))) cols
    = Normal header
    /\ Array_join "," header = record (map header_field cols).
Proof.
  assert (element : forall c s,
             s = header_field (Some c)
             <-> escapeCsvField (Primitive (JsString (label c))) = Normal s).
  { intros c s. cbn [header_field]. rewrite escapeCsvField_eq.
    split; [now intros -> | now intros [= <-]]. }
  destruct (proj1 (Array_map_strings
                     (fun c => escapeCsvField (Primitive (JsString (label c))))
                     (fun c s => s = header_field c) element
                     (fun s => iff_refl _)
                     cols (map header_field cols)))
    as (header & E & J).
  - induction cols; constructor; [reflexivity | assumption].
  - exists header. split; [exact E|].
    unfold Array_join. now rewrite <- J, join_comma_record.
Qed.

(** The field the code writes for a column of a row is the field of the
    row for the column. *)
Lemma cell_field (row : Row) (c : Column) (field : string) :
  row_field row (Some c) field
  <-> bind (prop row (key c)) escapeCsvField = Normal field.
Proof.
  cbn [row_field]. split.
  - intros (v & Hv & Hf). apply prop_field_of in Hv. rewrite Hv. cbn [bind].
    now apply escapeCsvField_escaped.
  - destruct (prop row (key c)) as [v|e] eqn:P; cbn [bind]; [|discriminate].
    intro H. exists v.
    split; [now apply prop_field_of | now apply escapeCsvField_escaped].
Qed.

(** The record the code writes for a row is the record of the row. *)
Lemma row_record (cols : Array_ Column) (row : Row) (line : string) :
  bind (Array_map (fun c => bind (prop row (key c)) escapeCsvField) cols)
    (fun fields => Normal (Array_join "," fields)) = Normal line
  <-> record_of cols (Some row) line.
Proof.
  cbn [record_of].
  pose proof (Array_map_strings
                (fun c => bind (prop row (key c)) escapeCsvField)
                (row_field row) (cell_field row)
                (fun s => iff_refl _) cols) as S.
  split.
  - destruct (Array_map (fun c => bind (prop row (key c)) escapeCsvField) cols)
      as [fields|e] eqn:E; cbn [bind]; [|discriminate].
    intros [= <-]. exists (map (fun y => nullish_or y "") fields).
    split; [|unfold Array_join; now rewrite join_comma_record].
    apply S. now exists fields.
  - intros (fields' & F & ->). apply S in F as (fields & E & ->).
    rewrite E. cbn [bind]. unfold Array_join. now rewrite join_comma_record.
Qed.

(** For given columns, the text the code builds is the text of the
    export, and the code builds a text whenever the export has one. *)
Lemma csv_rows_iff (cols : Array_ Column) (data : Array_ Row) (text : string) :
  bind (Array_map (fun c => escapeCsvField (Primitive (JsString (label c)))) cols)
    (fun header =>
  bind (Array_map
          (fun row =>
             bind (Array_map
                     (fun c => bind (prop row (key c)) escapeCsvField) cols)
               (fun fields => Normal (Array_join "," fields)))
          data)
    (fun rows =>
  Normal (Array_join (str1 newline) (Some (Array_join "," header) :: rows))))
  = Normal text
  <-> csv_of_columns cols data text.
Proof.
  destruct (header_fields cols) as (header & -> & J). cbn [bind].
  set (line_of := fun row : Row =>
         bind (Array_map (fun c => bind (prop row (key c)) escapeCsvField) cols)
           (fun fields => Normal (Array_join "," fields))).
  pose proof (Array_map_strings line_of (record_of cols)
                (fun row line => iff_sym (row_record cols row line))
                (fun s => iff_refl _) data) as S.
  assert (T : forall rows,
             Array_join (str1 newline) (Some (Array_join "," header) :: rows)
             = record (map header_field cols)
               ++ String.concat ""
                    (map (fun line => str1 newline ++ line)
                       (map (fun y => nullish_or y "") rows))).
  { intro rows. unfold Array_join at 1. cbn [map nullish_or].
    rewrite J. apply join_lines. }
  unfold csv_of_columns. split.
  - destruct (Array_map line_of data) as [rows|e] eqn:E; cbn [bind];
      [|discriminate].
    rewrite T. intro H. exists (map (fun y => nullish_or y "") rows).
    split; [|congruence]. apply S. now exists rows.
  - intros (lines & F & ->). apply S in F as (rows & E & ->).
    rewrite E. cbn [bind]. now rewrite T.
Qed.

Lemma csv_text_iff (data : Array_ Row) (columns : option (Array_ Column))
  (text : string) :
  csv_text data columns = Normal text <-> csv_as_specified data columns text.
Proof.
  unfold csv_text, csv_as_specified.
  destruct (csv_columns data columns) as [cols|e] eqn:C; cbn [bind].
  - rewrite csv_rows_iff. split.
    + intro H. exists cols. split; [now apply csv_columns_iff | exact H].
    + intros (cols' & H' & H). apply csv_columns_iff in H'.
      assert (cols' = cols) by congruence. now subst cols'.
  - split; [discriminate|].
    intros (cols' & H' & _). apply csv_columns_iff in H'. congruence.
Qed.

(** A cell throws when its reading throws, or when it holds a value that
    is not equal to [null] and has no string form. *)
Lemma cell_throws (row : Row) (k : string) :
  (exists e, bind (prop row k) escapeCsvField = Throw e)
  <-> cell_fails row k.
Proof.
  unfold cell_fails. destruct (prop row k) as [v|e] eqn:P; cbn [bind].
  - apply prop_field_of in P. split.
    + intros [e H]. apply escapeCsvField_throws in H as [Hn He].
      right. now exists v, e.
    + intros [[e H]|(v' & e & Hv & Hn & He)].
      * apply prop_field_of in H, P. congruence.
      * apply prop_field_of in Hv, P.
        assert (v' = v) by congruence. subst v'.
        exists e. now apply escapeCsvField_throws.
  - split; [|intros _; now exists e].
    intros _. left. exists e. now apply prop_field_of.
Qed.

Lemma csv_rows_throw (cols : Array_ Column) (data : Array_ Row) :
  (exists e,
     bind (Array_map (fun c => escapeCsvField (Primitive (JsString (label c))))
             cols)
       (fun header =>
     bind (Array_map
             (fun row =>
                bind (Array_map
                        (fun c => bind (prop row (key c)) escapeCsvField) cols)
                  (fun fields => Normal (Array_join "," fields)))
             data)
       (fun rows =>
     Normal (Array_join (str1 newline) (Some (Array_join "," header) :: rows))))
     = Throw e)
  <-> exists row c,
        In (Some row) data /\ In (Some c) cols /\ cell_fails row (key c).
Proof.
  destruct (header_fields cols) as (header & -> & _). cbn [bind].
  set (line_of := fun row : Row =>
         bind (Array_map (fun c => bind (prop row (key c)) escapeCsvField) cols)
           (fun fields => Normal (Array_join "," fields))).
  assert (L : forall row,
             (exists e, line_of row = Throw e)
             <-> exists c, In (Some c) cols /\ cell_fails row (key c)).
  { intro row.
    assert (L' : (exists e, line_of row = Throw e)
                 <-> exists e, Array_map
                                 (fun c => bind (prop row (key c)) escapeCsvField)
                                 cols = Throw e).
    { unfold line_of.
      destruct (Array_map (fun c => bind (prop row (key c)) escapeCsvField) cols)
        as [fields|e]; cbn [bind].
      - split; intros [e H]; discriminate.
      - split; intros _; now exists e. }
    rewrite L', Array_map_Throw.
    split; intros (c & Hc & H); exists c; (split; [exact Hc|]);
      now apply cell_throws. }
  split.
  - intro H.
    assert (H' : exists e, Array_map line_of data = Throw e).
    { destruct (Array_map line_of data) as [lines|e]; cbn [bind] in H;
        [destruct H as [e H]; discriminate | now exists e]. }
    apply Array_map_Throw in H' as (row & Hrow & He).
    apply L in He as (c & Hc & He).
    now exists row, c.
  - intros (row & c & Hrow & Hc & He).
    assert (H : exists e, Array_map line_of data = Throw e).
    { apply Array_map_Throw. exists row. split; [exact Hrow|].
      apply L. now exists c. }
    destruct H as [e' H]. rewrite H. now exists e'.
Qed.

Lemma csv_text_throws (data : Array_ Row) (columns : option (Array_ Column)) :
  (exists e, csv_text data columns = Throw e) <-> export_fails data columns.
Proof.
  unfold csv_text, export_fails.
  pose proof (csv_columns_throws data columns) as T.
  destruct (csv_columns data columns) as [cols|e] eqn:C; cbn [bind].
  - rewrite csv_rows_throw. split.
    + intros (row & c & H). right. exists cols, row, c.
      split; [now apply csv_columns_iff | exact H].
    + intros [H|(cols' & row & c & H' & H)].
      * apply T in H as [e H]. discriminate.
      * apply csv_columns_iff in H'.
        assert (cols' = cols) by congruence. subst cols'. now exists row, c.
  - split; [|intros _; now exists e].
    intros _. left. apply T. now exists e.
Qed.

(** C10 (as amended).  [downloadCsv] returns without producing anything
    when the data array is empty.  For a data array that is not empty it
    hands over a download exactly when the export has a text; the text of
    the download is then exactly the header record followed, each after a
    line feed, by one record per element of the data array in the order
    of the array, the record of a row being the escaped fields of the
    columns joined by commas (the header's fields being the labels) and
    the record of a hole being empty, with the columns being the explicit
    list or, without one, the keys of the first row, and a hole of the
    column list giving an empty field.  It throws, before anything is
    produced, exactly when the export fails: there is no explicit list
    and the first element of the array is a hole or has no list of keys,
    or a cell of a row under a column fails, which is that reading it
    throws or that it holds a value that is not equal to [null] and has
    no string form. *)
Theorem downloadCsv_output :
  forall (data : Array_ Row) (filename : string)
         (columns : option (Array_ Column)),
    match data with
    | [] => downloadCsv data filename columns = Normal None
    | _ :: _ =>
        (forall text,
            csv_as_specified data columns text
            <-> downloadCsv data filename columns
                = Normal (Some {| blob_text := text;
                                  blob_type := "text/csv;charset=utf-8;";
                                  download := filename ++ ".csv" |}))
        /\ (forall d,
              downloadCsv data filename columns = Normal (Some d) ->
              csv_as_specified data columns (blob_text d)
              /\ blob_type d = "text/csv;charset=utf-8;"
              /\ download d = filename ++ ".csv")
        /\ downloadCsv data filename columns <> Normal None
        /\ ((exists e, downloadCsv data filename columns = Throw e)
            <-> export_fails data columns)
    end.
Proof.
  intros [|row rest] filename columns; [reflexivity|].
  set (data := row :: rest).
  pose proof (csv_text_iff data columns) as T.
  pose proof (csv_text_throws data columns) as X.
  unfold downloadCsv. fold data.
  destruct (csv_text data columns) as [csv|e] eqn:E; cbn [bind].
  - split; [|split; [|split]].
    + intro text. rewrite <- T. split; [now intros [= ->] | now intros [= ->]].
    + intros d [= <-]. cbn [blob_text blob_type download].
      split; [now apply T | now split].
    + discriminate.
    + rewrite <- X. split; intros [e H]; discriminate.
  - split; [|split; [|split]].
    + intro text. rewrite <- T. split; discriminate.
    + discriminate.
    + discriminate.
    + rewrite <- X. split; intros _; now exists e.
Qed.

(** C10 (as stated) fails.  A data array of one row whose [owner] is
    [Object.create(null)] is not empty, yet no CSV text is generated for
    it: the conversion of that cell throws a [TypeError], and
    [downloadCsv] with it.  So it is with a getter that throws, with a
    proxy whose keys cannot be listed, and with an array whose first
    element is a hole; and for an array with a hole further on, the text
    has a record, an empty one, where the array has no row. *)
Lemma downloadCsv_throws :
  MoreExamples.rows_with_bare_object <> []
  /\ downloadCsv MoreExamples.rows_with_bare_object "export" None
     = Throw TypeError
  /\ ~ downloadCsv_as_stated MoreExamples.rows_with_bare_object "export" None
  /\ downloadCsv MoreExamples.rows_with_throwing_getter "export" None
     = Throw (Thrown "no owner")
  /\ downloadCsv [Some MoreExamples.row_without_keys] "export" None
     = Throw (Thrown "no keys")
  /\ downloadCsv MoreExamples.rows_after_hole "export" None = Throw TypeError
  /\ downloadCsv MoreExamples.rows_with_hole "export" None
     = Normal (Some {| blob_text :=
                         "id" ++ str1 newline ++ "7" ++ str1 newline
                         ++ str1 newline ++ "8";
                       blob_type := "text/csv;charset=utf-8;";
                       download := "export.csv" |})
  /\ ~ downloadCsv_as_stated MoreExamples.rows_with_hole "export" None.
Proof.
  split; [discriminate|]. split; [reflexivity|].
  split; [intros (d & rows & H & _); discriminate|].
  do 4 (split; [reflexivity|]).
  intros (d & rows & _ & H & _).
  destruct rows as [|r1 [|r2 rows]]; discriminate.
Qed.

(** A column may name a property that the rows inherit, a number is
    written as [String] prints it, a hole of the column list gives an
    empty field, and a proxy is read through its traps. *)
Lemma downloadCsv_examples :
  downloadCsv [Some (object_literal [("a", MoreExamples.ten_to_the_21)])]
    "export"
    (Some [ Some {| key := "a"; label := "A" |};
            Some {| key := "constructor"; label := "C" |};
            None;
            Some {| key := "b"; label := "B" |} ])
  = Normal (Some {| blob_text :=
                      "A,C,,B" ++ str1 newline
                      ++ "1e+21,function Object() { [native code] },,";
                    blob_type := "text/csv;charset=utf-8;";
                    download := "export.csv" |})
  /\ downloadCsv MoreExamples.export_rows "export" None
     = Normal (Some MoreExamples.export_download)
  /\ downloadCsv [Some MoreExamples.row_of_brackets] "export" None
     = Normal (Some {| blob_text := "a,b" ++ str1 newline ++ "[a],[b]";
                       blob_type := "text/csv;charset=utf-8;";
                       download := "export.csv" |}).
Proof. repeat split; reflexivity. Qed.

End CsvDownloadFacts.

(* ------------------------------------------------------------------ *)
(** ** Sets, maps and the sort *)

Module JsFacts.
Import Js Notions.

Lemma Set_has_In (x : string) (s : StringSet) :
  Set_has x s = true <-> In x s.
Proof.
  unfold Set_has. rewrite existsb_exists. split.
  - intros (y & Hy & E). apply String.eqb_eq in E. now subst.
  - intro H. exists x. split; [assumption | apply String.eqb_refl].
Qed.

Lemma Set_add_In (x y : string) (s : StringSet) :
  In y (Set_add x s) <-> y = x \/ In y s.
Proof.
  unfold Set_add. destruct (Set_has x s) eqn:E.
  - apply Set_has_In in E. split; [tauto|]. intros [->|H]; assumption.
  - rewrite in_app_iff. simpl. split; intros H; intuition.
Qed.

Lemma Set_add_NoDup (x : string) (s : StringSet) :
  NoDup s -> NoDup (Set_add x s).
Proof.
  intro H. unfold Set_add. destruct (Set_has x s) eqn:E; [assumption|].
  apply NoDup_app; [assumption | repeat constructor; intros [] |].
  intros y Hy [<-|[]].
  apply Set_has_In in Hy. congruence.
Qed.

Lemma Set_add_all_In (xs : list string) :
  forall s y, In y (Set_add_all s xs) <-> In y s \/ In y xs.
Proof.
  induction xs as [|x xs IH]; intros s y; simpl.
  - tauto.
  - unfold Set_add_all in *. simpl. rewrite IH, Set_add_In.
    intuition (subst; auto).
Qed.

Lemma Set_add_all_NoDup (xs : list string) :
  forall s, NoDup s -> NoDup (Set_add_all s xs).
Proof.
  induction xs as [|x xs IH]; intros s H; simpl; [assumption|].
  apply IH, Set_add_NoDup, H.
Qed.

Lemma Set_of_In (xs : list string) (y : string) :
  In y (Set_of xs) <-> In y xs.
Proof.
  unfold Set_of. rewrite (Set_add_all_In xs [] y). simpl. tauto.
Qed.

Lemma Set_of_NoDup (xs : list string) : NoDup (Set_of xs).
Proof. apply (Set_add_all_NoDup xs []). constructor. Qed.

Lemma Set_of_snoc (xs : list string) (x : string) :
  Set_of (xs ++ [x]) = Set_add x (Set_of xs).
Proof. unfold Set_of, Set_add_all. now rewrite fold_left_app. Qed.

Lemma Set_of_app (xs ys : list string) :
  Set_of (xs ++ ys) = Set_add_all (Set_of xs) ys.
Proof. unfold Set_of, Set_add_all. now rewrite fold_left_app. Qed.

(** The size of the set of a list is the number of its distinct elements. *)
Lemma Set_size_distinct (xs : list string) :
  Set_size (Set_of xs) = List.length (nodup string_dec xs).
Proof.
  unfold Set_size. apply Permutation_length, NoDup_Permutation.
  - apply Set_of_NoDup.
  - apply NoDup_nodup.
  - intro y. now rewrite Set_of_In, nodup_In.
Qed.

Section Maps.
Context {V : Type}.
Implicit Types (m : StringMap V) (k : string) (v : V).

Lemma Map_get_set_same k v m : Map_get k (Map_set k v m) = Some v.
Proof.
  induction m as [|[k' v'] m IH]; simpl.
  - now rewrite String.eqb_refl.
  - destruct (k =? k') eqn:E; simpl; rewrite E; [reflexivity | exact IH].
Qed.

Lemma Map_get_set_other k k0 v m :
  k0 <> k -> Map_get k0 (Map_set k v m) = Map_get k0 m.
Proof.
  intro Hne. induction m as [|[k' v'] m IH]; simpl.
  - apply String.eqb_neq in Hne. now rewrite Hne.
  - destruct (k =? k') eqn:E; simpl.
    + apply String.eqb_eq in E. subst k'.
      apply String.eqb_neq in Hne. now rewrite Hne.
    + now rewrite IH.
Qed.

Lemma Map_get_has k m :
  Set_has k (Map_keys m) = match Map_get k m with Some _ => true | None => false end.
Proof.
  induction m as [|[k' v'] m IH]; simpl; [reflexivity|].
  destruct (k =? k'); [reflexivity | exact IH].
Qed.

(** [set] acts on the keys as [add] acts on a set. *)
Lemma Map_keys_set k v m : Map_keys (Map_set k v m) = Set_add k (Map_keys m).
Proof.
  unfold Set_add.
  induction m as [|[k' v'] m IH]; simpl; [reflexivity|].
  destruct (k =? k') eqn:E; simpl; [reflexivity|].
  rewrite IH. now destruct (Set_has k (Map_keys m)).
Qed.

Lemma Map_get_In k v m : Map_get k m = Some v -> In (k, v) m.
Proof.
  induction m as [|[k' v'] m IH]; simpl; [discriminate|].
  destruct (k =? k') eqn:E.
  - apply String.eqb_eq in E. intros [= ->]. left. now subst.
  - intro H. right. now apply IH.
Qed.

Lemma Map_In_get k v m : NoDup (Map_keys m) -> In (k, v) m -> Map_get k m = Some v.
Proof.
  induction m as [|[k' v'] m IH]; simpl; [contradiction|].
  intros Hnd [[= -> ->]|Hin].
  - now rewrite String.eqb_refl.
  - inversion Hnd as [|? ? Hk Hnd']; subst.
    destruct (k =? k') eqn:E.
    + apply String.eqb_eq in E. subst. exfalso. apply Hk.
      change (In (fst (k', v)) (map fst m)). now apply in_map.
    + now apply IH.
Qed.

Lemma Map_values_In v m :
  NoDup (Map_keys m) -> (In v (Map_values m) <-> exists k, Map_get k m = Some v).
Proof.
  intro Hnd. unfold Map_values. rewrite in_map_iff. split.
  - intros ([k v'] & <- & Hin). exists k. now apply Map_In_get.
  - intros (k & Hk). exists (k, v). split; [reflexivity | now apply Map_get_In].
Qed.
End Maps.

Section Sorting.
Context {A : Type} (compareFn : A -> A -> Z).

Lemma sort_insert_perm (x : A) (l : list A) :
  Permutation (x :: l) (sort_insert compareFn x l).
Proof.
  induction l as [|y l IH]; simpl; [reflexivity|].
  destruct (compareFn x y <=? 0)%Z; [reflexivity|].
  rewrite perm_swap. now apply perm_skip.
Qed.

(** The sorted array is a rearrangement of the array. *)
Lemma sort_perm (l : list A) : Permutation l (sort compareFn l).
Proof.
  induction l as [|x l IH]; simpl; [constructor|].
  rewrite <- sort_insert_perm. now apply perm_skip.
Qed.

Lemma sort_In (l : list A) (x : A) : In x (sort compareFn l) <-> In x l.
Proof.
  split; apply Permutation_in;
    [apply Permutation_sym|]; apply sort_perm.
Qed.

(** Stability: the elements of a class no two members of which the
    comparator tells apart come out in the order they went in. *)
Lemma sort_insert_filter (p : A -> bool) (x : A) (l : list A) :
  (forall y, In y l -> p x = true -> p y = true -> (compareFn x y <= 0)%Z) ->
  filter p (sort_insert compareFn x l) = filter p (x :: l).
Proof.
  intro Hp. induction l as [|y l IH]; [reflexivity|].
  simpl sort_insert. destruct (compareFn x y <=? 0)%Z eqn:E; [reflexivity|].
  apply Z.leb_gt in E.
  change (filter p (y :: sort_insert compareFn x l))
    with (if p y then y :: filter p (sort_insert compareFn x l)
          else filter p (sort_insert compareFn x l)).
  rewrite IH by (intros z Hz; apply Hp; now right). simpl.
  destruct (p x) eqn:Ex, (p y) eqn:Ey; try reflexivity.
  specialize (Hp y (or_introl eq_refl) eq_refl Ey). lia.
Qed.

Lemma sort_stable_in (p : A -> bool) (l : list A) :
  (forall x y, In x l -> In y l -> p x = true -> p y = true ->
               (compareFn x y <= 0)%Z) ->
  filter p (sort compareFn l) = filter p l.
Proof.
  induction l as [|x l IH]; intro Hp; [reflexivity|].
  simpl sort. rewrite sort_insert_filter.
  - simpl. rewrite IH; [reflexivity|].
    intros a b Ha Hb. apply Hp; now right.
  - intros y Hy. apply Hp; [now left|]. right. now apply sort_In.
Qed.

Lemma sort_stable (p : A -> bool) (l : list A) :
  (forall x y, p x = true -> p y = true -> (compareFn x y <= 0)%Z) ->
  filter p (sort compareFn l) = filter p l.
Proof. intro Hp. apply sort_stable_in. intros x y _ _. apply Hp. Qed.

(** Sortedness, for an array on whose elements the comparator is total
    and transitive; [P] holds of the elements of the array. *)
Section Sorted.
Variable P : A -> Prop.
Hypothesis total :
  forall a b, P a -> P b -> (0 < compareFn a b)%Z -> (compareFn b a <= 0)%Z.
Hypothesis trans :
  forall a b c, P a -> P b -> P c ->
                (compareFn a b <= 0)%Z -> (compareFn b c <= 0)%Z ->
                (compareFn a c <= 0)%Z.

Lemma sort_insert_sorted (x : A) (l : list A) :
  P x -> Forall P l ->
  StronglySorted (fun a b => (compareFn a b <= 0)%Z) l ->
  StronglySorted (fun a b => (compareFn a b <= 0)%Z) (sort_insert compareFn x l).
Proof.
  intros Px Pl Hs. induction Hs as [|y l Hs IH Hy]; simpl.
  - repeat constructor.
  - inversion Pl as [|? ? Py Pl']; subst.
    destruct (compareFn x y <=? 0)%Z eqn:E.
    + apply Z.leb_le in E. constructor; [now constructor|].
      constructor; [exact E|].
      rewrite Forall_forall in Hy, Pl'. apply Forall_forall. intros z Hz.
      apply (trans x y z); auto.
    + apply Z.leb_gt in E. constructor; [now apply IH|].
      apply (Permutation_Forall (sort_insert_perm x l)).
      constructor; [|exact Hy]. now apply total.
Qed.

Lemma sort_sorted (l : list A) :
  Forall P l ->
  StronglySorted (fun a b => (compareFn a b <= 0)%Z) (sort compareFn l).
Proof.
  induction l as [|x l IH]; intro Pl; simpl; [constructor|].
  inversion Pl; subst.
  apply sort_insert_sorted; auto.
  apply (Permutation_Forall (sort_perm l)). assumption.
Qed.

Lemma sort_tie_filter (l : list A) (x : A) :
  P x -> Forall P l ->
  filter (sort_tie compareFn x) (sort compareFn l)
  = filter (sort_tie compareFn x) l.
Proof.
  intros Px Pl. rewrite Forall_forall in Pl.
  apply sort_stable_in. intros a b Ha Hb Ta Tb. unfold sort_tie in Ta, Tb.
  apply andb_true_iff in Ta as [_ Ta]. apply andb_true_iff in Tb as [Tb _].
  apply Z.leb_le in Ta, Tb. apply (trans a x b); auto.
Qed.

Lemma compareFn_refl (a : A) : P a -> (compareFn a a <= 0)%Z.
Proof.
  intro Pa. destruct (Z.leb_spec (compareFn a a) 0) as [H|H];
    [assumption | now apply total].
Qed.

Lemma sorted_head_le (a b : A) (l : list A) :
  P a -> StronglySorted (fun a b => (compareFn a b <= 0)%Z) (a :: l) ->
  In b (a :: l) -> (compareFn a b <= 0)%Z.
Proof.
  intros Pa Hs [<-|Hin]; [now apply compareFn_refl|].
  inversion Hs as [|? ? _ Hf]; subst.
  rewrite Forall_forall in Hf. now apply Hf.
Qed.

(** Two sorted arrangements of the same elements that agree on the order
    within every class of ties are the same array. *)
Lemma sorted_stable_unique (r1 : list A) :
  forall r2,
    Forall P r1 -> Permutation r1 r2 ->
    StronglySorted (fun a b => (compareFn a b <= 0)%Z) r1 ->
    StronglySorted (fun a b => (compareFn a b <= 0)%Z) r2 ->
    (forall x, P x -> filter (sort_tie compareFn x) r1
                      = filter (sort_tie compareFn x) r2) ->
    r1 = r2.
Proof.
  induction r1 as [|a r1 IH]; intros r2 HP Hperm Hs1 Hs2 Hf.
  - now apply Permutation_nil in Hperm.
  - destruct r2 as [|b r2].
    + apply Permutation_sym, Permutation_nil in Hperm. discriminate.
    + inversion HP as [|? ? Pa HP']; subst.
      assert (Pb : P b).
      { rewrite Forall_forall in HP. apply HP.
        apply (Permutation_in b (Permutation_sym Hperm)). now left. }
      assert (Hab : (compareFn a b <= 0)%Z).
      { apply (sorted_head_le a b r1 Pa Hs1).
        apply (Permutation_in b (Permutation_sym Hperm)). now left. }
      assert (Hba : (compareFn b a <= 0)%Z).
      { apply (sorted_head_le b a r2 Pb Hs2).
        apply (Permutation_in a Hperm). now left. }
      assert (E : a = b).
      { assert (Taa : sort_tie compareFn a a = true).
        { unfold sort_tie. apply andb_true_iff.
          split; apply Z.leb_le, compareFn_refl, Pa. }
        assert (Tab : sort_tie compareFn a b = true).
        { unfold sort_tie. apply andb_true_iff. split; now apply Z.leb_le. }
        specialize (Hf a Pa). cbn [filter] in Hf. rewrite Taa, Tab in Hf.
        now injection Hf. }
      subst b. f_equal. apply IH.
      * assumption.
      * now apply Permutation_cons_inv in Hperm.
      * now inversion Hs1.
      * now inversion Hs2.
      * intros x Px. specialize (Hf x Px). cbn [filter] in Hf.
        destruct (sort_tie compareFn x a); [now injection Hf | assumption].
Qed.

(** The sorted array is the only stable sorted arrangement of the array. *)
Lemma sort_unique (l r : list A) :
  Forall P l -> Permutation l r ->
  StronglySorted (fun a b => (compareFn a b <= 0)%Z) r ->
  (forall x, P x -> filter (sort_tie compareFn x) r
                    = filter (sort_tie compareFn x) l) ->
  r = sort compareFn l.
Proof.
  intros HP Hperm Hs Hf. symmetry. apply sorted_stable_unique.
  - apply (Permutation_Forall (sort_perm l)). assumption.
  - now rewrite <- (sort_perm l).
  - now apply sort_sorted.
  - assumption.
  - intros x Px. now rewrite sort_tie_filter, Hf.
Qed.
End Sorted.

(** A consistent comparator never puts each of two elements after the
    other. *)
Lemma consistent_total (l : list A) (a b : A) :
  consistent compareFn l -> In a l -> In b l ->
  (0 < compareFn a b)%Z -> (compareFn b a < 0)%Z.
Proof.
  intros (Hrefl & Hsym & _ & _ & Hgt) Ha Hb Hab.
  destruct (Z.lt_trichotomy (compareFn b a) 0) as [H|[H|H]]; [exact H| |].
  - apply (Hsym b a Hb Ha) in H. lia.
  - pose proof (Hgt a b a Ha Hb Ha Hab H) as Haa.
    rewrite (Hrefl a Ha) in Haa. lia.
Qed.

(** For a consistent comparator "not after" is transitive. *)
Lemma consistent_trans (l : list A) (a b c : A) :
  consistent compareFn l -> In a l -> In b l -> In c l ->
  (compareFn a b <= 0)%Z -> (compareFn b c <= 0)%Z -> (compareFn a c <= 0)%Z.
Proof.
  intros Hc Ha Hb Hc' Hab Hbc.
  pose proof (consistent_total l) as Htot.
  destruct Hc as (Hrefl & Hsym & Heq & Hlt & Hgt).
  destruct (Z.lt_trichotomy (compareFn a c) 0) as [H|[H|H]]; [lia | lia |].
  exfalso.
  assert (Hca : (compareFn c a < 0)%Z)
    by (apply (Htot a c); repeat split; assumption).
  destruct (proj1 (Z.le_lteq _ _) Hab) as [Hab'|Hab'];
    destruct (proj1 (Z.le_lteq _ _) Hbc) as [Hbc'|Hbc'].
  - pose proof (Hlt a b c Ha Hb Hc' Hab' Hbc'). lia.
  - pose proof (Hlt c a b Hc' Ha Hb Hca Hab') as Hcb.
    apply (Hsym b c Hb Hc') in Hbc'. lia.
  - pose proof (Hlt b c a Hb Hc' Ha Hbc' Hca) as Hba.
    apply (Hsym a b Ha Hb) in Hab'. lia.
  - pose proof (Heq a b c Ha Hb Hc' Hab' Hbc'). lia.
Qed.

(** For a consistent comparator the stable insertion sort gives what
    ECMAScript requires, and nothing else does. *)
Lemma sort_consistent (l : list A) :
  consistent compareFn l ->
  StronglySorted (fun a b => (compareFn a b <= 0)%Z) (sort compareFn l)
  /\ (forall x, In x l ->
        filter (sort_tie compareFn x) (sort compareFn l)
        = filter (sort_tie compareFn x) l)
  /\ forall r,
       Permutation l r ->
       StronglySorted (fun a b => (compareFn a b <= 0)%Z) r ->
       (forall x, In x l -> filter (sort_tie compareFn x) r
                            = filter (sort_tie compareFn x) l) ->
       r = sort compareFn l.
Proof.
  intro Hc.
  assert (Htot : forall a b, In a l -> In b l ->
            (0 < compareFn a b)%Z -> (compareFn b a <= 0)%Z).
  { intros a b Ha Hb H. apply Z.lt_le_incl. now apply (consistent_total l). }
  assert (Htr : forall a b c, In a l -> In b l -> In c l ->
            (compareFn a b <= 0)%Z -> (compareFn b c <= 0)%Z ->
            (compareFn a c <= 0)%Z).
  { intros a b c. now apply consistent_trans. }
  assert (Hl : Forall (fun x => In x l) l) by now apply Forall_forall.
  split; [|split].
  - now apply (sort_sorted (fun x => In x l)).
  - intros x Hx. now apply (sort_tie_filter (fun x => In x l)).
  - intros r Hperm Hs Hf. now apply (sort_unique (fun x => In x l)).
Qed.
End Sorting.

(** The stable insertion sort is an engine's sort. *)
Lemma insertion_sort_conforming : conforming insertion_sort.
Proof.
  intros A compareFn l. split; [apply sort_perm|].
  intro Hc. destruct (sort_consistent compareFn l Hc) as (Hs & Hf & _).
  now split.
Qed.

Lemma consistent_consistentb {A : Type} (compareFn : A -> A -> Z) (l : list A) :
  consistent compareFn l -> consistentb compareFn l = true.
Proof.
  intros (Hrefl & Hsym & Heq & Hlt & Hgt). unfold consistentb.
  apply forallb_forall. intros a Ha. apply andb_true_iff. split.
  { apply Z.eqb_eq. now apply Hrefl. }
  apply forallb_forall. intros b Hb. apply andb_true_iff. split.
  { apply implb_true_iff. rewrite !Z.eqb_eq. now apply Hsym. }
  apply forallb_forall. intros c Hc. rewrite !andb_true_iff. repeat split;
    apply implb_true_iff; rewrite andb_true_iff.
  - rewrite !Z.eqb_eq. intros [H1 H2]. now apply (Heq a b c).
  - rewrite !Z.ltb_lt. intros [H1 H2]. now apply (Hlt a b c).
  - rewrite !Z.ltb_lt. intros [H1 H2]. now apply (Hgt a b c).
Qed.

(** The engine that leaves the array alone on an inconsistent comparator
    is an engine's sort as well. *)
Lemma checking_sort_conforming : conforming checking_sort.
Proof.
  intros A compareFn l. unfold checking_sort. split.
  - destruct (consistentb compareFn l);
      [apply sort_perm | apply Permutation_refl].
  - intro Hc. rewrite (consistent_consistentb compareFn l Hc).
    destruct (sort_consistent compareFn l Hc) as (Hs & Hf & _).
    now split.
Qed.

(** On a consistent comparator every engine gives the array of the stable
    insertion sort. *)
Lemma conforming_sort (engine : Sort) {A : Type} (compareFn : A -> A -> Z)
  (l : list A) :
  conforming engine -> consistent compareFn l ->
  engine A compareFn l = sort compareFn l.
Proof.
  intros He Hc. destruct (He A compareFn l) as [Hperm H].
  destruct (H Hc) as [Hs Hf].
  destruct (sort_consistent compareFn l Hc) as (_ & _ & Hu).
  now apply Hu.
Qed.

End JsFacts.

(* ------------------------------------------------------------------ *)
(** ** Package grouping *)

Module VulnerabilitiesFacts.
Import Js JsFacts VulnerabilitiesPage Notions Spec.

Lemma members_snoc (pkg : string) (l : list VulnDetailEntry.t) (x : VulnDetailEntry.t) :
  members pkg (l ++ [x])
  = (members pkg l ++ (if pkg_of x =? pkg then [x] else []))%list.
Proof.
  unfold members. rewrite filter_app. simpl.
  now destruct (pkg_of x =? pkg).
Qed.

Lemma packageGroups_snoc (l : list VulnDetailEntry.t) (x : VulnDetailEntry.t) :
  packageGroups (l ++ [x]) = group_item (packageGroups l) x.
Proof. unfold packageGroups. now rewrite fold_left_app. Qed.

Lemma group_of_snoc (pkg : string) (ms : list VulnDetailEntry.t) (x : VulnDetailEntry.t) :
  group_of pkg (ms ++ [x])
  = Some match group_of pkg ms with
         | Some existing => group_update existing x
         | None => group_new pkg x
         end.
Proof.
  destruct ms as [|first rest]; simpl; [reflexivity|].
  now rewrite fold_left_app.
Qed.

(** The entry of a package in the map is the group of its members. *)
Lemma packageGroups_get (l : list VulnDetailEntry.t) :
  forall k, Map_get k (packageGroups l) = group_of k (members k l).
Proof.
  induction l as [|x l IH] using rev_ind; intro k; [reflexivity|].
  rewrite packageGroups_snoc, members_snoc. unfold group_item.
  destruct (String.eqb_spec (pkg_of x) k) as [E|Hne]; [subst k|].
  - rewrite group_of_snoc, <- IH.
    destruct (Map_get (pkg_of x) (packageGroups l)); apply Map_get_set_same.
  - rewrite app_nil_r, <- IH.
    destruct (Map_get (pkg_of x) (packageGroups l));
      apply Map_get_set_other; congruence.
Qed.

Lemma group_item_keys (m : StringMap PackageGroup.t) (x : VulnDetailEntry.t) :
  Map_keys (group_item m x) = Set_add (pkg_of x) (Map_keys m).
Proof.
  unfold group_item.
  destruct (Map_get (pkg_of x) m); apply Map_keys_set.
Qed.

(** The packages of the map, in its order: each package of the findings
    once, in the order of first occurrence. *)
Lemma packageGroups_keys (l : list VulnDetailEntry.t) :
  Map_keys (packageGroups l) = Set_of (map pkg_of l).
Proof.
  induction l as [|x l IH] using rev_ind; [reflexivity|].
  rewrite packageGroups_snoc, group_item_keys, IH, map_app.
  change (map pkg_of [x]) with [pkg_of x]. now rewrite Set_of_snoc.
Qed.

Lemma packageGroups_NoDup (l : list VulnDetailEntry.t) :
  NoDup (Map_keys (packageGroups l)).
Proof. rewrite packageGroups_keys. apply Set_of_NoDup. Qed.

Lemma packageGroups_In (l : list VulnDetailEntry.t) (g : PackageGroup.t) :
  In g (Map_values (packageGroups l))
  <-> exists k, group_of k (members k l) = Some g.
Proof.
  rewrite (Map_values_In g (packageGroups l) (packageGroups_NoDup l)).
  split; intros (k & Hk); exists k.
  - now rewrite <- packageGroups_get.
  - now rewrite packageGroups_get.
Qed.

Lemma sortedPackages_In (l : list VulnDetailEntry.t) (g : PackageGroup.t) :
  In g (sortedPackages l) <-> exists k, group_of k (members k l) = Some g.
Proof. unfold sortedPackages. now rewrite sort_In, packageGroups_In. Qed.

(** *** The fields of a group as functions of its members *)

Lemma add_if_truthy_all (v : option string) (s : StringSet) (tl : list string) :
  Set_add_all s (if_truthy v ++ tl) = Set_add_all (add_if_truthy v s) tl.
Proof.
  destruct v as [x|]; simpl; [|reflexivity].
  now destruct (negb (x =? "")).
Qed.

Section Fields.
Variable fld : PackageGroup.t -> StringSet.

Lemma fold_update_optional (attr : VulnDetailEntry.t -> option string) :
  (forall g x, fld (group_update g x) = add_if_truthy (attr x) (fld g)) ->
  forall rest g0,
    fld (fold_left group_update rest g0)
    = Set_add_all (fld g0) (non_empty attr rest).
Proof.
  intros Hf rest. induction rest as [|x rest IH]; intro g0; [reflexivity|].
  simpl. rewrite IH, Hf. symmetry. apply add_if_truthy_all.
Qed.

Lemma fold_update_required (attr : VulnDetailEntry.t -> string) :
  (forall g x, fld (group_update g x) = Set_add (attr x) (fld g)) ->
  forall rest g0,
    fld (fold_left group_update rest g0)
    = Set_add_all (fld g0) (map attr rest).
Proof.
  intros Hf rest. induction rest as [|x rest IH]; intro g0; [reflexivity|].
  simpl. now rewrite IH, Hf.
Qed.
End Fields.

Lemma fold_update_package (rest : list VulnDetailEntry.t) :
  forall g0, PackageGroup.package (fold_left group_update rest g0)
             = PackageGroup.package g0.
Proof.
  induction rest as [|x rest IH]; intro g0; [reflexivity|].
  simpl. now rewrite IH.
Qed.

Lemma fold_update_count (rest : list VulnDetailEntry.t) :
  forall g0, PackageGroup.count (fold_left group_update rest g0)
             = (PackageGroup.count g0 + List.length rest)%nat.
Proof.
  induction rest as [|x rest IH]; intro g0; simpl; [lia|].
  rewrite IH. simpl. lia.
Qed.

Lemma fold_update_severity (rest : list VulnDetailEntry.t) :
  forall g0, PackageGroup.severity (fold_left group_update rest g0)
             = if existsb is_critical rest then "Critical"
               else PackageGroup.severity g0.
Proof.
  induction rest as [|x rest IH]; intro g0; [reflexivity|].
  simpl. rewrite IH. cbn [PackageGroup.severity group_update].
  destruct (is_critical x); simpl; now destruct (existsb is_critical rest).
Qed.

(** A group, field by field, from the members of its package. *)
Lemma group_of_fields (k : string) (ms : list VulnDetailEntry.t) (g : PackageGroup.t) :
  group_of k ms = Some g ->
  PackageGroup.package g = k
  /\ PackageGroup.count g = List.length ms
  /\ PackageGroup.cves g = Set_of (map VulnDetailEntry.vuln_id ms)
  /\ PackageGroup.instances g = Set_of (map VulnDetailEntry.instance_name ms)
  /\ PackageGroup.hosts g = Set_of (non_empty VulnDetailEntry.hostname ms)
  /\ PackageGroup.fix_versions g = Set_of (non_empty VulnDetailEntry.fix_version ms)
  /\ PackageGroup.versions g = Set_of (non_empty VulnDetailEntry.version ms)
  /\ PackageGroup.severity g
     = match ms with
       | [] => ""
       | first :: rest =>
           if existsb is_critical rest then "Critical"
           else VulnDetailEntry.severity first
       end.
Proof.
  destruct ms as [|first rest]; [discriminate|].
  intros [= <-].
  rewrite fold_update_package, fold_update_count, fold_update_severity.
  rewrite (fold_update_required PackageGroup.cves VulnDetailEntry.vuln_id)
    by reflexivity.
  rewrite (fold_update_required PackageGroup.instances VulnDetailEntry.instance_name)
    by reflexivity.
  rewrite (fold_update_optional PackageGroup.hosts VulnDetailEntry.hostname)
    by reflexivity.
  rewrite (fold_update_optional PackageGroup.fix_versions VulnDetailEntry.fix_version)
    by reflexivity.
  rewrite (fold_update_optional PackageGroup.versions VulnDetailEntry.version)
    by reflexivity.
  unfold non_empty. simpl flat_map. rewrite !Set_of_app.
  repeat split; reflexivity.
Qed.

(** Every group of the result is the group of its own package. *)
Lemma sortedPackages_group (l : list VulnDetailEntry.t) (g : PackageGroup.t) :
  In g (sortedPackages l) ->
  group_of (PackageGroup.package g) (members (PackageGroup.package g) l) = Some g.
Proof.
  intro H. apply sortedPackages_In in H as (k & Hk).
  pose proof (group_of_fields _ _ _ Hk) as (Hp & _). now rewrite Hp.
Qed.

(** *** The comparator *)

Lemma compareFn_le_iff (a b : PackageGroup.t) :
  (compareFn a b <= 0)%Z <-> critical_then_hosts a b.
Proof.
  unfold compareFn, critical_then_hosts, Set_size.
  destruct (String.eqb_spec (PackageGroup.severity a) (PackageGroup.severity b))
    as [E|E]; simpl.
  - split.
    + intro H. right. split; [assumption | lia].
    + intros [[Ha Hb]|[_ H]]; [congruence | lia].
  - destruct (String.eqb_spec (PackageGroup.severity a) "Critical") as [C|C].
    + split; [|lia]. intros _. left. split; congruence.
    + split; [lia|]. intros [[Ha _]|[Hs _]]; contradiction.
Qed.

Lemma compareFn_trans (a b c : PackageGroup.t) :
  (compareFn a b <= 0)%Z -> (compareFn b c <= 0)%Z -> (compareFn a c <= 0)%Z.
Proof.
  rewrite !compareFn_le_iff. unfold critical_then_hosts.
  intros [[Ha Hb]|[Hab Hh]] [[Hb' Hc]|[Hbc Hh']].
  - contradiction.
  - left. split; congruence.
  - left. split; congruence.
  - right. split; [congruence | lia].
Qed.

Lemma compareFn_total_on (gs : list PackageGroup.t) (a b : PackageGroup.t) :
  one_severity_below_critical gs -> In a gs -> In b gs ->
  (0 < compareFn a b)%Z -> (compareFn b a <= 0)%Z.
Proof.
  intros Hgs Ha Hb. specialize (Hgs a b Ha Hb).
  unfold compareFn, Set_size in *.
  rewrite (String.eqb_sym (PackageGroup.severity b) (PackageGroup.severity a)).
  destruct (String.eqb_spec (PackageGroup.severity a) (PackageGroup.severity b))
    as [E|E]; simpl; [lia|].
  destruct (String.eqb_spec (PackageGroup.severity a) "Critical") as [C|C];
    [lia|].
  intros _. destruct (Hgs E) as [C'|C']; [contradiction|].
  apply String.eqb_eq in C'. rewrite C'. lia.
Qed.

Lemma compareFn_tied (g x y : PackageGroup.t) :
  tied_with g x = true -> tied_with g y = true -> (compareFn x y <= 0)%Z.
Proof.
  unfold tied_with. rewrite !andb_true_iff, !String.eqb_eq, !Nat.eqb_eq.
  intros [Sx Hx] [Sy Hy]. apply compareFn_le_iff. right. split; [congruence|lia].
Qed.

Lemma StronglySorted_weaken {A : Type} (R S : A -> A -> Prop) (l : list A) :
  (forall a b, R a b -> S a b) -> StronglySorted R l -> StronglySorted S l.
Proof.
  intros HRS H. induction H as [|x l H IH Hx]; constructor; [assumption|].
  eapply Forall_impl; [|exact Hx]. intro b. apply HRS.
Qed.

(** Between a High and a Medium group the comparator answers 1 both ways:
    it is consistent only while one severity besides Critical occurs. *)
Lemma compareFn_high_medium :
  compareFn (group_new "curl" Examples.openssl_high)
            (group_new "bash" Examples.openssl_medium) = 1%Z
  /\ compareFn (group_new "bash" Examples.openssl_medium)
               (group_new "curl" Examples.openssl_high) = 1%Z.
Proof. split; reflexivity. Qed.

(** The groups leave the map in the order in which their packages first
    occur among the findings. *)
Lemma packageGroups_order (l : list VulnDetailEntry.t) :
  map PackageGroup.package (Map_values (packageGroups l))
  = Set_of (map pkg_of l).
Proof.
  rewrite <- packageGroups_keys. unfold Map_values, Map_keys.
  rewrite map_map. apply map_ext_in. intros [k g] Hin. simpl.
  apply (Map_In_get k g _ (packageGroups_NoDup l)) in Hin.
  rewrite packageGroups_get in Hin.
  now apply group_of_fields in Hin as (Hp & _).
Qed.

Lemma sortedPackages_sorted (l : list VulnDetailEntry.t) :
  one_severity_below_critical (Map_values (packageGroups l)) ->
  StronglySorted critical_then_hosts (sortedPackages l).
Proof.
  intro H. unfold sortedPackages.
  apply (StronglySorted_weaken (fun a b => (compareFn a b <= 0)%Z)).
  - intros a b. apply compareFn_le_iff.
  - apply (sort_sorted compareFn
             (fun g => In g (Map_values (packageGroups l)))).
    + intros a b. now apply compareFn_total_on.
    + intros a b c _ _ _. apply compareFn_trans.
    + now apply Forall_forall.
Qed.

Lemma sortedPackages_stable (l : list VulnDetailEntry.t) (g : PackageGroup.t) :
  filter (tied_with g) (sortedPackages l)
  = filter (tied_with g) (Map_values (packageGroups l)).
Proof. apply sort_stable. intros x y. apply compareFn_tied. Qed.

(** Under the comparator's order the severities descend in the
    specification's ranking too. *)
Lemma critical_then_hosts_rank (a b : PackageGroup.t) :
  critical_then_hosts a b -> precedes_by_severity_and_hosts a b.
Proof.
  unfold critical_then_hosts, precedes_by_severity_and_hosts, severity_rank.
  intros [[Ha Hb]|[E H]].
  - left. rewrite Ha. apply String.eqb_neq in Hb. rewrite Hb. simpl.
    repeat match goal with |- context [if ?c then _ else _] => destruct c end;
      lia.
  - right. rewrite E. split; [reflexivity | assumption].
Qed.

(** C1 (as amended).  When of any two groups of different severities one
    is Critical, [sortedPackages] lists the Critical groups before the
    others and, within one severity, the groups by affected-host count
    descending, which is severity descending under Critical > High >
    Medium > Low > Info and then affected-host count descending; it is a
    rearrangement of the groups of the map, which stand in the order in
    which their packages first occur among the findings; and groups of
    equal severity and equal host count keep that order: the package name
    is not compared. *)
Theorem sortedPackages_order :
  forall filtered : list VulnDetailEntry.t,
    one_severity_below_critical (Map_values (packageGroups filtered)) ->
    StronglySorted critical_then_hosts (sortedPackages filtered)
    /\ StronglySorted precedes_by_severity_and_hosts (sortedPackages filtered)
    /\ Permutation (Map_values (packageGroups filtered)) (sortedPackages filtered)
    /\ map PackageGroup.package (Map_values (packageGroups filtered))
       = Set_of (map pkg_of filtered)
    /\ forall g,
         filter (tied_with g) (sortedPackages filtered)
         = filter (tied_with g) (Map_values (packageGroups filtered)).
Proof.
  intros filtered H. split; [now apply sortedPackages_sorted|].
  split.
  { apply (StronglySorted_weaken critical_then_hosts);
      [apply critical_then_hosts_rank | now apply sortedPackages_sorted]. }
  split; [apply sort_perm|].
  split; [apply packageGroups_order|].
  apply sortedPackages_stable.
Qed.

Lemma mixed_consistent :
  one_severity_below_critical (Map_values (packageGroups Examples.mixed)).
Proof.
  intros a b Ha Hb.
  vm_compute in Ha, Hb.
  repeat (destruct Ha as [<-|Ha]; [|try contradiction]);
    repeat (destruct Hb as [<-|Hb]; [|try contradiction]);
    intro Hne; try (left; reflexivity); try (right; reflexivity);
    exfalso; apply Hne; reflexivity.
Defined.

Lemma sortedPackages_order_witness :
  one_severity_below_critical (Map_values (packageGroups Examples.mixed))
  /\ StronglySorted critical_then_hosts (sortedPackages Examples.mixed)
  /\ map PackageGroup.package (sortedPackages Examples.mixed)
     = ["openssl"; "zlib"; "curl"; "bash"].
Proof.
  split; [exact mixed_consistent|].
  split; [|reflexivity].
  exact (proj1 (sortedPackages_order Examples.mixed mixed_consistent)).
Defined.

(** C1 (as stated) fails: two Critical packages with one host each come
    out in the order in which they were met, [zlib] before [openssl], and
    not by package name. *)
Lemma sortedPackages_not_by_name :
  map PackageGroup.package
    (sortedPackages [Examples.zlib_web1; Examples.openssl_web2])
  = ["zlib"; "openssl"]
  /\ ~ sorted_as_specified
        (sortedPackages [Examples.zlib_web1; Examples.openssl_web2]).
Proof.
  split; [reflexivity|].
  intro H. vm_compute in H.
  inversion H as [|? ? _ Hf]; subst.
  inversion Hf as [|? ? Hp _]; subst.
  destruct Hp as [Hlt|[_ [Hlt|[_ Hleb]]]]; try lia; discriminate.
Qed.

(** *** The severity of a group *)

(** What the loop leaves in the severity field: Critical when a member
    after the first is Critical, else the severity of the first member. *)
Lemma group_severity (l : list VulnDetailEntry.t) (g : PackageGroup.t) :
  In g (sortedPackages l) ->
  exists first rest,
    members (PackageGroup.package g) l = first :: rest
    /\ PackageGroup.severity g
       = if existsb is_critical rest then "Critical"
         else VulnDetailEntry.severity first.
Proof.
  intro H. apply sortedPackages_group in H.
  destruct (members (PackageGroup.package g) l) as [|first rest] eqn:E;
    [discriminate|].
  exists first, rest. split; [reflexivity|].
  now apply group_of_fields in H as (_ & _ & _ & _ & _ & _ & _ & Hs).
Qed.

(** A group is Critical exactly when one of its members is. *)
Lemma group_critical_iff (l : list VulnDetailEntry.t) (g : PackageGroup.t) :
  In g (sortedPackages l) ->
  (PackageGroup.severity g = "Critical"
   <-> exists item, In item (members (PackageGroup.package g) l)
                    /\ VulnDetailEntry.severity item = "Critical").
Proof.
  intro H. destruct (group_severity l g H) as (first & rest & -> & ->).
  destruct (existsb is_critical rest) eqn:E.
  - split; [intros _|reflexivity].
    apply existsb_exists in E as (item & Hin & Hc).
    exists item. split; [now right | now apply String.eqb_eq].
  - split.
    + intro Hf. exists first. split; [now left | assumption].
    + intros (item & [<-|Hin] & Hc); [assumption|].
      assert (existsb is_critical rest = true); [|congruence].
      apply existsb_exists. exists item. split; [assumption|].
      now apply String.eqb_eq.
Qed.

(** C2, on a package with a Medium finding met before a High one: the
    group is reported Medium although High is the worst severity among its
    members, and with the two findings in the other order it is reported
    High. *)
Theorem group_severity_follows_first_member :
  map PackageGroup.severity
    (sortedPackages [Examples.openssl_medium; Examples.openssl_high])
  = ["Medium"]
  /\ worst_severity "High"
       (members "openssl" [Examples.openssl_medium; Examples.openssl_high])
  /\ map PackageGroup.severity
       (sortedPackages [Examples.openssl_high; Examples.openssl_medium])
     = ["High"].
Proof.
  split; [reflexivity|]. split; [|reflexivity].
  split.
  - exists Examples.openssl_high. split; [right; left|]; reflexivity.
  - intros item [<-|[<-|[]]]; vm_compute; lia.
Qed.

(** *** Determinism *)

(** The comparator is consistent on the groups exactly when they carry at
    most one severity besides Critical. *)
Lemma compareFn_consistent (gs : list PackageGroup.t) :
  consistent compareFn gs <-> one_severity_below_critical gs.
Proof.
  split.
  - intros (Hrefl & _ & _ & _ & Hgt) a b Ha Hb Hne.
    destruct (String.eqb_spec (PackageGroup.severity a) "Critical") as [Ca|Ca];
      [now left|].
    destruct (String.eqb_spec (PackageGroup.severity b) "Critical") as [Cb|Cb];
      [now right|].
    exfalso.
    assert (Hab : compareFn a b = 1%Z).
    { unfold compareFn. apply String.eqb_neq in Hne, Ca. now rewrite Hne, Ca. }
    assert (Hba : compareFn b a = 1%Z).
    { unfold compareFn. apply not_eq_sym, String.eqb_neq in Hne.
      apply String.eqb_neq in Cb. now rewrite Hne, Cb. }
    pose proof (Hgt a b a Ha Hb Ha) as H. rewrite Hab, Hba, (Hrefl a Ha) in H.
    lia.
  - intro Hgs.
    assert (Hlt : forall a b, In a gs -> In b gs ->
              ((compareFn a b < 0)%Z
               <-> (PackageGroup.severity a = "Critical"
                    /\ PackageGroup.severity b <> "Critical")
                   \/ (PackageGroup.severity a = PackageGroup.severity b
                       /\ (Set_size (PackageGroup.hosts b)
                           < Set_size (PackageGroup.hosts a))%nat))).
    { intros a b Ha Hb. unfold compareFn.
      destruct (String.eqb_spec (PackageGroup.severity a) (PackageGroup.severity b))
        as [E|E]; simpl.
      - split; [intro H; right; split; [exact E | lia]|].
        intros [[H1 H2]|[_ H]]; [congruence | lia].
      - destruct (String.eqb_spec (PackageGroup.severity a) "Critical") as [C|C].
        + split; [|lia]. intros _. left. split; congruence.
        + split; [lia|]. intros [[H _]|[H _]]; contradiction. }
    assert (Heq : forall a b, In a gs -> In b gs ->
              (compareFn a b = 0%Z
               <-> PackageGroup.severity a = PackageGroup.severity b
                   /\ Set_size (PackageGroup.hosts a)
                      = Set_size (PackageGroup.hosts b))).
    { intros a b Ha Hb. unfold compareFn.
      destruct (String.eqb_spec (PackageGroup.severity a) (PackageGroup.severity b))
        as [E|E]; simpl.
      - split; [intro H; split; [exact E | lia] | intros [_ H]; lia].
      - destruct (PackageGroup.severity a =? "Critical");
          (split; [lia | intros [H _]; contradiction]). }
    assert (Hgt : forall a b, In a gs -> In b gs ->
              ((0 < compareFn a b)%Z <-> (compareFn b a < 0)%Z)).
    { intros a b Ha Hb. rewrite (Hlt b a Hb Ha). unfold compareFn.
      destruct (String.eqb_spec (PackageGroup.severity a) (PackageGroup.severity b))
        as [E|E]; simpl.
      - split; [intro H; right; split; [congruence | lia]|].
        intros [[H1 H2]|[_ H]]; [congruence | lia].
      - destruct (String.eqb_spec (PackageGroup.severity a) "Critical") as [C|C].
        + split; [lia|]. intros [[H1 H2]|[H _]]; congruence.
        + split; [|lia]. intros _. left.
          destruct (Hgs a b Ha Hb E) as [H|H]; [contradiction|].
          split; [exact H | congruence]. }
    split; [|split; [|split; [|split]]].
    + intros a Ha. now apply Heq.
    + intros a b Ha Hb. rewrite !Heq by assumption. intros [H1 H2]. now split.
    + intros a b c Ha Hb Hc. rewrite !Heq by assumption.
      intros [H1 H2] [H3 H4]. split; congruence.
    + intros a b c Ha Hb Hc. rewrite !Hlt by assumption.
      intros [[H1 H2]|[H1 H2]] [[H3 H4]|[H3 H4]].
      * contradiction.
      * left. split; congruence.
      * left. split; congruence.
      * right. split; [congruence | lia].
    + intros a b c Ha Hb Hc. rewrite !Hgt, !Hlt by assumption.
      intros [[H1 H2]|[H1 H2]] [[H3 H4]|[H3 H4]].
      * contradiction.
      * left. split; congruence.
      * left. split; congruence.
      * right. split; [congruence | lia].
Qed.

Lemma loop_step_functional (s s1 s2 : LoopState) :
  loop_step s s1 -> loop_step s s2 -> s1 = s2.
Proof.
  intros H1 H2. destruct H1; inversion H2; subst; congruence.
Qed.

Lemma loop_run_functional (s : LoopState) (m1 : StringMap PackageGroup.t) :
  loop_run s m1 -> forall m2, loop_run s m2 -> m1 = m2.
Proof.
  induction 1 as [m|s s' m Hstep Hrun IH]; intros m2 H2.
  - inversion H2 as [|? ? ? Hs]; subst; [reflexivity | inversion Hs].
  - inversion H2 as [|? s'' ? Hs Hr]; subst; [inversion Hstep|].
    apply IH. now rewrite (loop_step_functional _ _ _ Hstep Hs).
Qed.

Lemma loop_run_fold (l : list VulnDetailEntry.t) :
  forall m, loop_run (l, m) (fold_left group_item l m).
Proof.
  induction l as [|item rest IH]; intro m; [constructor|].
  simpl. unfold group_item at 2.
  destruct (Map_get (pkg_of item) m) as [existing|] eqn:E;
    (eapply run_step; [|apply IH]); now constructor.
Qed.

(** The run of the insertion sort ends with [sortedPackages]. *)
Lemma sortedPackages_runs (l : list VulnDetailEntry.t) :
  sortedPackages_run insertion_sort l (sortedPackages l).
Proof.
  exists (packageGroups l). split; [apply loop_run_fold | reflexivity].
Qed.

(** Where the groups carry two severities besides Critical the order of
    the array depends on the engine: on a Medium and a High package two
    engines that meet ECMAScript end with the same groups in different
    orders. *)
Lemma sortedPackages_order_of_the_engine :
  conforming insertion_sort /\ conforming checking_sort
  /\ ~ one_severity_below_critical (sortedPackages MoreExamples.medium_and_high)
  /\ exists r1 r2,
       sortedPackages_run insertion_sort MoreExamples.medium_and_high r1
       /\ sortedPackages_run checking_sort MoreExamples.medium_and_high r2
       /\ map PackageGroup.package r1 = ["curl"; "bash"]
       /\ map PackageGroup.package r2 = ["bash"; "curl"].
Proof.
  split; [exact insertion_sort_conforming|].
  split; [exact checking_sort_conforming|]. split.
  - intro H.
    set (d := group_new "" Examples.zlib_web1).
    assert (E : PackageGroup.severity
                  (nth 0 (sortedPackages MoreExamples.medium_and_high) d)
                = "Critical"
                \/ PackageGroup.severity
                     (nth 1 (sortedPackages MoreExamples.medium_and_high) d)
                   = "Critical").
    { apply H; [now left | right; now left|].
      intro X. vm_compute in X. discriminate X. }
    destruct E as [E|E]; vm_compute in E; discriminate E.
  - exists (sortedPackages MoreExamples.medium_and_high),
           (checking_sort PackageGroup.t compareFn
              (Map_values (packageGroups MoreExamples.medium_and_high))).
    split; [apply sortedPackages_runs|]. split; [|split; reflexivity].
    exists (packageGroups MoreExamples.medium_and_high).
    split; [apply loop_run_fold | reflexivity].
Qed.

(** C5.  On every engine and every list of findings, a run of the
    grouping computation ends, and any two runs on the same list end with
    the same array: the same groups with the same fields in the same
    order.  The array is determined by the list as follows.  It has one
    group for each package of the findings and no other; the count of a
    group is the number of the findings of its package, and its CVEs,
    instances, hosts, fix versions and versions are the sets of the values
    of these findings in the order in which the list has them, its
    severity Critical when a finding after the first is Critical and
    otherwise that of the first; and when the groups carry at most one
    severity besides Critical, which is when the comparator is consistent,
    the order is the one of [sortedPackages] on every engine: Critical
    groups first, then by affected hosts descending, ties in the order of
    first occurrence.  Otherwise the order is the one the engine's sort
    gives to an inconsistent comparator, the same in every run. *)
Theorem sortedPackages_deterministic :
  forall engine : Sort,
    conforming engine ->
    forall filtered : list VulnDetailEntry.t,
      exists result,
        sortedPackages_run engine filtered result
        /\ (forall r1 r2,
              sortedPackages_run engine filtered r1 ->
              sortedPackages_run engine filtered r2 -> r1 = r2)
        /\ NoDup (map PackageGroup.package result)
        /\ (forall p, In p (map PackageGroup.package result)
                      <-> In p (map pkg_of filtered))
        /\ (forall g,
              In g result ->
              let ms := members (PackageGroup.package g) filtered in
              PackageGroup.count g = List.length ms
              /\ PackageGroup.cves g = Set_of (map VulnDetailEntry.vuln_id ms)
              /\ PackageGroup.instances g
                 = Set_of (map VulnDetailEntry.instance_name ms)
              /\ PackageGroup.hosts g
                 = Set_of (non_empty VulnDetailEntry.hostname ms)
              /\ PackageGroup.fix_versions g
                 = Set_of (non_empty VulnDetailEntry.fix_version ms)
              /\ PackageGroup.versions g
                 = Set_of (non_empty VulnDetailEntry.version ms)
              /\ exists first rest,
                   ms = first :: rest
                   /\ PackageGroup.severity g
                      = if existsb is_critical rest then "Critical"
                        else VulnDetailEntry.severity first)
        /\ (one_severity_below_critical result ->
            consistent compareFn result
            /\ result = sortedPackages filtered
            /\ StronglySorted critical_then_hosts result
            /\ forall g,
                 filter (tied_with g) result
                 = filter (tied_with g) (Map_values (packageGroups filtered))).
Proof.
  intros engine Hengine l.
  destruct (Hengine _ compareFn (Map_values (packageGroups l))) as [Hperm _].
  pose proof (conforming_sort engine compareFn (Map_values (packageGroups l))
                Hengine) as Hsort.
  set (result := engine PackageGroup.t compareFn (Map_values (packageGroups l)))
    in *.
  assert (Hin : forall g, In g result <-> In g (Map_values (packageGroups l))).
  { intro g. split; apply Permutation_in;
      [apply Permutation_sym|]; exact Hperm. }
  exists result. split; [|split; [|split; [|split; [|split]]]].
  - exists (packageGroups l). split; [apply loop_run_fold | reflexivity].
  - intros r1 r2 (m1 & H1 & ->) (m2 & H2 & ->).
    now rewrite (loop_run_functional _ _ H1 _ H2).
  - apply (Permutation_NoDup
             (Permutation_map PackageGroup.package Hperm)).
    rewrite packageGroups_order. apply Set_of_NoDup.
  - intro p0.
    rewrite <- (Set_of_In (map pkg_of l)), <- packageGroups_order.
    split; apply Permutation_in;
      [apply Permutation_sym|]; apply Permutation_map; exact Hperm.
  - intros g Hg ms. apply Hin, packageGroups_In in Hg as (k & Hk).
    pose proof (group_of_fields _ _ _ Hk) as (Hp & Hc & Hv & Hi & Hh & Hf & Hvs & Hs).
    subst k. fold ms in Hk, Hc, Hv, Hi, Hh, Hf, Hvs, Hs.
    repeat (split; [assumption|]).
    destruct ms as [|first rest]; [discriminate|].
    now exists first, rest.
  - intro Hone.
    assert (Hone' : one_severity_below_critical (Map_values (packageGroups l))).
    { intros a b Ha Hb. apply Hone; now apply Hin. }
    assert (E : result = sortedPackages l).
    { apply Hsort. now apply compareFn_consistent. }
    split; [now apply compareFn_consistent|]. split; [exact E|].
    rewrite E. split; [now apply sortedPackages_sorted|].
    apply sortedPackages_stable.
Qed.

Lemma sortedPackages_deterministic_witness :
  conforming insertion_sort
  /\ exists result,
       sortedPackages_run insertion_sort Examples.mixed result
       /\ map PackageGroup.package result = ["openssl"; "zlib"; "curl"; "bash"].
Proof.
  split; [exact insertion_sort_conforming|].
  destruct (sortedPackages_deterministic insertion_sort
              insertion_sort_conforming Examples.mixed)
    as (result & Hrun & Hsame & _).
  exists result. split; [exact Hrun|].
  now rewrite (Hsame result (sortedPackages Examples.mixed) Hrun
                 (sortedPackages_runs Examples.mixed)).
Defined.

(** *** Internet exposure *)

Lemma truthy_present (v : option string) :
  truthy v = true <-> present_non_empty v.
Proof.
  unfold present_non_empty. destruct v as [s|]; simpl.
  - rewrite negb_true_iff, String.eqb_neq. split.
    + intro H. now exists s.
    + now intros (s' & [= <-] & H).
  - split; [discriminate | now intros (s & H & _)].
Qed.

Lemma filtered_view (b : bool) (items : list VulnDetailEntry.t) :
  filtered (view b items)
  = filter (fun i => negb b || truthy (VulnDetailEntry.external_ip i)) items.
Proof.
  unfold filtered, view. simpl. apply filter_ext. intro i.
  unfold matchesSearch, matchesInstance, matchesSeverity, matchesExposed,
    matchesFixable. simpl.
  now rewrite andb_true_r.
Qed.

Lemma filter_filter_length {A : Type} (p q : A -> bool) (l : list A) :
  List.length (filter (fun x => p x && q x) l)
  = List.length (filter p (filter q l)).
Proof.
  induction l as [|x l IH]; [reflexivity|]. simpl.
  destruct (q x); simpl; rewrite ?andb_false_r, ?andb_true_r;
    [destruct (p x); simpl; now rewrite IH | exact IH].
Qed.

(** C3.  A finding is classified internet exposed exactly when its
    external IP is present and non-empty: that is the test of the
    "Internet Exposed" filter and the test behind the header count
    [exposedCritical], which counts the Critical findings that pass the
    filter; with the other filters released the filtered list holds the
    findings with a present, non-empty external IP and no others, and two
    findings with the same external IP are classified alike whatever their
    other attributes. *)
Theorem internet_exposed_iff :
  forall (st : PageState) (item : VulnDetailEntry.t),
    (truthy (VulnDetailEntry.external_ip item) = true
     <-> present_non_empty (VulnDetailEntry.external_ip item))
    /\ matchesExposed st item
       = (negb (internetExposed st) || truthy (VulnDetailEntry.external_ip item))
    /\ (forall items,
          In item (filtered (view true items))
          <-> In item items
              /\ present_non_empty (VulnDetailEntry.external_ip item))
    /\ (forall d,
          exposedCritical d
          = List.length
              (filter is_critical (filtered (view true (VulnPageData.items d)))))
    /\ (forall item',
          VulnDetailEntry.external_ip item' = VulnDetailEntry.external_ip item ->
          matchesExposed st item' = matchesExposed st item).
Proof.
  intros st item. split; [apply truthy_present|].
  split; [reflexivity|]. split; [|split].
  - intro items. rewrite filtered_view, filter_In. simpl.
    now rewrite truthy_present.
  - intro d. unfold exposedCritical. rewrite filtered_view. simpl.
    apply (filter_filter_length is_critical).
  - intros item' E. unfold matchesExposed. now rewrite E.
Qed.

(** *** The sets of a group *)

Lemma if_truthy_In (v : option string) (x : string) :
  In x (if_truthy v) <-> v = Some x /\ x <> "".
Proof.
  destruct v as [s|]; simpl.
  - destruct (String.eqb_spec s "") as [E|E]; simpl.
    + split; [contradiction|]. intros [[= ->] H]. contradiction.
    + split.
      * intros [->|[]]. now split.
      * intros [[= ->] _]. now left.
  - split; [contradiction | now intros [H _]].
Qed.

Lemma non_empty_In (attr : VulnDetailEntry.t -> option string)
  (ms : list VulnDetailEntry.t) (x : string) :
  In x (Set_of (non_empty attr ms))
  <-> exists m, In m ms /\ attr m = Some x /\ x <> "".
Proof.
  rewrite Set_of_In. unfold non_empty. rewrite in_flat_map.
  split; intros (m & Hm & H); exists m; (split; [assumption|]);
    now apply if_truthy_In.
Qed.

Lemma group_exists (l : list VulnDetailEntry.t) (item : VulnDetailEntry.t) :
  In item l ->
  exists g, In g (sortedPackages l) /\ PackageGroup.package g = pkg_of item.
Proof.
  intro Hin.
  assert (Hm : In item (members (pkg_of item) l)).
  { unfold members. apply filter_In. split; [assumption|]. apply String.eqb_refl. }
  destruct (group_of (pkg_of item) (members (pkg_of item) l)) as [g|] eqn:E.
  - exists g. split.
    + apply sortedPackages_In. now exists (pkg_of item).
    + now apply group_of_fields in E as (Hp & _).
  - destruct (members (pkg_of item) l); [contradiction | discriminate].
Qed.

Lemma group_sets (l : list VulnDetailEntry.t) (g : PackageGroup.t) :
  In g (sortedPackages l) ->
  PackageGroup.cves g
  = Set_of (map VulnDetailEntry.vuln_id (members (PackageGroup.package g) l))
  /\ PackageGroup.hosts g
     = Set_of (non_empty VulnDetailEntry.hostname
                 (members (PackageGroup.package g) l))
  /\ PackageGroup.fix_versions g
     = Set_of (non_empty VulnDetailEntry.fix_version
                 (members (PackageGroup.package g) l)).
Proof.
  intro H. apply sortedPackages_group in H.
  apply group_of_fields in H as (_ & _ & Hc & _ & Hh & Hf & _).
  now repeat split.
Qed.









End VulnerabilitiesFacts.

(* ------------------------------------------------------------------ *)
(** ** Identity staleness *)

Module IdentitiesFacts.
Import Js IdentitiesPage Notions Spec.








End IdentitiesFacts.

(* ------------------------------------------------------------------ *)
(** ** Unused-entitlement percentage *)

Module IdentityRiskFacts.
Import IdentityRisk Spec.






End IdentityRiskFacts.

(* ------------------------------------------------------------------ *)
(** ** Reading the export back *)

Module CsvReaderFacts.
Import Js CsvDownload Spec CsvReader CsvDownloadFacts.

#[local] Arguments Ascii.eqb : simpl never.

Lemma run_app (s1 s2 : string) :
  forall r, run r (s1 ++ s2) = run (run r s1) s2.
Proof.
  induction s1 as [|c s1 IH]; intro r; simpl; [reflexivity | apply IH].
Qed.

Lemma step_comma (r : Reader) :
  mode r <> InQuoted -> step r comma = end_field r.
Proof. intro H. unfold step. destruct (mode r); try reflexivity. contradiction. Qed.

Lemma step_newline (r : Reader) :
  mode r <> InQuoted -> step r newline = end_record r.
Proof. intro H. unfold step. destruct (mode r); try reflexivity. contradiction. Qed.

Lemma has_char_cons (c a : ascii) (s : string) :
  has_char c (String a s) = Ascii.eqb c a || has_char c s.
Proof. reflexivity. Qed.

Lemma separator_none (c : ascii) (r : Reader) :
  Ascii.eqb comma c = false -> Ascii.eqb newline c = false ->
  separator c r = None.
Proof.
  intros H1 H2. unfold separator.
  now rewrite (Ascii.eqb_sym c comma), H1, (Ascii.eqb_sym c newline), H2.
Qed.

(** A text without comma, quote or line feed is read as it stands. *)
Lemma run_plain (s : string) :
  forall r,
    mode r = AtStart \/ mode r = InPlain ->
    has_char comma s = false -> has_char dquote s = false ->
    has_char newline s = false ->
    let r' := run r s in
    (mode r' = AtStart \/ mode r' = InPlain)
    /\ field r' = field r ++ s /\ fields r' = fields r
    /\ records r' = records r.
Proof.
  induction s as [|c s IH]; intros r Hm Hc Hq Hn; simpl.
  - now rewrite append_empty_r.
  - rewrite has_char_cons in Hc, Hq, Hn.
    apply orb_false_iff in Hc as [Hc Hc'], Hq as [Hq Hq'], Hn as [Hn Hn'].
    assert (Hstep : step r c = add_char InPlain c r).
    { unfold step. rewrite (separator_none c r Hc Hn).
      rewrite (Ascii.eqb_sym c dquote), Hq. now destruct Hm as [-> | ->]. }
    rewrite Hstep.
    destruct (IH (add_char InPlain c r)) as (M & F & Fs & Rs); auto.
    split; [exact M|]. split; [|split; assumption].
    rewrite F. simpl. now rewrite append_assoc.
Qed.

Lemma step_closing_quote (r : Reader) :
  mode r = InQuoted -> step r dquote = close_quotes r.
Proof. intro Hm. unfold step. now rewrite Hm, Ascii.eqb_refl. Qed.

Lemma step_doubled_quote (r : Reader) :
  mode r = AfterQuote -> step r dquote = add_char InQuoted dquote r.
Proof. intro Hm. unfold step. now rewrite Hm, Ascii.eqb_refl. Qed.

Lemma step_in_quotes (r : Reader) (c : ascii) :
  mode r = InQuoted -> Ascii.eqb c dquote = false ->
  step r c = add_char InQuoted c r.
Proof. intros Hm E. unfold step. now rewrite Hm, E. Qed.

(** Inside quotes, the doubled text up to the closing quote is read back
    as the text. *)
Lemma run_quoted (s : string) :
  forall r,
    mode r = InQuoted ->
    let r' := run r (replace_g dquote (String dquote (str1 dquote)) s
                     ++ str1 dquote) in
    mode r' = AfterQuote /\ field r' = field r ++ s
    /\ fields r' = fields r /\ records r' = records r.
Proof.
  induction s as [|c s IH]; intros r Hm; simpl.
  - rewrite (step_closing_quote r Hm). simpl.
    now rewrite append_empty_r.
  - destruct (Ascii.eqb c dquote) eqn:E.
    + apply Ascii.eqb_eq in E. subst c. simpl.
      assert (Hstep : step (step r dquote) dquote = add_char InQuoted dquote r).
      { rewrite (step_closing_quote r Hm). now rewrite step_doubled_quote. }
      rewrite Hstep.
      destruct (IH (add_char InQuoted dquote r) eq_refl) as (M & F & Fs & Rs).
      split; [exact M|]. split; [|split; assumption].
      rewrite F. simpl. now rewrite append_assoc.
    + simpl.
      rewrite (step_in_quotes r c Hm E).
      destruct (IH (add_char InQuoted c r) eq_refl) as (M & F & Fs & Rs).
      split; [exact M|]. split; [|split; assumption].
      rewrite F. simpl. now rewrite append_assoc.
Qed.

(** An escaped text at the start of a field is read back as the text. *)
Lemma run_escaped (text : string) (r : Reader) :
  mode r = AtStart -> field r = "" ->
  field_read (run r (escaped_text text)) text (fields r) (records r).
Proof.
  intros Hm Hf. unfold field_read, escaped_text.
  destruct (has_char comma text || has_char dquote text
            || has_char newline text) eqn:E.
  - rewrite <- replace_g_double_quotes.
    change (run r (String dquote ?x)) with (run (step r dquote) x).
    assert (Hstep : step r dquote = open_quotes r).
    { unfold step. now rewrite Hm, Ascii.eqb_refl. }
    rewrite Hstep.
    destruct (run_quoted text (open_quotes r) eq_refl) as (M & F & Fs & Rs).
    split; [rewrite M; discriminate|].
    split; [rewrite F; simpl; now rewrite Hf|]. now split.
  - apply orb_false_iff in E as [E En]. apply orb_false_iff in E as [Ec Eq].
    destruct (run_plain text r (or_introl Hm) Ec Eq En) as (M & F & Fs & Rs).
    split; [destruct M as [-> | ->]; discriminate|].
    split; [rewrite F, Hf; reflexivity|]. now split.
Qed.

(** A record of escaped texts is read back as the texts. *)
Lemma run_record (texts : list string) :
  forall (v : string) (r : Reader),
    mode r = AtStart -> field r = "" ->
    exists f fs,
      field_read (run r (join "," (map escaped_text (v :: texts))))
        f fs (records r)
      /\ (fs ++ [f] = fields r ++ v :: texts)%list.
Proof.
  induction texts as [|w texts IH]; intros v r Hm Hf.
  - exists v, (fields r). split; [|reflexivity].
    now apply run_escaped.
  - change (join "," (map escaped_text (v :: w :: texts)))
      with (escaped_text v ++ String comma
              (join "," (map escaped_text (w :: texts)))).
    rewrite run_app.
    change (run ?x (String comma ?s)) with (run (step x comma) s).
    destruct (run_escaped v r Hm Hf) as (M & F & Fs & Rs).
    rewrite (step_comma _ M).
    destruct (IH w (end_field (run r (escaped_text v))) eq_refl eq_refl)
      as (f & fs & (M' & F' & Fs' & Rs') & E).
    exists f, fs. split.
    + repeat split; try assumption. rewrite Rs'. exact Rs.
    + rewrite E. cbn [fields end_field]. rewrite Fs, F.
      rewrite <- app_assoc. reflexivity.
Qed.

(** Records of escaped texts, one after the other. *)
Lemma run_records (rows : list (list string)) :
  forall (row : list string) (r : Reader),
    row <> [] -> Forall (fun x => x <> []) rows ->
    mode r = AtStart -> field r = "" -> fields r = [] ->
    let r' := run r (join (str1 newline)
                       (map (fun x => join "," (map escaped_text x))
                            (row :: rows))) in
    (records r' ++ [(fields r' ++ [field r'])%list])%list
    = (records r ++ row :: rows)%list.
Proof.
  induction rows as [|row' rows IH]; intros row r Hrow Hrows Hm Hf Hfs.
  - destruct row as [|v texts]; [contradiction|].
    cbv zeta.
    change (join (str1 newline)
              (map (fun x => join "," (map escaped_text x)) [v :: texts]))
      with (join "," (map escaped_text (v :: texts))).
    destruct (run_record texts v r Hm Hf)
      as (f & fs & (M & F & Fs & Rs) & E).
    rewrite Rs, Fs, F, E, Hfs. reflexivity.
  - destruct row as [|v texts]; [contradiction|].
    inversion Hrows as [|? ? Hrow' Hrows']; subst.
    cbv zeta.
    change (join (str1 newline)
              (map (fun x => join "," (map escaped_text x))
                   ((v :: texts) :: row' :: rows)))
      with (join "," (map escaped_text (v :: texts))
            ++ String newline
                 (join (str1 newline)
                    (map (fun x => join "," (map escaped_text x))
                         (row' :: rows)))).
    rewrite run_app.
    change (run ?x (String newline ?s)) with (run (step x newline) s).
    destruct (run_record texts v r Hm Hf)
      as (f & fs & (M & F & Fs & Rs) & E).
    rewrite (step_newline _ M).
    rewrite (IH row' (end_record _) Hrow' Hrows' eq_refl eq_refl eq_refl).
    cbn [records end_record]. rewrite Rs, Fs, F, E, Hfs.
    rewrite <- app_assoc. reflexivity.
Qed.

(** The field of a cell is written from the text of the cell. *)
Lemma escapeCsvField_cell (cell : Completion unknown) (field : string) :
  bind cell escapeCsvField = Normal field ->
  field = escaped_text (cell_text cell).
Proof.
  destruct cell as [value|e]; cbn [bind]; [|discriminate].
  rewrite escapeCsvField_eq. unfold cell_text.
  destruct (loosely_equals_null value); [now intros [= <-]|].
  destruct (String_ value) as [str|e]; simpl; [now intros [= <-] | discriminate].
Qed.

Lemma Forall2_map_eq {A B : Type} (f : A -> B) (l : list A) (ys : list B) :
  Forall2 (fun x y => y = f x) l ys -> ys = map f l.
Proof.
  induction 1 as [|x y l ys -> _ IH]; [reflexivity | simpl; now rewrite IH].
Qed.

(** On an array without holes a relation holds element by element. *)
Lemma Forall2_Array_of {A B : Type} (R : option A -> B -> Prop) (l : list A) :
  forall ys, Forall2 R (Array_of l) ys -> Forall2 (fun x y => R (Some x) y) l ys.
Proof.
  induction l as [|x l IH]; intros ys H; inversion H; subst; constructor;
    [assumption | now apply IH].
Qed.

(** The record of a row for columns without holes, from the texts of its
    cells. *)
Lemma record_cells (cols : list Column) (row : Row) (line : string) :
  record_of (Array_of cols) (Some row) line ->
  line = join "," (map escaped_text
                     (map (fun c => cell_text (prop row (key c))) cols)).
Proof.
  intros (fields & F & ->). rewrite join_comma_record. f_equal.
  rewrite map_map. apply Forall2_map_eq.
  apply Forall2_Array_of in F. eapply Forall2_impl; [|exact F].
  intros c field H. apply (escapeCsvField_cell (prop row (key c))).
  now apply cell_field.
Qed.

(** The text of a download for a data array and columns without holes,
    from the texts of the cells. *)
Lemma csv_text_cells (data : list Row) (columns : option (Array_ Column))
  (cols : list Column) (text : string) :
  csv_columns (Array_of data) columns = Normal (Array_of cols) ->
  csv_text (Array_of data) columns = Normal text ->
  text
  = join (str1 newline)
      (map (fun x => join "," (map escaped_text x))
         (map label cols
          :: map (fun row => map (fun c => cell_text (prop row (key c))) cols)
               data)).
Proof.
  intros C H. apply csv_text_iff in H as (cols' & H' & lines & F & ->).
  apply csv_columns_iff in H'.
  assert (cols' = Array_of cols) by congruence. subst cols'.
  cbn [map]. rewrite join_lines. f_equal.
  - rewrite join_comma_record. f_equal. unfold Array_of.
    now rewrite !map_map.
  - do 2 f_equal. rewrite map_map. apply Forall2_map_eq.
    apply Forall2_Array_of in F. eapply Forall2_impl; [|exact F].
    intros row line. apply record_cells.
Qed.

(** X1.  The export reads back: for a data array and columns without
    holes, and at least one column, a reader of CSV text gets from the
    text of a download of [downloadCsv] the labels of the columns as
    first record and then, row by row in input order, the texts of the
    cells of the columns: the string form of each value, and the empty
    text for a value that is [null], [undefined] or missing from the row.
    Commas, quotes and line feeds inside a value do not break the
    records. *)
Theorem downloadCsv_reads_back :
  forall (data : list Row) (filename : string)
         (columns : option (Array_ Column)) (cols : list Column)
         (d : Download),
    csv_columns (Array_of data) columns = Normal (Array_of cols) ->
    cols <> [] ->
    downloadCsv (Array_of data) filename columns = Normal (Some d) ->
    readCsv (blob_text d)
    = map label cols
      :: map (fun row => map (fun c => cell_text (prop row (key c))) cols)
             data.
Proof.
  intros data filename columns cols d C Hcols Hd.
  assert (Ht : csv_text (Array_of data) columns = Normal (blob_text d)).
  { unfold downloadCsv in Hd. destruct (Array_of data); [discriminate|].
    destruct (csv_text _ columns) as [csv|e]; cbn [bind] in Hd;
      [|discriminate].
    injection Hd as <-. reflexivity. }
  apply (csv_text_cells _ _ cols) in Ht; [|exact C]. rewrite Ht.
  unfold readCsv. cbv zeta.
  rewrite run_records; try reflexivity.
  - intro E. apply map_eq_nil in E. contradiction.
  - apply Forall_forall. intros x Hx. apply in_map_iff in Hx as (row & <- & _).
    intro E. apply map_eq_nil in E. contradiction.
Qed.

Lemma downloadCsv_reads_back_witness :
  readCsv (blob_text MoreExamples.export_download)
  = [ ["name"; "note"; "n"];
      ["a,b"; String dquote "hi"; "3"];
      [""; ""; "true"] ].
Proof.
  refine (downloadCsv_reads_back MoreExamples.export_row_list "export" None
            [ {| key := "name"; label := "name" |};
              {| key := "note"; label := "note" |};
              {| key := "n"; label := "n" |} ]
            MoreExamples.export_download _ _ _);
    [reflexivity | discriminate | reflexivity].
Defined.

Lemma Array_map_ext_in {A B : Type} (f g : A -> Completion B) (l : Array_ A) :
  (forall x, In (Some x) l -> f x = g x) -> Array_map f l = Array_map g l.
Proof.
  induction l as [|[x|] l IH]; intro H; [reflexivity| |];
    cbn [Array_map]; [rewrite (H x) by now left|];
    (rewrite IH; [reflexivity|]; intros y Hy; apply H; now right).
Qed.

Lemma Array_map_agree {A B : Type} (f : A -> Completion B)
  (R : option A -> option A -> Prop) (l l' : Array_ A) :
  Forall2 R l l' ->
  (forall x y, R x y ->
     match x, y with
     | Some x, Some y => f x = f y
     | None, None => True
     | _, _ => False
     end) ->
  Array_map f l = Array_map f l'.
Proof.
  intros H Hf. induction H as [|x y l l' Hxy H IH]; [reflexivity|].
  apply Hf in Hxy. destruct x as [x|], y as [y|]; try contradiction;
    cbn [Array_map]; now rewrite ?Hxy, IH.
Qed.

(** X2.  Without an explicit column list only the keys of the first row
    are exported: what later rows hold under other keys never reaches the
    file, so two data arrays with the same first row, with holes at the
    same places, whose other rows agree on the keys of the first row give
    the same download, or throw alike. *)
Theorem downloadCsv_exports_first_row_keys :
  forall (first : Row) (rest rest' : Array_ Row) (filename : string),
    Forall2 (fun r r' =>
               match r, r' with
               | Some r, Some r' =>
                   forall keys k, Object_keys first = Normal keys ->
                                  In k keys -> prop r k = prop r' k
               | None, None => True
               | _, _ => False
               end)
            rest rest' ->
    downloadCsv (Some first :: rest) filename None
    = downloadCsv (Some first :: rest') filename None.
Proof.
  intros first rest rest' filename H.
  unfold downloadCsv, csv_text, csv_columns.
  destruct (Object_keys first) as [keys|e]; cbn [bind]; [|reflexivity].
  set (cols := Array_of (map (fun k => {| key := k; label := k |}) keys)).
  set (line_of := fun row : Row =>
         bind (Array_map (fun c => bind (prop row (key c)) escapeCsvField) cols)
           (fun fields => Normal (Array_join "," fields))).
  assert (E : Array_map line_of (Some first :: rest)
              = Array_map line_of (Some first :: rest')).
  { cbn [Array_map]. f_equal.
    rewrite (Array_map_agree line_of _ rest rest' H); [reflexivity|].
    intros [r|] [r'|] Hr; try exact Hr. unfold line_of. f_equal.
    apply Array_map_ext_in. intros c Hc. f_equal. apply (Hr keys); [reflexivity|].
    unfold cols, Array_of in Hc. rewrite map_map in Hc.
    apply in_map_iff in Hc as (k & [= <-] & Hk). exact Hk. }
  now rewrite E.
Qed.

Lemma downloadCsv_exports_first_row_keys_witness :
  downloadCsv MoreExamples.export_rows "export" None
  = downloadCsv
      [ Some (object_literal
                [ ("name", Primitive (JsString "a,b"));
                  ("note", Primitive (JsString (String dquote "hi")));
                  ("n", Primitive (JsNumber (Number.of_nat 3))) ]);
        Some (object_literal
                [ ("n", Primitive (JsBoolean true));
                  ("name", Primitive JsNull) ]) ]
      "export" None.
Proof.
  apply (downloadCsv_exports_first_row_keys _ _ _ "export").
  repeat constructor.
  intros keys k [= <-] [<-|[<-|[<-|[]]]]; reflexivity.
Defined.

End CsvReaderFacts.

(* ------------------------------------------------------------------ *)
(** ** Column resizing *)

Module ResizableTableFacts.
Import Js ResizableTable.

Lemma array_set_within (l : list Z) :
  forall i v, i < List.length l ->
    exists l', array_set l i v = Some l'
               /\ List.length l' = List.length l
               /\ nth_error l' i = Some v
               /\ forall j, j <> i -> nth_error l' j = nth_error l j.
Proof.
  induction l as [|x l IH]; intros i v Hi; simpl in Hi; [lia|].
  destruct i as [|i].
  - exists (v :: l). repeat split. intros [|j] Hj; [contradiction | reflexivity].
  - destruct (IH i v) as (l' & E & Hlen & Hi' & Hj); [lia|].
    exists (x :: l'). simpl. rewrite E. repeat split.
    + simpl. now rewrite Hlen.
    + exact Hi'.
    + intros [|j] Hne; [reflexivity|]. simpl. apply Hj. lia.
Qed.

Lemma array_set_twice (l : list Z) :
  forall i v w l', array_set l i v = Some l' -> i < List.length l ->
    array_set l' i w = array_set l i w.
Proof.
  induction l as [|x l IH]; intros i v w l' E Hi; simpl in Hi; [lia|].
  destruct i as [|i]; simpl in E.
  - injection E as <-. reflexivity.
  - destruct (array_set l i v) as [r|] eqn:Er; [|discriminate].
    injection E as <-. simpl. rewrite (IH i v w r Er); [reflexivity | lia].
Qed.

Lemma onMouseMove_dragging (columns : list Column.t) (clientX : Z)
  (st : State) (d : Dragging) (col : Column.t) :
  dragging st = Some d ->
  nth_error columns (index d) = Some col ->
  index d < List.length (widths st) ->
  exists st',
    onMouseMove columns clientX st = Some st'
    /\ array_set (widths st) (index d)
         (Z.max (min_width col) (startWidth d + (clientX - startX d)))
       = Some (widths st')
    /\ nth_error (widths st') (index d)
       = Some (Z.max (min_width col) (startWidth d + (clientX - startX d)))
    /\ (forall j, j <> index d ->
                  nth_error (widths st') j = nth_error (widths st) j)
    /\ List.length (widths st') = List.length (widths st)
    /\ dragging st' = Some d
    /\ cursor st' = cursor st /\ userSelect st' = userSelect st.
Proof.
  intros Hd Hcol Hi.
  destruct (array_set_within (widths st) (index d)
              (Z.max (min_width col) (startWidth d + (clientX - startX d))) Hi)
    as (l' & E & Hlen & Hnth & Hother).
  unfold onMouseMove. rewrite Hd, Hcol. cbv zeta.
  fold (min_width col). rewrite E.
  eexists. split; [reflexivity|]. cbn [widths dragging cursor userSelect].
  repeat split; assumption.
Qed.

(** X3.  A mouse move during a drag sets the width of the dragged column
    to its width at the start of the drag plus the distance the pointer
    has moved since, but to no less than the column's minimum width (60
    when the column gives none); the other widths, the number of widths
    and the drag itself stay as they are. *)
Theorem onMouseMove_sets_dragged_width :
  forall (columns : list Column.t) (clientX : Z) (st : State)
         (d : Dragging) (col : Column.t),
    dragging st = Some d ->
    nth_error columns (index d) = Some col ->
    index d < List.length (widths st) ->
    exists st' w,
      onMouseMove columns clientX st = Some st'
      /\ nth_error (widths st') (index d) = Some w
      /\ w = Z.max (min_width col) (startWidth d + (clientX - startX d))
      /\ (min_width col <= w)%Z
      /\ (forall j, j <> index d ->
                    nth_error (widths st') j = nth_error (widths st) j)
      /\ List.length (widths st') = List.length (widths st)
      /\ dragging st' = Some d.
Proof.
  intros columns x st d col Hd Hcol Hi.
  destruct (onMouseMove_dragging columns x st d col Hd Hcol Hi)
    as (st' & E & _ & Hnth & Hother & Hlen & Hd' & _).
  exists st', (Z.max (min_width col) (startWidth d + (x - startX d))).
  repeat split; try assumption. lia.
Qed.

Lemma onMouseMove_twice (columns : list Column.t) (x1 x2 : Z) (st st1 : State) :
  (match dragging st with
   | Some d => index d < List.length (widths st)
   | None => True
   end) ->
  onMouseMove columns x1 st = Some st1 ->
  onMouseMove columns x2 st1 = onMouseMove columns x2 st.
Proof.
  unfold onMouseMove. destruct (dragging st) as [d|] eqn:Hd.
  - intros Hi.
    destruct (nth_error columns (index d)) as [col|] eqn:Hcol; [|discriminate].
    cbv zeta.
    destruct (array_set (widths st) (index d)
                (Z.max (nullish_or (Column.minWidth col) 60%Z)
                       (startWidth d + (x1 - startX d)))) as [l1|] eqn:E1;
      [|discriminate].
    intros [= <-]. cbn [dragging widths cursor userSelect].
    rewrite Hcol, (array_set_twice _ _ _ _ _ E1 Hi).
    destruct (array_set (widths st) (index d) _); reflexivity.
  - intros _ [= <-]. now rewrite Hd.
Qed.

(** Of the moves of a drag only the last one counts. *)
Lemma moves_during_drag (columns : list Column.t) (xs : list Z) :
  forall (st : State) (d : Dragging) (col : Column.t) (x : Z),
    dragging st = Some d ->
    nth_error columns (index d) = Some col ->
    index d < List.length (widths st) ->
    handle_all columns st (map MouseMove (xs ++ [x]))
    = onMouseMove columns x st.
Proof.
  induction xs as [|x1 xs IH]; intros st d col x Hd Hcol Hi.
  - simpl. now destruct (onMouseMove columns x st).
  - change (handle_all columns st (map MouseMove ((x1 :: xs) ++ [x])))
      with (match onMouseMove columns x1 st with
            | Some st' => handle_all columns st' (map MouseMove (xs ++ [x]))
            | None => None
            end).
    destruct (onMouseMove_dragging columns x1 st d col Hd Hcol Hi)
      as (st1 & E1 & _ & _ & _ & Hlen & Hd1 & _).
    rewrite E1. rewrite (IH st1 d col x Hd1 Hcol); [|now rewrite Hlen].
    apply (onMouseMove_twice columns x1 x st st1); [now rewrite Hd | exact E1].
Qed.

Lemma handle_all_app (columns : list Column.t) (es1 es2 : list Event) :
  forall st,
    handle_all columns st (es1 ++ es2)
    = match handle_all columns st es1 with
      | Some st' => handle_all columns st' es2
      | None => None
      end.
Proof.
  induction es1 as [|e es1 IH]; intro st; [reflexivity|].
  simpl. destruct (handle columns st e); [apply IH | reflexivity].
Qed.

(** X4.  A whole drag: pressing the handle of a column at [x0], moving
    the pointer through any positions and releasing it at [x] changes the
    width of that column, and of no other, to its former width plus
    [x - x0], or to the column's minimum width if that is more; the path
    the pointer took does not matter, and the drag is over. *)
Theorem drag_gesture :
  forall (columns : list Column.t) (st : State) (i : nat) (x0 : Z)
         (xs : list Z) (x w : Z) (col : Column.t),
    nth_error (widths st) i = Some w ->
    nth_error columns i = Some col ->
    exists st',
      handle_all columns st
        (MouseDown i x0 :: map MouseMove (xs ++ [x]) ++ [MouseUp])
      = Some st'
      /\ array_set (widths st) i (Z.max (min_width col) (w + (x - x0)))
         = Some (widths st')
      /\ nth_error (widths st') i
         = Some (Z.max (min_width col) (w + (x - x0)))
      /\ (forall j, j <> i ->
                    nth_error (widths st') j = nth_error (widths st) j)
      /\ dragging st' = None.
Proof.
  intros columns st i x0 xs x w col Hw Hcol.
  assert (Hi : i < List.length (widths st))
    by (apply nth_error_Some; congruence).
  cbn [handle_all handle]. unfold onMouseDown. rewrite Hw.
  set (st0 := {| widths := widths st;
                 dragging := Some {| index := i; startX := x0; startWidth := w |};
                 cursor := "col-resize"; userSelect := "none" |}).
  rewrite handle_all_app.
  rewrite (moves_during_drag columns xs st0
             {| index := i; startX := x0; startWidth := w |} col x
             eq_refl Hcol Hi).
  destruct (onMouseMove_dragging columns x st0
              {| index := i; startX := x0; startWidth := w |} col
              eq_refl Hcol Hi)
    as (st1 & E1 & Hset & Hnth & Hother & _).
  rewrite E1. cbn [handle_all handle].
  exists (onMouseUp st1). split; [reflexivity|].
  cbn [onMouseUp widths dragging]. repeat split; assumption.
Qed.

(** X5.  Without a drag the pointer does nothing: once the button is
    released, whatever was going on before, no sequence of mouse moves
    changes a width or anything else of the state. *)
Theorem moves_after_mouse_up :
  forall (columns : list Column.t) (st : State) (xs : list Z),
    handle_all columns st (MouseUp :: map MouseMove xs)
    = Some (onMouseUp st).
Proof.
  intros columns st xs. cbn [handle_all handle].
  induction xs as [|x xs IH]; [reflexivity|]. exact IH.
Qed.

Lemma initial_well_formed (columns : list Column.t) (c u : string) :
  well_formed columns (initial columns c u).
Proof. split; [apply length_map | exact I]. Qed.

Lemma handle_well_formed (columns : list Column.t) (st : State) (e : Event) :
  well_formed columns st -> on_a_handle columns e ->
  exists st', handle columns st e = Some st' /\ well_formed columns st'.
Proof.
  intros [Hlen Hd] He. destruct e as [i x|x|]; cbn [handle].
  - simpl in He. unfold onMouseDown.
    destruct (nth_error (widths st) i) as [w|] eqn:Hw.
    + eexists. split; [reflexivity|]. split; [exact Hlen|].
      cbn [dragging index]. lia.
    + apply nth_error_None in Hw. lia.
  - destruct (dragging st) as [d|] eqn:E.
    + destruct (nth_error columns (index d)) as [col|] eqn:Hcol.
      * destruct (onMouseMove_dragging columns x st d col E Hcol)
          as (st' & E' & _ & _ & _ & Hlen' & Hd' & _); [lia|].
        exists st'. split; [exact E'|]. split; [congruence|].
        now rewrite Hd'.
      * apply nth_error_None in Hcol. lia.
    + exists st. split; [|split; [exact Hlen | now rewrite E]].
      unfold onMouseMove. now rewrite E.
  - eexists. split; [reflexivity|]. split; [exact Hlen | exact I].
Qed.

(** X6.  The table never loses or gains a width: from its initial state,
    which has one width per column (the default width, or 150), any
    sequence of presses on the handles it renders, moves and releases
    meets no [undefined] column or width, and leaves one width per column
    and at most a drag on an existing column. *)
Theorem events_keep_one_width_per_column :
  forall (columns : list Column.t) (c u : string) (es : list Event),
    Forall (on_a_handle columns) es ->
    exists st,
      handle_all columns (initial columns c u) es = Some st
      /\ well_formed columns st.
Proof.
  intros columns c u es.
  generalize (initial columns c u) (initial_well_formed columns c u).
  induction es as [|e es IH]; intros st Hwf Hes.
  - exists st. now split.
  - inversion Hes as [|? ? He Hes']; subst.
    destruct (handle_well_formed columns st e Hwf He) as (st1 & E1 & Hwf1).
    cbn [handle_all]. rewrite E1. now apply IH.
Qed.

Lemma onMouseMove_sets_dragged_width_witness :
  exists st' w,
    onMouseMove MoreExamples.table_columns 300 MoreExamples.held_state
    = Some st'
    /\ nth_error (widths st') 0 = Some w
    /\ w = 100%Z.
Proof.
  destruct (onMouseMove_sets_dragged_width MoreExamples.table_columns 300
              MoreExamples.held_state MoreExamples.held
              (MoreExamples.column "instance" (Some 100%Z) (Some 160%Z))
              eq_refl eq_refl)
    as (st' & w & E & Hw & Ew & _).
  - simpl. lia.
  - exists st', w. repeat split; assumption.
Defined.

Lemma drag_gesture_witness :
  exists st',
    handle_all MoreExamples.table_columns
      (initial MoreExamples.table_columns "" "")
      [MouseDown 1 10; MouseMove 50; MouseMove 5; MouseMove 40; MouseUp]
    = Some st'
    /\ nth_error (widths st') 1 = Some 180%Z.
Proof.
  destruct (drag_gesture MoreExamples.table_columns
              (initial MoreExamples.table_columns "" "")
              1 10 [50; 5]%Z 40 150 (MoreExamples.column "name" None None)
              eq_refl eq_refl)
    as (st' & E & _ & Hw & _).
  exists st'. split; [exact E | exact Hw].
Defined.

Lemma events_keep_one_width_per_column_witness :
  exists st,
    handle_all MoreExamples.table_columns
      (initial MoreExamples.table_columns "" "")
      [MouseMove 3; MouseDown 0 10; MouseDown 1 20; MouseMove 400; MouseUp]
    = Some st
    /\ well_formed MoreExamples.table_columns st.
Proof.
  apply events_keep_one_width_per_column.
  repeat constructor; simpl; lia.
Defined.

End ResizableTableFacts.

(* ------------------------------------------------------------------ *)
(** ** Package grouping: what the table and the header show *)

Module VulnerabilitiesHeaderFacts.
Import Js JsFacts VulnerabilitiesPage Notions Spec VulnerabilitiesFacts.
Import VulnerabilitiesHeader.

Lemma list_sum_perm (l l' : list nat) :
  Permutation l l' -> list_sum l = list_sum l'.
Proof.
  induction 1; simpl; lia.
Qed.

(** What [set] does to a total over the values of a map. *)
Lemma Map_set_sum {V : Type} (f : V -> nat) (k : string) (v : V)
  (m : StringMap V) :
  list_sum (map f (Map_values (Map_set k v m)))
  + match Map_get k m with Some old => f old | None => 0 end
  = list_sum (map f (Map_values m)) + f v.
Proof.
  unfold Map_values.
  induction m as [|[k' v'] m IH]; simpl; [lia|].
  destruct (k =? k'); simpl; lia.
Qed.

Lemma group_item_total (m : StringMap PackageGroup.t) (x : VulnDetailEntry.t) :
  total_count (Map_values (group_item m x)) = S (total_count (Map_values m)).
Proof.
  unfold total_count, group_item.
  destruct (Map_get (pkg_of x) m) as [existing|] eqn:E.
  - pose proof (Map_set_sum PackageGroup.count (pkg_of x)
                  (group_update existing x) m) as H.
    rewrite E in H. simpl in H. lia.
  - pose proof (Map_set_sum PackageGroup.count (pkg_of x)
                  (group_new (pkg_of x) x) m) as H.
    rewrite E in H. simpl in H. lia.
Qed.

Lemma packageGroups_total (l : list VulnDetailEntry.t) :
  total_count (Map_values (packageGroups l)) = List.length l.
Proof.
  induction l as [|x l IH] using rev_ind; [reflexivity|].
  rewrite packageGroups_snoc, group_item_total, IH, length_app. simpl. lia.
Qed.

Lemma Set_of_length_le (xs : list string) :
  Set_size (Set_of xs) <= List.length xs.
Proof.
  rewrite Set_size_distinct.
  apply NoDup_incl_length; [apply NoDup_nodup|].
  intros x Hx. now apply nodup_In in Hx.
Qed.

Lemma Set_of_nonempty (x : string) (xs : list string) :
  1 <= Set_size (Set_of (x :: xs)).
Proof.
  assert (H : In x (Set_of (x :: xs))) by (apply Set_of_In; now left).
  unfold Set_size. destruct (Set_of (x :: xs)); [contradiction | simpl; lia].
Qed.

Lemma sortedPackages_length (l : list VulnDetailEntry.t) :
  List.length (sortedPackages l) = Set_size (Set_of (map pkg_of l)).
Proof.
  unfold sortedPackages.
  rewrite <- (Permutation_length (sort_perm compareFn _)).
  rewrite <- packageGroups_keys. unfold Map_values, Map_keys, Set_size.
  now rewrite !length_map.
Qed.

(** X7.  The counts of the package groups add up: the [count] fields of
    the groups of [sortedPackages] sum to the number of filtered findings,
    there are no more groups than findings, and there is no group exactly
    when no finding passes the filters. *)
Theorem group_counts_add_up :
  forall filtered : list VulnDetailEntry.t,
    total_count (sortedPackages filtered) = List.length filtered
    /\ List.length (sortedPackages filtered) <= List.length filtered
    /\ (sortedPackages filtered = [] <-> filtered = []).
Proof.
  intro l. split; [|split].
  - unfold total_count, sortedPackages.
    rewrite <- (list_sum_perm _ _
                  (Permutation_map PackageGroup.count (sort_perm compareFn _))).
    apply packageGroups_total.
  - rewrite sortedPackages_length.
    etransitivity; [apply Set_of_length_le | now rewrite length_map].
  - split; [|now intros ->].
    intro E. destruct l as [|x l]; [reflexivity|].
    destruct (group_exists (x :: l) x (or_introl eq_refl)) as (g & Hg & _).
    rewrite E in Hg. contradiction.
Qed.

(** X8.  The groups of [sortedPackages] have distinct package names, and
    the names are those of the filtered findings, a finding without package
    counting under [unknown]. *)
Theorem group_packages_distinct :
  forall filtered : list VulnDetailEntry.t,
    NoDup (map PackageGroup.package (sortedPackages filtered))
    /\ forall p,
         In p (map PackageGroup.package (sortedPackages filtered))
         <-> exists item,
               In item filtered
               /\ match VulnDetailEntry.package item with
                  | Some name => name
                  | None => "unknown"
                  end = p.
Proof.
  intro l.
  assert (P : Permutation (Set_of (map pkg_of l))
                (map PackageGroup.package (sortedPackages l))).
  { rewrite <- packageGroups_order. apply Permutation_map, sort_perm. }
  split.
  - apply (Permutation_NoDup P), Set_of_NoDup.
  - intro p. split.
    + intro H. apply (Permutation_in _ (Permutation_sym P)) in H.
      apply Set_of_In, in_map_iff in H as (item & E & Hin).
      now exists item.
    + intros (item & Hin & E). apply (Permutation_in _ P).
      apply Set_of_In, in_map_iff. now exists item.
Qed.

Lemma non_empty_length (attr : VulnDetailEntry.t -> option string)
  (ms : list VulnDetailEntry.t) :
  List.length (non_empty attr ms) <= List.length ms.
Proof.
  unfold non_empty. induction ms as [|m ms IH]; simpl; [lia|].
  rewrite length_app.
  assert (List.length (if_truthy (attr m)) <= 1); [|lia].
  unfold if_truthy. destruct (attr m) as [s|]; simpl; [|lia].
  destruct (negb (s =? "")); simpl; lia.
Qed.

(** X9.  Every group of [sortedPackages] is about at least one finding
    and counts nothing twice: [count] is the number of the findings of the
    package, each group has at least one CVE and one instance, and no
    group has more CVEs, instances, hosts, versions or fix versions than
    findings. *)
Theorem group_field_bounds :
  forall (filtered : list VulnDetailEntry.t) (g : PackageGroup.t),
    In g (sortedPackages filtered) ->
    PackageGroup.count g
    = List.length (members (PackageGroup.package g) filtered)
    /\ 1 <= Set_size (PackageGroup.cves g) <= PackageGroup.count g
    /\ 1 <= Set_size (PackageGroup.instances g) <= PackageGroup.count g
    /\ Set_size (PackageGroup.hosts g) <= PackageGroup.count g
    /\ Set_size (PackageGroup.versions g) <= PackageGroup.count g
    /\ Set_size (PackageGroup.fix_versions g) <= PackageGroup.count g.
Proof.
  intros l g Hg. apply sortedPackages_group in Hg.
  destruct (members (PackageGroup.package g) l) as [|first rest] eqn:E;
    [discriminate|].
  apply group_of_fields in Hg
    as (_ & Hn & Hc & Hi & Hh & Hf & Hv & _).
  rewrite Hn, Hc, Hi, Hh, Hf, Hv.
  split; [reflexivity|].
  split; [split; [apply Set_of_nonempty|]|].
  { rewrite <- (length_map VulnDetailEntry.vuln_id (first :: rest)).
    apply Set_of_length_le. }
  split; [split; [apply Set_of_nonempty|]|].
  { rewrite <- (length_map VulnDetailEntry.instance_name (first :: rest)).
    apply Set_of_length_le. }
  repeat split;
    (etransitivity; [apply Set_of_length_le | apply non_empty_length]).
Qed.

(** X10.  A group of [sortedPackages] never has a severity that none of
    its findings has, and it shows Critical exactly when one of its
    findings is Critical. *)
Theorem group_severity_of_a_member :
  forall (filtered : list VulnDetailEntry.t) (g : PackageGroup.t),
    In g (sortedPackages filtered) ->
    (exists item,
        In item (members (PackageGroup.package g) filtered)
        /\ VulnDetailEntry.severity item = PackageGroup.severity g)
    /\ (PackageGroup.severity g = "Critical"
        <-> exists item,
              In item (members (PackageGroup.package g) filtered)
              /\ VulnDetailEntry.severity item = "Critical").
Proof.
  intros l g Hg. split; [|now apply group_critical_iff].
  destruct (group_severity l g Hg) as (first & rest & -> & ->).
  destruct (existsb is_critical rest) eqn:E.
  - apply existsb_exists in E as (item & Hin & Hc).
    exists item. split; [now right | now apply String.eqb_eq].
  - exists first. split; [now left | reflexivity].
Qed.

(** *** The header counts *)

Lemma exposedByInstance_snoc (items : list VulnDetailEntry.t)
  (x : VulnDetailEntry.t) :
  fold_left count_exposed (items ++ [x]) []
  = count_exposed (fold_left count_exposed items []) x.
Proof. now rewrite fold_left_app. Qed.

Lemma count_exposed_get (ebi : StringMap nat) (x : VulnDetailEntry.t)
  (name : string) :
  nullish_or (Map_get name (count_exposed ebi x)) 0
  = nullish_or (Map_get name ebi) 0
    + (if is_critical x && truthy (VulnDetailEntry.external_ip x)
          && (VulnDetailEntry.instance_name x =? name)
       then 1 else 0).
Proof.
  unfold count_exposed.
  destruct (is_critical x && truthy (VulnDetailEntry.external_ip x));
    simpl; [|lia].
  destruct (String.eqb_spec (VulnDetailEntry.instance_name x) name) as [<-|Hne].
  - now rewrite Map_get_set_same.
  - rewrite Map_get_set_other by congruence. lia.
Qed.

Lemma count_exposed_sum (ebi : StringMap nat) (x : VulnDetailEntry.t) :
  list_sum (Map_values (count_exposed ebi x))
  = list_sum (Map_values ebi)
    + (if is_critical x && truthy (VulnDetailEntry.external_ip x)
       then 1 else 0).
Proof.
  unfold count_exposed.
  destruct (is_critical x && truthy (VulnDetailEntry.external_ip x)); [|lia].
  pose proof (Map_set_sum (fun n => n) (VulnDetailEntry.instance_name x)
                (nullish_or (Map_get (VulnDetailEntry.instance_name x) ebi) 0 + 1)
                ebi) as H.
  rewrite !map_id in H.
  destruct (Map_get (VulnDetailEntry.instance_name x) ebi); simpl in *; lia.
Qed.

Lemma count_exposed_positive (ebi : StringMap nat) (x : VulnDetailEntry.t) :
  (forall name n, Map_get name ebi = Some n -> 1 <= n) ->
  forall name n, Map_get name (count_exposed ebi x) = Some n -> 1 <= n.
Proof.
  intros H name n. unfold count_exposed.
  destruct (is_critical x && truthy (VulnDetailEntry.external_ip x));
    [|apply H].
  destruct (String.eqb_spec (VulnDetailEntry.instance_name x) name) as [<-|Hne].
  - rewrite Map_get_set_same. intros [= <-]. lia.
  - rewrite Map_get_set_other by congruence. apply H.
Qed.

(** X11.  The figure on the card of an instance is the number of the
    Critical findings of that instance that have an external IP, and 0
    for an instance without such a finding; the map holds no zero, and its
    figures add up to the header count [exposedCritical]. *)
Theorem exposedByInstance_counts :
  forall d : VulnPageData.t,
    (forall name,
        exposed_on_card d name
        = List.length
            (filter (fun i => is_critical i
                              && truthy (VulnDetailEntry.external_ip i)
                              && (VulnDetailEntry.instance_name i =? name))
                    (VulnPageData.items d)))
    /\ (forall name n, Map_get name (exposedByInstance d) = Some n -> 1 <= n)
    /\ list_sum (Map_values (exposedByInstance d)) = exposedCritical d.
Proof.
  intro d. unfold exposed_on_card, exposedByInstance, exposedCritical.
  induction (VulnPageData.items d) as [|x l IH] using rev_ind.
  - repeat split. intros name n. discriminate.
  - destruct IH as (IH1 & IH2 & IH3).
    rewrite exposedByInstance_snoc. split; [|split].
    + intro name. rewrite count_exposed_get, IH1, filter_app, length_app.
      simpl. now destruct (is_critical x && truthy (VulnDetailEntry.external_ip x)
                           && (VulnDetailEntry.instance_name x =? name)).
    + now apply count_exposed_positive.
    + rewrite count_exposed_sum, IH3, filter_app, length_app. simpl.
      now destruct (is_critical x && truthy (VulnDetailEntry.external_ip x)).
Qed.

(** *** The table under the filters *)

Lemma filtered_In (st : PageState) (item : VulnDetailEntry.t) :
  In item (filtered st)
  <-> exists d, data st = Some d
                /\ In item (VulnPageData.items d)
                /\ matchesSearch st item = true
                /\ matchesInstance st item = true
                /\ matchesSeverity st item = true
                /\ matchesExposed st item = true
                /\ matchesFixable st item = true.
Proof.
  unfold filtered. destruct (data st) as [d|].
  - rewrite filter_In, !andb_true_iff. split.
    + intros (Hin & (((H1 & H2) & H3) & H4) & H5). exists d. now repeat split.
    + intros (d' & [= <-] & Hin & H1 & H2 & H3 & H4 & H5). now repeat split.
  - split; [contradiction|]. now intros (d & H & _).
Qed.

Lemma members_incl (pkg : string) (l : list VulnDetailEntry.t)
  (item : VulnDetailEntry.t) :
  In item (members pkg l) <-> In item l /\ pkg_of item = pkg.
Proof. unfold members. now rewrite filter_In, String.eqb_eq. Qed.

Lemma StronglySorted_in_weaken {A : Type} (R S : A -> A -> Prop) (l : list A) :
  (forall a b, In a l -> In b l -> R a b -> S a b) ->
  StronglySorted R l -> StronglySorted S l.
Proof.
  intros HRS H. induction H as [|x l H IH Hx]; constructor.
  - apply IH. intros a b Ha Hb. apply HRS; now right.
  - rewrite Forall_forall in *. intros b Hb.
    apply HRS; [now left | now right | now apply Hx].
Qed.

(** X12.  As the page opens, with the severity filter on Critical, every
    row of the package table is Critical and the rows stand by affected
    hosts, most first; rows with the same number of hosts stand in the
    order in which their packages first occur among the findings. *)
Theorem critical_view_sorted_by_hosts :
  forall st : PageState,
    severityFilter st = "Critical" ->
    Forall (fun g => PackageGroup.severity g = "Critical")
      (sortedPackages (filtered st))
    /\ StronglySorted
         (fun a b => Set_size (PackageGroup.hosts b)
                     <= Set_size (PackageGroup.hosts a))
         (sortedPackages (filtered st))
    /\ (forall n,
          filter (fun g => (Set_size (PackageGroup.hosts g) =? n)%nat)
            (sortedPackages (filtered st))
          = filter (fun g => (Set_size (PackageGroup.hosts g) =? n)%nat)
              (Map_values (packageGroups (filtered st))))
    /\ map PackageGroup.package (Map_values (packageGroups (filtered st)))
       = Set_of (map pkg_of (filtered st)).
Proof.
  intros st Hsev.
  assert (Hcrit : forall g, In g (sortedPackages (filtered st)) ->
                            PackageGroup.severity g = "Critical").
  { intros g Hg. destruct (group_severity _ g Hg) as (first & rest & Hm & ->).
    destruct (existsb is_critical rest); [reflexivity|].
    assert (Hin : In first (filtered st)).
    { apply (members_incl (PackageGroup.package g)). rewrite Hm. now left. }
    apply filtered_In in Hin as (d & _ & _ & _ & _ & H & _).
    unfold matchesSeverity in H. rewrite Hsev in H. simpl in H.
    now apply String.eqb_eq in H. }
  assert (Hcrit' : forall g, In g (Map_values (packageGroups (filtered st))) ->
                             PackageGroup.severity g = "Critical").
  { intros g Hg. apply Hcrit. unfold sortedPackages. now apply sort_In. }
  split; [now apply Forall_forall|]. split; [|split].
  - apply (StronglySorted_in_weaken critical_then_hosts).
    + intros a b Ha Hb [[_ Hn]|[_ H]]; [|exact H].
      exfalso. apply Hn. now apply Hcrit.
    + apply sortedPackages_sorted. intros a b Ha Hb Hne. left. now apply Hcrit'.
  - intro n.
    destruct (existsb (fun g => (Set_size (PackageGroup.hosts g) =? n)%nat)
                (Map_values (packageGroups (filtered st)))) eqn:E.
    + apply existsb_exists in E as (g0 & Hg0 & Hn). apply Nat.eqb_eq in Hn.
      assert (Htie : forall l,
                (forall g, In g l -> PackageGroup.severity g = "Critical") ->
                filter (fun g => (Set_size (PackageGroup.hosts g) =? n)%nat) l
                = filter (tied_with g0) l).
      { intros l Hl. apply filter_ext_in. intros g Hg. unfold tied_with.
        rewrite (Hl g Hg), (Hcrit' g0 Hg0), String.eqb_refl, Hn. reflexivity. }
      rewrite (Htie _ Hcrit), (Htie _ Hcrit'). apply sortedPackages_stable.
    + assert (Hnone : forall l,
                (forall g, In g l ->
                           In g (Map_values (packageGroups (filtered st)))) ->
                filter (fun g => (Set_size (PackageGroup.hosts g) =? n)%nat) l
                = []).
      { intros l Hl. induction l as [|g l IH]; [reflexivity|]. simpl.
        destruct (Set_size (PackageGroup.hosts g) =? n)%nat eqn:En.
        - assert (existsb (fun g => (Set_size (PackageGroup.hosts g) =? n)%nat)
                    (Map_values (packageGroups (filtered st))) = true);
            [|congruence].
          apply existsb_exists. exists g. split; [apply Hl; now left | exact En].
        - apply IH. intros g' Hg'. apply Hl. now right. }
      rewrite (Hnone (sortedPackages (filtered st))), Hnone; auto.
      intros g Hg. unfold sortedPackages in Hg. now apply sort_In in Hg.
  - apply packageGroups_order.
Qed.

(** X13.  The groups are made of findings that passed the filters: under
    "Fix Available" every finding of every row has a fix version and the
    row lists at least one, and under "Internet Exposed" every finding of
    every row has an external IP. *)
Theorem groups_respect_filters :
  forall (st : PageState) (g : PackageGroup.t),
    In g (sortedPackages (filtered st)) ->
    (fixableOnly st = true ->
     PackageGroup.fix_versions g <> []
     /\ forall item,
          In item (members (PackageGroup.package g) (filtered st)) ->
          present_non_empty (VulnDetailEntry.fix_version item))
    /\ (internetExposed st = true ->
        forall item,
          In item (members (PackageGroup.package g) (filtered st)) ->
          present_non_empty (VulnDetailEntry.external_ip item)).
Proof.
  intros st g Hg.
  assert (Hfix : fixableOnly st = true ->
                 forall item,
                   In item (members (PackageGroup.package g) (filtered st)) ->
                   present_non_empty (VulnDetailEntry.fix_version item)).
  { intros Hon item Hin. apply members_incl in Hin as [Hin _].
    apply filtered_In in Hin as (d & _ & _ & _ & _ & _ & _ & H).
    unfold matchesFixable in H. rewrite Hon in H. simpl in H.
    now apply truthy_present. }
  split; [intro Hon; split; [|now apply Hfix]|].
  - destruct (group_severity _ g Hg) as (first & rest & Hm & _).
    destruct (group_sets _ g Hg) as (_ & _ & Hf). rewrite Hf, Hm.
    assert (Hp : present_non_empty (VulnDetailEntry.fix_version first)).
    { apply Hfix; [exact Hon|]. rewrite Hm. now left. }
    destruct Hp as (v & Ev & Hv).
    assert (Hin : In v (Set_of (non_empty VulnDetailEntry.fix_version
                                  (first :: rest)))).
    { apply non_empty_In. exists first. split; [now left | now split]. }
    intro E. rewrite E in Hin. contradiction.
  - intros Hon item Hin. apply members_incl in Hin as [Hin _].
    apply filtered_In in Hin as (d & _ & _ & _ & _ & _ & H & _).
    unfold matchesExposed in H. rewrite Hon in H. simpl in H.
    now apply truthy_present.
Qed.

Lemma prefix_refl (s : string) : prefix s s = true.
Proof.
  induction s as [|a s IH]; [reflexivity|]. simpl.
  destruct (ascii_dec a a); [exact IH | contradiction].
Qed.

Lemma includes_refl (s : string) : includes s s = true.
Proof.
  destruct s as [|a s]; [reflexivity|].
  change (includes (String a s) (String a s))
    with (prefix (String a s) (String a s) || includes s (String a s)).
  now rewrite prefix_refl.
Qed.

(** X14.  Clicking a row of the package table narrows the page to that
    package without losing any of its findings: every filtered finding of
    the clicked package is still in the filtered list afterwards, and for
    the row [unknown] the search is cleared. *)
Theorem clickPackage_keeps_the_package :
  forall (st : PageState) (g : PackageGroup.t) (item : VulnDetailEntry.t),
    In g (sortedPackages (filtered st)) ->
    In item (members (PackageGroup.package g) (filtered st)) ->
    In item (filtered (clickPackage g st))
    /\ (PackageGroup.package g = "unknown" -> search (clickPackage g st) = "").
Proof.
  intros st g item _ Hin. split.
  - apply members_incl in Hin as [Hin Hp].
    apply filtered_In in Hin as (d & Hd & Hi & _ & H2 & H3 & H4 & H5).
    apply filtered_In. exists d.
    repeat split; try assumption.
    unfold matchesSearch, searchLower. cbn [search clickPackage].
    destruct (String.eqb_spec (PackageGroup.package g) "unknown") as [E|E];
      [reflexivity|].
    destruct (String.eqb_spec (PackageGroup.package g) "") as [E0|E0];
      [reflexivity|].
    unfold pkg_of in Hp.
    destruct (VulnDetailEntry.package item) as [p|] eqn:Ep; simpl in Hp;
      [|congruence].
    subst p. cbn [nullish_or]. rewrite includes_refl.
    now rewrite !orb_true_r.
  - intro E. cbn [search clickPackage]. now rewrite E.
Qed.

(** *** On the findings of the examples *)

Lemma zlib_group_in_critical_view :
  In MoreExamples.zlib_group (sortedPackages (filtered MoreExamples.critical_view)).
Proof. left. reflexivity. Defined.

Lemma zlib_finding_in_critical_view :
  In (Examples.finding "zlib" "Critical" "CVE-2024-2222" "web-1" None)
     (members (PackageGroup.package MoreExamples.zlib_group)
        (filtered MoreExamples.critical_view)).
Proof. left. reflexivity. Defined.

Lemma group_field_bounds_witness :
  PackageGroup.count MoreExamples.zlib_group = 1
  /\ 1 <= Set_size (PackageGroup.cves MoreExamples.zlib_group) <= 1.
Proof.
  destruct (group_field_bounds (filtered MoreExamples.critical_view)
              MoreExamples.zlib_group zlib_group_in_critical_view)
    as (Hc & Hcves & _).
  split; [reflexivity | exact Hcves].
Defined.

Lemma group_severity_of_a_member_witness :
  exists item,
    In item (members "zlib" (filtered MoreExamples.critical_view))
    /\ VulnDetailEntry.severity item = "Critical".
Proof.
  exact (proj1 (group_severity_of_a_member
                  (filtered MoreExamples.critical_view)
                  MoreExamples.zlib_group zlib_group_in_critical_view)).
Defined.

Lemma critical_view_sorted_by_hosts_witness :
  severityFilter MoreExamples.critical_view = "Critical"
  /\ Forall (fun g => PackageGroup.severity g = "Critical")
       (sortedPackages (filtered MoreExamples.critical_view))
  /\ map PackageGroup.package
       (sortedPackages (filtered MoreExamples.critical_view))
     = ["zlib"; "openssl"].
Proof.
  split; [reflexivity|]. split; [|reflexivity].
  exact (proj1 (critical_view_sorted_by_hosts MoreExamples.critical_view
                  eq_refl)).
Defined.

Lemma groups_respect_filters_witness :
  (fixableOnly MoreExamples.critical_view = true ->
   PackageGroup.fix_versions MoreExamples.zlib_group <> [])
  /\ In MoreExamples.zlib_group
       (sortedPackages (filtered MoreExamples.critical_view)).
Proof.
  split; [|exact zlib_group_in_critical_view].
  intro H.
  exact (proj1 (proj1 (groups_respect_filters MoreExamples.critical_view
                         MoreExamples.zlib_group zlib_group_in_critical_view)
                  H)).
Defined.

Lemma clickPackage_keeps_the_package_witness :
  In (Examples.finding "zlib" "Critical" "CVE-2024-2222" "web-1" None)
     (filtered (clickPackage MoreExamples.zlib_group MoreExamples.critical_view)).
Proof.
  exact (proj1 (clickPackage_keeps_the_package MoreExamples.critical_view
                  MoreExamples.zlib_group _
                  zlib_group_in_critical_view zlib_finding_in_critical_view)).
Defined.

End VulnerabilitiesHeaderFacts.

(* ------------------------------------------------------------------ *)
(** ** The cells of an identity row *)

Module IdentitiesCellsFacts.
Import Js JsFacts IdentitiesPage IdentitiesCells.

(** X15.  The "Excessive Permissions" filter and the colour of the
    "Unused %" cell go by the same threshold: with the filter on, an
    identity passes exactly when its cell is highlighted (orange from 75,
    red from 90), and a highlighted cell shows a percentage of at least
    75, never the dash. *)
Theorem excessive_filter_iff_highlighted :
  forall (st : PageState) (item : IdentityEntry.t),
    excessiveOnly st = true ->
    (matchesExcessive st item = true <-> unusedPctClass item <> pct_plain)
    /\ (unusedPctClass item = pct_red -> matchesExcessive st item = true)
    /\ (unusedPctClass item <> pct_plain ->
        exists n, unusedPctText item = Percent n /\ (75 <= n)%Z).
Proof.
  intros st item Hon.
  unfold matchesExcessive, unusedPctClass, unusedPctText. rewrite Hon.
  cbn [negb orb].
  set (pct := IdentityEntry.entitlements_unused_pct item).
  assert (H90 : Qle_bool 90 pct = true -> Qle_bool 75 pct = true).
  { rewrite !Qle_bool_iff. intro H. apply (Qle_trans _ 90); [|exact H].
    unfold Qle. simpl. lia. }
  assert (Hround : Qle_bool 75 pct = true ->
                   exists n,
                     (if negb (Qle_bool pct 0) then Percent (Math_round pct)
                      else Dash) = Percent n /\ (75 <= n)%Z).
  { intro H. apply Qle_bool_iff in H.
    assert (Hpos : Qle_bool pct 0 = false).
    { destruct (Qle_bool pct 0) eqn:E; [|reflexivity].
      apply Qle_bool_iff in E. pose proof (Qle_trans _ _ _ H E) as C.
      unfold Qle in C. simpl in C. lia. }
    rewrite Hpos. exists (Math_round pct). split; [reflexivity|].
    unfold Math_round.
    change 75%Z with (Qfloor (75 + (1 # 2))).
    apply Qfloor_resp_le. now apply Qplus_le_l. }
  destruct (Qle_bool 90 pct) eqn:E90.
  - rewrite (H90 eq_refl). split; [|split].
    + split; [discriminate | reflexivity].
    + reflexivity.
    + intros _. now apply Hround, H90.
  - destruct (Qle_bool 75 pct) eqn:E75.
    + split; [|split].
      * split; [discriminate | reflexivity].
      * reflexivity.
      * intros _. now apply Hround.
    + split; [|split].
      * split; [discriminate | intro H; now contradiction H].
      * discriminate.
      * intro H. now contradiction H.
Qed.

Lemma excessive_filter_iff_highlighted_witness :
  excessiveOnly MoreExamples.excessive_view = true
  /\ matchesExcessive MoreExamples.excessive_view
       MoreExamples.excessive_identity = true
  /\ unusedPctClass MoreExamples.excessive_identity <> pct_plain.
Proof.
  split; [reflexivity|]. split; [reflexivity|].
  apply (proj1 (excessive_filter_iff_highlighted MoreExamples.excessive_view
                  MoreExamples.excessive_identity eq_refl)).
  reflexivity.
Defined.

Lemma firstn_In {A : Type} (n : nat) (l : list A) (x : A) :
  In x (firstn n l) -> In x l.
Proof.
  revert l. induction n as [|n IH]; intros [|y l]; simpl; try contradiction.
  intros [->|H]; [now left | right; now apply IH].
Qed.

(** X16.  The chips and the "+N" after them account for every risk that
    is not a [DISABLED_WITH_] one: at most four chips are shown, in the
    order of the risks, no chip is a [DISABLED_WITH_] risk, and the "+N"
    appears exactly when risks are left out, N being their number. *)
Theorem risk_chips_account_for_all :
  forall item : IdentityEntry.t,
    List.length (riskChips item)
    + match moreRisks item with Some n => n | None => 0 end
    = List.length (activeRisks item)
    /\ List.length (riskChips item) <= 4
    /\ (moreRisks item = None <-> riskChips item = activeRisks item)
    /\ (forall n, moreRisks item = Some n ->
                  1 <= n
                  /\ (riskChips item
                      ++ firstn n (skipn 4 (activeRisks item)))%list
                     = activeRisks item)
    /\ (forall r, In r (riskChips item) ->
                  In r (IdentityEntry.risks item)
                  /\ prefix "DISABLED_WITH_" r = false).
Proof.
  intro item. unfold riskChips, moreRisks.
  set (l := activeRisks item).
  pose proof (firstn_skipn 4 l) as Hsplit.
  pose proof (length_firstn 4 l) as Hlen.
  pose proof (length_skipn 4 l) as Hskip.
  destruct (Nat.ltb_spec 4 (List.length l)) as [Hlt|Hle].
  - split; [lia|]. split; [lia|]. split; [|split].
    + split; [discriminate|]. intro E. rewrite E in Hlen. lia.
    + intros n [= <-]. split; [lia|].
      rewrite <- Hskip, firstn_all. exact Hsplit.
    + intros r Hr. apply (firstn_In 4 l) in Hr.
      unfold l, activeRisks in Hr. apply filter_In in Hr as [Hin Hp].
      split; [exact Hin | now apply negb_true_iff].
  - split; [lia|]. split; [lia|]. split; [|split].
    + split; [intros _; now apply firstn_all2 | reflexivity].
    + discriminate.
    + intros r Hr. apply (firstn_In 4 l) in Hr.
      unfold l, activeRisks in Hr. apply filter_In in Hr as [Hin Hp].
      split; [exact Hin | now apply negb_true_iff].
Qed.

End IdentitiesCellsFacts.

(* ------------------------------------------------------------------ *)
(** ** Risk labels *)

Module FormatRiskFacts.
Import Js JsFacts IdentitiesPage IdentitiesCells.

#[local] Arguments Ascii.eqb : simpl never.

Lemma underscore_lower (a : ascii) :
  Ascii.eqb underscore (lower_ascii a) = Ascii.eqb underscore a.
Proof. destruct a as [[] [] [] [] [] [] [] []]; reflexivity. Qed.

Lemma underscore_capital (a : ascii) (b : bool) :
  Ascii.eqb underscore (if is_word a && b then upper_ascii a else a)
  = Ascii.eqb underscore a.
Proof. destruct b, a as [[] [] [] [] [] [] [] []]; reflexivity. Qed.

Lemma capital_not_lower (a : ascii) :
  is_lower (if is_word a && negb false then upper_ascii a else a) = false.
Proof. destruct a as [[] [] [] [] [] [] [] []]; reflexivity. Qed.

Lemma replace_no_underscore (s : string) :
  has_underscore (replace_g underscore (String space EmptyString) s) = false.
Proof.
  unfold has_underscore. induction s as [|a s IH]; [reflexivity|].
  simpl. destruct (Ascii.eqb a underscore) eqn:E; simpl.
  - exact IH.
  - rewrite IH, Ascii.eqb_sym, E. reflexivity.
Qed.

Lemma lower_no_underscore (s : string) :
  has_underscore (toLowerCase s) = has_underscore s.
Proof.
  unfold has_underscore. induction s as [|a s IH]; [reflexivity|].
  simpl. now rewrite IH, underscore_lower.
Qed.

Lemma capitalize_no_underscore (s : string) :
  forall b, has_underscore (capitalize_words b s) = has_underscore s.
Proof.
  unfold has_underscore. induction s as [|a s IH]; intro b; [reflexivity|].
  simpl. now rewrite IH, underscore_capital.
Qed.

Lemma risk_words_well_formed (risk : string) :
  well_formed_label (risk_words risk) = true.
Proof.
  unfold well_formed_label. apply andb_true_iff. split.
  - apply negb_true_iff. unfold risk_words.
    now rewrite capitalize_no_underscore, lower_no_underscore,
      replace_no_underscore.
  - unfold risk_words.
    destruct (toLowerCase _) as [|c s]; [reflexivity|].
    cbn [capitalize_words]. apply negb_true_iff, capital_not_lower.
Qed.

(** X17.  Whenever [formatRisk] gives a text, the text has no underscore
    and does not begin with a lower-case letter: a risk of the table gets
    its label, and any other risk loses a leading [ALLOWS_] or
    [DISABLED_WITH_], has its underscores turned into spaces and every
    word capitalised.  It gives no text only for the names that every
    object inherits, such as [constructor]. *)
Theorem formatRisk_label :
  forall risk : string,
    match formatRisk risk with
    | Some l =>
        well_formed_label l = true
        /\ (Map_get risk RISK_LABELS = None -> l = risk_words risk)
    | None => In risk inherited_names
    end.
Proof.
  intro risk. unfold formatRisk.
  destruct (Map_get risk RISK_LABELS) as [l|] eqn:E.
  - split; [|discriminate].
    apply Map_get_In in E.
    assert (H : Forall (fun kv => well_formed_label (snd kv) = true) RISK_LABELS)
      by (repeat constructor).
    rewrite Forall_forall in H. exact (H (risk, l) E).
  - destruct (existsb (String.eqb risk) inherited_names) eqn:Ei.
    + apply existsb_exists in Ei as (n & Hn & En).
      apply String.eqb_eq in En. now subst.
    + split; [apply risk_words_well_formed | reflexivity].
Qed.

End FormatRiskFacts.

(* ------------------------------------------------------------------ *)
(** ** The status badge *)

Module StatusBadgeFacts.
Import StatusBadge.

(** X18.  The word, the colours and the dot of a status badge always
    agree: green and "Healthy" for the statuses [healthy] and [success],
    yellow and "Pending" for [pending], and red and "Error" for every
    other status, whatever it is. *)
Theorem badge_parts_agree :
  forall status : string,
    (status = "healthy" \/ status = "success" ->
     badgeText status = "Healthy" /\ badgeClass status = badge_green
     /\ dotClass status = dot_green)
    /\ (status = "pending" ->
        badgeText status = "Pending" /\ badgeClass status = badge_yellow
        /\ dotClass status = dot_yellow)
    /\ (status <> "healthy" -> status <> "success" -> status <> "pending" ->
        badgeText status = "Error" /\ badgeClass status = badge_red
        /\ dotClass status = dot_red)
    /\ (badgeText status = "Healthy" <-> badgeClass status = badge_green)
    /\ (badgeText status = "Pending" <-> badgeClass status = badge_yellow)
    /\ (badgeText status = "Error" <-> badgeClass status = badge_red)
    /\ (badgeClass status = badge_green <-> dotClass status = dot_green)
    /\ (badgeClass status = badge_yellow <-> dotClass status = dot_yellow)
    /\ (badgeClass status = badge_red <-> dotClass status = dot_red).
Proof.
  intro status. unfold badgeText, badgeClass, dotClass, isHealthy.
  destruct (String.eqb_spec status "healthy") as [H|H];
    destruct (String.eqb_spec status "success") as [S|S];
    destruct (String.eqb_spec status "pending") as [P|P];
    cbn [orb];
    repeat split; try discriminate; try reflexivity; try congruence;
    intros; try tauto; try congruence.
Qed.

End StatusBadgeFacts.

(* ------------------------------------------------------------------ *)
(** ** The token and the theme *)

Module AppFacts.
Import Js JsFacts App.

Lemma getItem_removeItem (k : string) (s : Storage) :
  getItem k (removeItem k s) = None.
Proof.
  unfold getItem, removeItem. induction s as [|[k' v] s IH]; [reflexivity|].
  simpl. destruct (k =? k') eqn:E; simpl; [exact IH|]. now rewrite E.
Qed.

Lemma getItem_removeItem_other (k k0 : string) (s : Storage) :
  k0 <> k -> getItem k0 (removeItem k s) = getItem k0 s.
Proof.
  intro Hne. unfold getItem, removeItem.
  induction s as [|[k' v] s IH]; [reflexivity|].
  simpl. destruct (k =? k') eqn:E; simpl.
  - apply String.eqb_eq in E. subst k'.
    apply String.eqb_neq in Hne. now rewrite Hne.
  - now rewrite IH.
Qed.

(** X19.  The token kept in the storage decides the protected routes:
    after [setToken] they render exactly when the token given is a
    non-empty string, a [null] or empty token being removed from the
    storage; after [logout] they lead to the login page; and the stored
    theme is not touched. *)
Theorem setToken_guards_routes :
  forall (t : option string) (st : State),
    (ProtectedRoute (storage (setToken t st)) = Children
     <-> exists v, t = Some v /\ v <> "")
    /\ (truthy t = false -> getItem "token" (storage (setToken t st)) = None)
    /\ ProtectedRoute (storage (logout st)) = NavigateToLogin
    /\ getItem "theme" (storage (setToken t st)) = getItem "theme" (storage st)
    /\ token (setToken t st) = t.
Proof.
  intros t st. unfold logout, ProtectedRoute, setToken. cbn [storage token].
  split; [|split; [|split; [|split]]].
  - destruct t as [v|]; simpl.
    + destruct (String.eqb_spec v "") as [E|E]; simpl.
      * rewrite getItem_removeItem. simpl.
        split; [discriminate|]. intros (v' & [= <-] & H). contradiction.
      * unfold getItem, setItem. rewrite Map_get_set_same. simpl.
        apply String.eqb_neq in E. rewrite E. simpl.
        split; [|reflexivity]. intros _. exists v. split; [reflexivity|].
        now apply String.eqb_neq.
    + rewrite getItem_removeItem. simpl.
      split; [discriminate|]. intros (v & H & _). discriminate.
  - destruct t as [v|]; simpl.
    + intro H. rewrite H. apply getItem_removeItem.
    + intros _. apply getItem_removeItem.
  - now rewrite getItem_removeItem.
  - destruct t as [v|]; simpl.
    + destruct (negb (v =? "")).
      * unfold getItem, setItem. apply Map_get_set_other. discriminate.
      * apply getItem_removeItem_other. discriminate.
    + apply getItem_removeItem_other. discriminate.
  - reflexivity.
Qed.

(** X20.  The theme survives a reload: what the effect stores is read
    back as the same theme when the application starts again, whichever
    way the theme was toggled; the token is not touched.  Without a stored
    theme the application starts dark, and a stored value other than
    [dark] starts it light. *)
Theorem theme_is_restored :
  forall st : State,
    isDark (init (storage (themeEffect st))) = isDark st
    /\ isDark (init (storage (toggle st))) = negb (isDark st)
    /\ isDark (toggle (toggle st)) = isDark st
    /\ getItem "token" (storage (toggle st)) = getItem "token" (storage st)
    /\ (getItem "theme" (storage st) = None -> isDark (init (storage st)) = true)
    /\ (forall v, getItem "theme" (storage st) = Some v ->
                  v <> "" -> v <> "dark" ->
                  isDark (init (storage st)) = false).
Proof.
  intro st. unfold toggle, themeEffect, init, initialIsDark.
  cbn [isDark storage token]. unfold getItem, setItem.
  rewrite !Map_get_set_same.
  split; [now destruct (isDark st)|].
  split; [now destruct (isDark st)|].
  split; [now destruct (isDark st)|].
  split; [apply Map_get_set_other; discriminate|].
  split.
  - intros ->. reflexivity.
  - intros v -> Hne Hd. simpl.
    apply String.eqb_neq in Hne, Hd. now rewrite Hne, Hd.
Qed.

End AppFacts.
